(** * The CMA channel of tensorpipe: context, copy worker, channel loop

    A shallow embedding of [tensorpipe/channel/cma/cma.cc] and [cma.h].

    - [Context]: the copy worker ([handleCopyRequests_]), the request queue,
      the [closed_]/[joined_] latches, [close] and [join], and the domain
      descriptor built at construction.
    - [Loop]: [deferToLoop_], as an interleaving of threads whose critical
      sections (the blocks holding [mutex_]) are atomic steps.
    - [Channel]: the functions that run inside the loop ([sendFromLoop_],
      [recvFromLoop_], [closeFromLoop_], [onPacket_], [onNotification_],
      [handleError_]) in a state-and-exception monad that logs every call
      leaving the channel (user callbacks, transport, context).
    - [Transfer]: one transfer across the three, from [sendFromLoop_] on the
      sender to the completion of the send.

    Integers are [Z]; [uint64_t] and [size_t] arithmetic is written with its
    wrap-around at [2^64]. *)

From Stdlib Require Import ZArith List Ascii String Bool Lia Arith PeanoNat.
From Stdlib Require Import DecimalString DecimalN DecimalPos Permutation.
Import ListNotations.

Set Implicit Arguments.
Open Scope Z_scope.

(** ** Machine integers *)

Definition UINT64_MODULUS : Z := 2 ^ 64.

(** Conversion to [uint64_t] / [size_t] (LP64): reduction modulo [2^64]. *)
Definition to_uint64 (z : Z) : Z := z mod UINT64_MODULUS.

Definition is_size_t (z : Z) : Prop := 0 <= z < UINT64_MODULUS.

(** ** Errors

    [Error::kSuccess] and the error classes built with [TP_CREATE_ERROR] in
    cma.cc.  [TransportError] stands for whatever error the transport hands to
    a read or write callback. *)

Inductive Error : Type :=
| kSuccess
| SystemError (syscall : string) (errnum : Z)
| ShortReadError (expected actual : Z)
| ChannelClosedError
| TransportError (what : string).

(** [Error::operator bool]: true when an error is set. *)
Definition isError (e : Error) : bool :=
  match e with
  | kSuccess => false
  | _ => true
  end.

Lemma isError_true (e : Error) : isError e = true <-> e <> kSuccess.
Proof. destruct e; simpl; split; congruence. Qed.

(** ** Outcome of a call that may throw ([TP_THROW_ASSERT], [TP_THROW_ASSERT_IF]) *)

Inductive Outcome (A : Type) : Type :=
| Returned (a : A)
| Thrown (msg : string).

Arguments Returned {A} a.
Arguments Thrown {A} msg.

(** ** Strings *)

Lemma append_assoc (a b c : string) :
  ((a ++ b) ++ c)%string = (a ++ (b ++ c))%string.
Proof. induction a as [| ch a IH]; simpl; [reflexivity | now rewrite IH]. Qed.

(** * The context *)

Module Context.

(** [struct iovec]. *)
Record iovec : Type := { iov_base : Z; iov_len : Z }.

Section Worker.

(** [copy_request_callback_fn]: [std::function<void(const Error&)>].  The
    worker only ever calls it, so it is kept abstract and each call is
    logged. *)
Variable Callback : Type.

Record CopyRequest : Type := {
  remotePid : Z;
  remotePtr : Z;
  localPtr : Z;
  length : Z;
  callback : Callback
}.

(** The operating system, as seen by the worker thread: a state [World], the
    system call [process_vm_readv pid local_iov remote_iov flags] returning
    the new state and the [ssize_t] result, and [errno] read afterwards. *)
Variable World : Type.
Variable process_vm_readv :
  World -> Z -> list iovec -> list iovec -> Z -> World * Z.
Variable errno : World -> Z.

Inductive WorkerEvent : Type :=
| EvProcessVmReadv (pid : Z) (local remote : list iovec) (flags : Z)
| EvCallback (cb : Callback) (e : Error).

(** The body of the [while (true)] loop of [handleCopyRequests_], after a
    request has been popped. *)
Definition performCopy (request : CopyRequest) (w : World)
  : list WorkerEvent * World :=
  let local := {| iov_base := localPtr request; iov_len := length request |} in
  let remote := {| iov_base := remotePtr request; iov_len := length request |} in
  let '(w', nread) := process_vm_readv w (remotePid request) [local] [remote] 0 in
  let e :=
    if nread =? -1 then SystemError "cma" (errno w')
    else if negb (to_uint64 nread =? length request)
         then ShortReadError (length request) nread
         else kSuccess in
  ([EvProcessVmReadv (remotePid request) [local] [remote] 0;
    EvCallback (callback request) e], w').

(** How the worker thread stands: it left the loop on the sentinel, or it
    waits in [requests_.pop()] on an empty queue. *)
Inductive WorkerStatus : Type := Exited | WaitingInPop.

(** [handleCopyRequests_] run on the items [q] that [requests_.pop()] hands
    out, in order.  Returns the calls made, the items left unpopped, the
    final OS state and where the worker stands. *)
Fixpoint handleCopyRequests_ (q : list (option CopyRequest)) (w : World)
  : list WorkerEvent * list (option CopyRequest) * World * WorkerStatus :=
  match q with
  | [] => ([], [], w, WaitingInPop)
  | None :: rest => ([], rest, w, Exited)
  | Some request :: rest =>
      let '(evs, w') := performCopy request w in
      let '(evs', rest', w'', status) := handleCopyRequests_ rest w' in
      (evs ++ evs', rest', w'', status)
  end.

(** The requests the worker pops: those before the first sentinel. *)
Fixpoint poppedRequests (q : list (option CopyRequest)) : list CopyRequest :=
  match q with
  | Some request :: rest => request :: poppedRequests rest
  | _ => []
  end.

(** The table of section 4.1 of the specification, read as a relation
    between the primitive's result and the callback's argument. *)
Definition reportedAs (len nread errnum : Z) (e : Error) : Prop :=
  (nread = -1 -> e = SystemError "cma" errnum) /\
  (nread <> -1 -> nread <> len -> e = ShortReadError len nread) /\
  (nread = len -> e = kSuccess).

(** What is asked of the worker for a list of popped requests: per request,
    one call of the primitive with the request's arguments followed by one
    call of the request's callback. *)
Inductive servesEach : World -> list CopyRequest -> list WorkerEvent -> Prop :=
| serves_nil w : servesEach w [] []
| serves_cons w w' nread request rest evs e :
    process_vm_readv w (remotePid request)
      [{| iov_base := localPtr request; iov_len := length request |}]
      [{| iov_base := remotePtr request; iov_len := length request |}] 0
      = (w', nread) ->
    reportedAs (length request) nread (errno w') e ->
    servesEach w' rest evs ->
    servesEach w (request :: rest)
      (EvProcessVmReadv (remotePid request)
         [{| iov_base := localPtr request; iov_len := length request |}]
         [{| iov_base := remotePtr request; iov_len := length request |}] 0
       :: EvCallback (callback request) e :: evs).

(** The contract of the primitive: bytes transferred, or -1. *)
Definition readvContract : Prop :=
  forall w pid l r f, -1 <= snd (process_vm_readv w pid l r f) < 2 ^ 63.

(** ** Construction and the domain descriptor *)

(** What the process reads at construction: [getBootID()] (absent when the
    boot id cannot be read), [geteuid()] and [getegid()]. *)
Variable getBootID : option string.
Variable geteuid : Z.
Variable getegid : Z.

Definition kChannelName : string := "cma".

(** [oss << s] on a [std::ostringstream]: the text grows at its end. *)
Definition oss_put (oss s : string) : string := (oss ++ s)%string.

(** [oss << n] for an unsigned integer: its decimal digits. *)
Definition decimal (n : Z) : string :=
  NilZero.string_of_uint (N.to_uint (Z.to_N n)).

Definition generateDomainDescriptor : Outcome string :=
  let oss := EmptyString in
  let bootID := getBootID in
  match bootID with
  | None => Thrown "Unable to read boot_id"
  | Some bootIDValue =>
      let oss := oss_put oss kChannelName in
      let oss := oss_put (oss_put oss ":") bootIDValue in
      let oss := oss_put (oss_put oss "/") (decimal geteuid) in
      let oss := oss_put (oss_put oss "/") (decimal getegid) in
      Returned oss
  end.

(** ** Close and join

    [Context::Impl]'s fields, the threads calling into it, and a log of what
    it does to its collaborators. *)

Inductive ContextEvent : Type :=
| EvClosingEmitterClose                    (* closingEmitter_.close() *)
| EvPush (item : option CopyRequest)       (* requests_.push(item) *)
| EvWorker (e : WorkerEvent)               (* a call made by the worker *)
| EvThreadJoin.                            (* thread_.join() returned *)

(** Program points of a thread inside [close()]. *)
Inductive ClosePc : Type :=
| AtCloseCas         (* before closed_.compare_exchange_strong *)
| AtEmitterClose     (* !wasClosed: before closingEmitter_.close() *)
| AtPushSentinel.    (* before requests_.push(nullopt) *)

(** Program points of a thread: outside the context, inside [close()]
    (called by the user or from [join()]), or inside [join()]. *)
Inductive Pc : Type :=
| Idle
| InClose (pc : ClosePc) (fromJoin : bool)
| AtJoinLock         (* waiting for mutex_ *)
| AtJoinCas          (* close() returned; before joined_.compare_exchange_strong *)
| AtThreadJoin       (* !wasJoined: inside thread_.join() *)
| AtJoinUnlock.      (* leaving join(): lock goes out of scope *)

Inductive ThreadState : Type := Running | Finished.

Record Impl : Type := {
  domainDescriptor_ : string;
  requests_ : list (option CopyRequest);
  closed_ : bool;
  joined_ : bool;
  mutex_ : option nat;          (* the thread holding mutex_, if any *)
  thread_ : ThreadState;        (* the worker thread *)
  world : World;                (* the operating system *)
  pcs : nat -> Pc;              (* where each calling thread stands *)
  log : list ContextEvent       (* calls made so far, oldest first *)
}.

(** [Context::Impl::Impl()]: builds the descriptor (which may throw), an empty
    queue, both latches false, and starts the worker. *)
Definition Impl_ctor (w : World) : Outcome Impl :=
  match generateDomainDescriptor with
  | Thrown msg => Thrown msg
  | Returned d =>
      Returned {| domainDescriptor_ := d; requests_ := []; closed_ := false;
                  joined_ := false; mutex_ := None; thread_ := Running;
                  world := w; pcs := fun _ => Idle; log := [] |}
  end.

(** [Context::Impl::domainDescriptor()]. *)
Definition domainDescriptor (st : Impl) : string := domainDescriptor_ st.

(** [std::atomic<bool>::compare_exchange_strong(expected, desired)]: returns
    the new value of the atomic and the new value of [expected]. *)
Definition compare_exchange_strong (obj expected desired : bool) : bool * bool :=
  if Bool.eqb obj expected then (desired, expected) else (obj, obj).

Definition setPc (t : nat) (pc : Pc) (f : nat -> Pc) : nat -> Pc :=
  fun t' => if Nat.eqb t' t then pc else f t'.

Definition withPc (t : nat) (pc : Pc) (st : Impl) : Impl :=
  {| domainDescriptor_ := domainDescriptor_ st; requests_ := requests_ st;
     closed_ := closed_ st; joined_ := joined_ st; mutex_ := mutex_ st;
     thread_ := thread_ st; world := world st; pcs := setPc t pc (pcs st);
     log := log st |}.

Definition withClosed (b : bool) (st : Impl) : Impl :=
  {| domainDescriptor_ := domainDescriptor_ st; requests_ := requests_ st;
     closed_ := b; joined_ := joined_ st; mutex_ := mutex_ st;
     thread_ := thread_ st; world := world st; pcs := pcs st; log := log st |}.

Definition withJoined (b : bool) (st : Impl) : Impl :=
  {| domainDescriptor_ := domainDescriptor_ st; requests_ := requests_ st;
     closed_ := closed_ st; joined_ := b; mutex_ := mutex_ st;
     thread_ := thread_ st; world := world st; pcs := pcs st; log := log st |}.

Definition withMutex (m : option nat) (st : Impl) : Impl :=
  {| domainDescriptor_ := domainDescriptor_ st; requests_ := requests_ st;
     closed_ := closed_ st; joined_ := joined_ st; mutex_ := m;
     thread_ := thread_ st; world := world st; pcs := pcs st; log := log st |}.

Definition logged (e : list ContextEvent) (st : Impl) : Impl :=
  {| domainDescriptor_ := domainDescriptor_ st; requests_ := requests_ st;
     closed_ := closed_ st; joined_ := joined_ st; mutex_ := mutex_ st;
     thread_ := thread_ st; world := world st; pcs := pcs st;
     log := log st ++ e |}.

(** [requests_.push(item)].  The queue is built with room for [INT_MAX]
    items; a push into a full queue would wait, which is left out. *)
Definition push (item : option CopyRequest) (st : Impl) : Impl :=
  logged [EvPush item]
    {| domainDescriptor_ := domainDescriptor_ st;
       requests_ := requests_ st ++ [item];
       closed_ := closed_ st; joined_ := joined_ st; mutex_ := mutex_ st;
       thread_ := thread_ st; world := world st; pcs := pcs st;
       log := log st |}.

(** Where a thread goes when [close()] returns. *)
Definition afterClose (fromJoin : bool) : Pc :=
  if fromJoin then AtJoinCas else Idle.

(** One step of thread [t] inside [close()] or [join()]: from its program
    point to the next.  A thread that must wait (for [mutex_], or in
    [thread_.join()] for the worker to finish) stays where it is. *)
Definition stepThread (t : nat) (st : Impl) : Impl :=
  match pcs st t with
  | Idle => st
  | InClose AtCloseCas fromJoin =>
      let wasClosed := false in
      let '(obj, wasClosed) := compare_exchange_strong (closed_ st) wasClosed true in
      withPc t (if negb wasClosed then InClose AtEmitterClose fromJoin
                else afterClose fromJoin)
        (withClosed obj st)
  | InClose AtEmitterClose fromJoin =>
      withPc t (InClose AtPushSentinel fromJoin)
        (logged [EvClosingEmitterClose] st)
  | InClose AtPushSentinel fromJoin =>
      withPc t (afterClose fromJoin) (push None st)
  | AtJoinLock =>
      match mutex_ st with
      | None => withPc t (InClose AtCloseCas true) (withMutex (Some t) st)
      | Some _ => st
      end
  | AtJoinCas =>
      let wasJoined := false in
      let '(obj, wasJoined) := compare_exchange_strong (joined_ st) wasJoined true in
      withPc t (if negb wasJoined then AtThreadJoin else AtJoinUnlock)
        (withJoined obj st)
  | AtThreadJoin =>
      match thread_ st with
      | Finished => withPc t AtJoinUnlock (logged [EvThreadJoin] st)
      | Running => st
      end
  | AtJoinUnlock => withPc t Idle (withMutex None st)
  end.

(** One turn of the worker's loop in [handleCopyRequests_]: pop an item if
    there is one; leave on the sentinel, serve a request otherwise. *)
Definition stepWorker (st : Impl) : Impl :=
  match thread_ st, requests_ st with
  | Running, None :: rest =>
      {| domainDescriptor_ := domainDescriptor_ st; requests_ := rest;
         closed_ := closed_ st; joined_ := joined_ st; mutex_ := mutex_ st;
         thread_ := Finished; world := world st; pcs := pcs st;
         log := log st |}
  | Running, Some request :: rest =>
      let '(evs, w') := performCopy request (world st) in
      {| domainDescriptor_ := domainDescriptor_ st; requests_ := rest;
         closed_ := closed_ st; joined_ := joined_ st; mutex_ := mutex_ st;
         thread_ := thread_ st; world := w'; pcs := pcs st;
         log := log st ++ map EvWorker evs |}
  | _, _ => st
  end.

(** What can happen next: an idle thread calls [close()], [join()] or
    [requestCopy(...)]; a thread inside a call moves on; the worker takes a
    turn. *)
Inductive Action : Type :=
| CallClose (t : nat)
| CallJoin (t : nat)
| CallRequestCopy (t : nat) (request : CopyRequest)
| Step (t : nat)
| WorkerStep.

Definition isIdle (pc : Pc) : bool :=
  match pc with Idle => true | _ => false end.

Definition act (a : Action) (st : Impl) : Impl :=
  match a with
  | CallClose t =>
      if isIdle (pcs st t) then withPc t (InClose AtCloseCas false) st else st
  | CallJoin t =>
      if isIdle (pcs st t) then withPc t AtJoinLock st else st
  | CallRequestCopy t request =>
      if isIdle (pcs st t) then push (Some request) st else st
  | Step t => stepThread t st
  | WorkerStep => stepWorker st
  end.

(** A schedule, run from a state. *)
Definition run (sched : list Action) (st : Impl) : Impl :=
  fold_left (fun s a => act a s) sched st.

(** Counting events in the log. *)
Definition isEmitterClose (e : ContextEvent) : bool :=
  match e with EvClosingEmitterClose => true | _ => false end.

Definition isSentinelPush (e : ContextEvent) : bool :=
  match e with EvPush None => true | _ => false end.

Definition isThreadJoin (e : ContextEvent) : bool :=
  match e with EvThreadJoin => true | _ => false end.

Definition count (p : ContextEvent -> bool) (l : list ContextEvent) : nat :=
  List.length (filter p l).

Definition isSentinel (item : option CopyRequest) : bool :=
  match item with None => true | Some _ => false end.



(** A thread that won the race on [closed_] and is still inside the guarded
    block of [close()]. *)
Definition winnerPc (pc : Pc) : bool :=
  match pc with
  | InClose AtEmitterClose _ | InClose AtPushSentinel _ => true
  | _ => false
  end.

(** A thread inside [join()] past the acquisition of [mutex_]. *)
Definition inJoin (pc : Pc) : bool :=
  match pc with
  | InClose _ true | AtJoinCas | AtThreadJoin | AtJoinUnlock => true
  | _ => false
  end.

Definition workerExits (th : ThreadState) : nat :=
  match th with Finished => 1%nat | Running => 0%nat end.

(** What holds of the context in every state it can reach. *)
Record Inv (st : Impl) : Prop := {
  inv_winner_unique : forall t1 t2,
    winnerPc (pcs st t1) = true -> winnerPc (pcs st t2) = true -> t1 = t2;
  inv_winner_closed : forall t,
    winnerPc (pcs st t) = true -> closed_ st = true;
  inv_at_emit : forall t fromJoin,
    pcs st t = InClose AtEmitterClose fromJoin ->
    count isEmitterClose (log st) = 0%nat;
  inv_at_push : forall t fromJoin,
    pcs st t = InClose AtPushSentinel fromJoin ->
    count isEmitterClose (log st) = 1%nat /\
    count isSentinelPush (log st) = 0%nat;
  inv_open : closed_ st = false -> count isEmitterClose (log st) = 0%nat;
  inv_counts :
    (count isSentinelPush (log st) <= count isEmitterClose (log st))%nat /\
    (count isEmitterClose (log st) <= 1)%nat;
  inv_done : closed_ st = true ->
    (forall t, winnerPc (pcs st t) = false) ->
    count isSentinelPush (log st) = 1%nat;
  inv_queue :
    (List.length (filter isSentinel (requests_ st)) + workerExits (thread_ st))%nat
    = count isSentinelPush (log st);
  inv_mutex : forall t, inJoin (pcs st t) = true <-> mutex_ st = Some t;
  inv_close_first : forall t,
    pcs st t = AtJoinCas \/ pcs st t = AtThreadJoin \/ pcs st t = AtJoinUnlock ->
    closed_ st = true;
  inv_joined_closed : joined_ st = true -> closed_ st = true;
  inv_at_join : forall t,
    pcs st t = AtThreadJoin ->
    joined_ st = true /\ count isThreadJoin (log st) = 0%nat;
  inv_unjoined : joined_ st = false -> count isThreadJoin (log st) = 0%nat;
  inv_join_once : (count isThreadJoin (log st) <= 1)%nat;
  inv_joined : joined_ st = true ->
    (forall t, pcs st t <> AtThreadJoin) ->
    count isThreadJoin (log st) = 1%nat;
  inv_join_finished :
    count isThreadJoin (log st) = 1%nat -> thread_ st = Finished
}.

(** Reading a decimal numeral back. *)
Definition readDecimal (s : string) : option Z :=
  option_map (fun d => Z.of_N (N.of_uint d)) (NilZero.uint_of_string s).

(** ** Requests and channels

    [Context::Impl::requestCopy]. *)
Definition requestCopy (remotePid remotePtr localPtr length : Z)
    (fn : Callback) (st : Impl) : Impl :=
  push (Some {| remotePid := remotePid; remotePtr := remotePtr;
                localPtr := localPtr; length := length; callback := fn |})
    st.

(** [Context::Impl::createChannel]: [TP_THROW_ASSERT_IF(joined_)], then the
    channel that [std::make_shared<Channel>(...)] builds, given as [make]. *)
Definition createChannel {Channel : Type} (make : Channel) (st : Impl)
  : Outcome Channel :=
  if joined_ st then Thrown "TP_THROW_ASSERT_IF" else Returned make.

(** The callbacks the worker called, oldest first. *)
Definition callbacksIn (evs : list WorkerEvent) : list Callback :=
  flat_map (fun e => match e with
                     | EvCallback cb _ => [cb]
                     | EvProcessVmReadv _ _ _ _ => []
                     end) evs.

(** The items pushed on the queue and the callbacks called by the worker,
    as the log of the context has them, oldest first. *)
Definition pushedIn (l : list ContextEvent) : list (option CopyRequest) :=
  flat_map (fun e => match e with EvPush item => [item] | _ => [] end) l.

Definition workerCallbacksIn (l : list ContextEvent) : list Callback :=
  flat_map (fun e => match e with EvWorker e' => callbacksIn [e'] | _ => [] end)
    l.

(** The sentinel, once the worker has popped it. *)
Definition poppedSentinel (th : ThreadState) : list (option CopyRequest) :=
  match th with Finished => [None] | Running => [] end.

(** [served] are the requests the worker has popped so far: the items pushed
    are these, then the sentinel if the worker has left, then what is still
    queued; and the worker called the callbacks of these. *)
Definition servedSoFar (st : Impl) (served : list CopyRequest) : Prop :=
  pushedIn (log st)
  = map Some served ++ poppedSentinel (thread_ st) ++ requests_ st /\
  workerCallbacksIn (log st) = map callback served.

(** An action that is not of thread [t]. *)
Definition notBy (t : nat) (a : Action) : Prop :=
  match a with
  | CallClose t' | CallJoin t' | CallRequestCopy t' _ | Step t' => t' <> t
  | WorkerStep => True
  end.

Definition isCallJoin (a : Action) : bool :=
  match a with CallJoin _ => true | _ => false end.

(** A thread that is not inside [join()]. *)
Definition outsideJoin (pc : Pc) : bool :=
  match pc with Idle | InClose _ false => true | _ => false end.

(** How many steps of its own a thread inside a user's [close()] still has
    to take, at most. *)
Definition closeRank (pc : Pc) : nat :=
  match pc with
  | Idle => 0
  | InClose AtPushSentinel false => 1
  | InClose AtEmitterClose false => 2
  | InClose AtCloseCas false => 3
  | _ => 4
  end.

(** Whether a text has a "/" in it. *)
Fixpoint hasSlash (s : string) : bool :=
  match s with
  | EmptyString => false
  | String c s' => Ascii.eqb c "/"%char || hasSlash s'
  end.

(** ** The worker *)

Lemma reportedAs_performCopy (len nread errnum : Z) :
  is_size_t len -> -1 <= nread < 2 ^ 63 ->
  reportedAs len nread errnum
    (if nread =? -1 then SystemError "cma" errnum
     else if negb (to_uint64 nread =? len)
          then ShortReadError len nread
          else kSuccess).
Proof.
  unfold is_size_t, reportedAs, to_uint64, UINT64_MODULUS. intros Hlen Hn.
  destruct (Z.eqb_spec nread (-1)) as [-> | Hne].
  - repeat split; intros; try congruence; lia.
  - assert (Hmod : nread mod 2 ^ 64 = nread) by (apply Z.mod_small; lia).
    rewrite Hmod.
    destruct (Z.eqb_spec nread len); simpl; repeat split; intros; congruence.
Qed.

Lemma performCopy_serves (request : CopyRequest) (w : World) :
  readvContract -> is_size_t (length request) ->
  exists w' nread e,
    process_vm_readv w (remotePid request)
      [{| iov_base := localPtr request; iov_len := length request |}]
      [{| iov_base := remotePtr request; iov_len := length request |}] 0
      = (w', nread) /\
    reportedAs (length request) nread (errno w') e /\
    performCopy request w =
      ([EvProcessVmReadv (remotePid request)
          [{| iov_base := localPtr request; iov_len := length request |}]
          [{| iov_base := remotePtr request; iov_len := length request |}] 0;
        EvCallback (callback request) e], w').
Proof.
  intros Hos Hlen. unfold performCopy.
  pose proof (Hos w (remotePid request)
    [{| iov_base := localPtr request; iov_len := length request |}]
    [{| iov_base := remotePtr request; iov_len := length request |}] 0) as Hn.
  destruct (process_vm_readv _ _ _ _ _) as [w' nread]. simpl in Hn.
  eexists w', nread, _. split; [reflexivity | split; [| reflexivity]].
  now apply reportedAs_performCopy.
Qed.

(** C1.  For every request the worker pops (those ahead of the first
    sentinel), it calls [process_vm_readv] once with the request's pid, one
    local iovec (localPtr, length), one remote iovec (remotePtr, length) and
    flags 0, and then calls the request's callback once: with
    [SystemError "cma" errno] when the primitive returned -1, with
    [ShortReadError length n] when it returned another [n <> length], with
    [kSuccess] when it returned [length].  Nothing else is called.  A request
    of length 0 goes the same way: the primitive is called and a result of 0
    is reported as success. *)
Theorem worker_serves_each_request (q : list (option CopyRequest)) (w : World) :
  readvContract ->
  Forall (fun request => is_size_t (length request)) (poppedRequests q) ->
  servesEach w (poppedRequests q) (fst (fst (fst (handleCopyRequests_ q w)))) /\
  (forall request w0,
     length request = 0 ->
     snd (process_vm_readv w0 (remotePid request)
            [{| iov_base := localPtr request; iov_len := 0 |}]
            [{| iov_base := remotePtr request; iov_len := 0 |}] 0) = 0 ->
     fst (performCopy request w0) =
       [EvProcessVmReadv (remotePid request)
          [{| iov_base := localPtr request; iov_len := 0 |}]
          [{| iov_base := remotePtr request; iov_len := 0 |}] 0;
        EvCallback (callback request) kSuccess]).
Proof.
  intros Hos Hq. split.
  - revert w Hq. induction q as [| [request |] rest IH]; intros w Hq; simpl.
    + constructor.
    + simpl in Hq. inversion Hq as [| ? ? Hlen Hrest]; subst.
      destruct (performCopy_serves request w Hos Hlen)
        as (w' & nread & e & Hcall & Hrep & Hperf).
      rewrite Hperf. specialize (IH w' Hrest).
      destruct (handleCopyRequests_ rest w') as [[[evs' rest'] w''] status].
      simpl in *. econstructor; eassumption.
    + constructor.
  - intros request w0 Hlen Hres. unfold performCopy. rewrite Hlen.
    destruct (process_vm_readv _ _ _ _ _) as [w' nread]. simpl in Hres.
    subst nread. reflexivity.
Qed.

(** ** The latches *)

Lemma count_app (p : ContextEvent -> bool) (l l' : list ContextEvent) :
  count p (l ++ l') = (count p l + count p l')%nat.
Proof. unfold count. now rewrite filter_app, length_app. Qed.

Lemma count_worker (p : ContextEvent -> bool) (evs : list WorkerEvent) :
  (forall e, p (EvWorker e) = false) -> count p (map EvWorker evs) = 0%nat.
Proof.
  intros Hp. unfold count. induction evs as [| e evs IH]; simpl.
  - reflexivity.
  - now rewrite Hp.
Qed.

Lemma count_one (p : ContextEvent -> bool) (e : ContextEvent) :
  count p [e] = if p e then 1%nat else 0%nat.
Proof. unfold count. simpl. now destruct (p e). Qed.

Ltac unfold_state :=
  unfold withPc, withClosed, withJoined, withMutex, push, logged, setPc,
    afterClose, compare_exchange_strong in *.

Ltac split_threads :=
  repeat match goal with
    | |- context [Nat.eqb ?a ?b] => destruct (Nat.eqb_spec a b); subst
    | H : context [Nat.eqb ?a ?b] |- _ => destruct (Nat.eqb_spec a b); subst
    end.

Ltac at_thread t Hpc I :=
  pose proof (inv_winner_closed I t) as Hwc_t;
  pose proof (inv_at_emit I t) as Hemit_t;
  pose proof (inv_at_push I t) as Hpush_t;
  pose proof (proj1 (inv_mutex I t)) as Hmx_t;
  pose proof (proj2 (inv_mutex I t)) as Hmx_t';
  pose proof (inv_close_first I t) as Hcf_t;
  pose proof (inv_at_join I t) as Hjoin_t;
  pose proof (fun t' => inv_winner_unique I t' t) as Huniq_t;
  rewrite Hpc in Hwc_t, Hemit_t, Hpush_t, Hmx_t, Hmx_t', Hcf_t, Hjoin_t, Huniq_t;
  simpl in Hwc_t, Hemit_t, Hpush_t, Hmx_t, Hmx_t', Hcf_t, Hjoin_t, Huniq_t;
  try specialize (Hwc_t eq_refl);
  try specialize (Hemit_t _ eq_refl);
  try specialize (Hpush_t _ eq_refl);
  try specialize (Hjoin_t eq_refl);
  try specialize (Hmx_t eq_refl);
  try (match type of I with
       | Inv ?s => assert (Hclosed_t : closed_ s = true) by (apply Hcf_t; auto)
       end).

(** Goals on all threads of the new state, from the same on the old state. *)
Ltac every_thread Hpc :=
  let t0 := fresh "t0" in
  intros t0;
  repeat match goal with
    | H : forall _ : nat, _ |- _ => specialize (H t0)
    end;
  split_threads; rewrite ?Hpc in *; simpl in *;
  solve [congruence | intuition congruence | auto].

(** Facts the invariant gives about threads named in the context. *)
Ltac saturate :=
  repeat match goal with
    | H : pcs ?st ?x = AtThreadJoin,
      Hm : forall t0, inJoin (pcs ?st t0) = true <-> mutex_ ?st = Some t0 |- _ =>
        lazymatch goal with
        | _ : mutex_ st = Some x |- _ => fail
        | _ => assert (mutex_ st = Some x) by (apply Hm; rewrite H; reflexivity)
        end
    | H : pcs ?st ?x = AtThreadJoin,
      Hj : forall t, pcs ?st t = AtThreadJoin -> _ /\ _ |- _ =>
        lazymatch goal with
        | _ : count isThreadJoin (log st) = 0%nat |- _ => fail
        | _ => destruct (Hj x H)
        end
    | H : pcs ?st ?x = InClose AtEmitterClose _ |- _ =>
        lazymatch goal with
        | _ : winnerPc (pcs st x) = true |- _ => fail
        | _ => assert (winnerPc (pcs st x) = true) by (rewrite H; reflexivity)
        end
    | H : pcs ?st ?x = InClose AtPushSentinel _ |- _ =>
        lazymatch goal with
        | _ : winnerPc (pcs st x) = true |- _ => fail
        | _ => assert (winnerPc (pcs st x) = true) by (rewrite H; reflexivity)
        end
    | Hw : winnerPc (pcs ?st ?x) = true,
      Hu : forall t', winnerPc (pcs ?st t') = true -> true = true -> t' = ?t
      |- _ =>
        lazymatch goal with
        | _ : x = t |- _ => fail
        | _ => pose proof (Hu x Hw eq_refl)
        end
    | Hw : winnerPc (pcs ?st ?x) = true,
      Hc : forall t, winnerPc (pcs ?st t) = true -> closed_ ?st = true |- _ =>
        lazymatch goal with
        | _ : closed_ st = true |- _ => fail
        | _ => pose proof (Hc x Hw)
        end
    end.

Ltac finish t Hpc :=
  saturate;
  first
    [ solve [eauto | congruence | lia | intuition eauto | intuition congruence
             | intuition lia | exfalso; congruence]
    | solve [match goal with
             | Hd : closed_ _ = true -> (forall t, winnerPc _ = false) -> _ |- _ =>
                 apply Hd; [solve [eauto | congruence] | every_thread Hpc]
             | Hj : joined_ _ = true -> (forall t, _ <> AtThreadJoin) -> _ |- _ =>
                 apply Hj; [solve [eauto | congruence] | every_thread Hpc]
             end]
    | solve [match goal with
             | H : forall t0 : nat, _ |- _ =>
                 specialize (H t); split_threads; simpl in *; congruence
             end]
    | solve [match goal with
             | Hm : forall t0, inJoin (pcs ?st t0) = true <-> _
               |- inJoin (pcs ?st ?x) = true <-> _ =>
                 let Hx := fresh "Hx" in
                 let Hy := fresh "Hy" in
                 pose proof (Hm x) as Hx; split; intros Hy;
                 [ apply Hx in Hy; congruence
                 | first [exfalso; congruence | apply Hx; congruence] ]
             end]
    | idtac ].

Ltac preserve t Hpc I :=
  at_thread t Hpc I; destruct I;
  constructor; unfold_state; simpl; intros; split_threads; simpl in *;
  rewrite ?count_app, ?count_one, ?filter_app, ?length_app in *; simpl in *;
  rewrite ?Nat.add_0_r in *; finish t Hpc.

Lemma act_Inv (a : Action) (st : Impl) : Inv st -> Inv (act a st).
Proof.
  intros I. destruct a as [t | t | t request | t |]; simpl.
  - destruct (pcs st t) eqn:Hpc; simpl; try assumption. preserve t Hpc I.
  - destruct (pcs st t) eqn:Hpc; simpl; try assumption. preserve t Hpc I.
  - destruct (pcs st t) eqn:Hpc; simpl; try assumption. preserve t Hpc I.
  - unfold stepThread.
    destruct (pcs st t) as [| [| |] fromJoin | | | |] eqn:Hpc; simpl;
      try assumption.
    + destruct (closed_ st) eqn:Hclosed; simpl.
      * destruct fromJoin; preserve t Hpc I.
      * destruct fromJoin; preserve t Hpc I.
    + preserve t Hpc I.
    + destruct fromJoin; preserve t Hpc I.
    + destruct (mutex_ st) eqn:Hmutex; try assumption. preserve t Hpc I.
    + destruct (joined_ st) eqn:Hjoined; simpl; preserve t Hpc I.
    + destruct (thread_ st) eqn:Hthread; try assumption. preserve t Hpc I.
    + preserve t Hpc I.
  - unfold stepWorker. destruct (thread_ st) eqn:Hthread; [| assumption].
    destruct (requests_ st) as [| [request |] rest] eqn:Hq; [assumption | |].
    + destruct (performCopy request (world st)) as [evs w'].
      destruct I; rewrite Hq, Hthread in *; constructor; simpl; intros;
        rewrite ?count_app, ?count_worker in * by reflexivity;
        simpl in *; rewrite ?Nat.add_0_r in *;
        solve [eauto | congruence | lia | intuition eauto].
    + destruct I; rewrite Hq, Hthread in *; constructor; simpl; intros;
        simpl in *; rewrite ?Nat.add_0_r in *;
        solve [eauto | congruence | lia | intuition eauto].
Qed.

Lemma run_app (s1 s2 : list Action) (st : Impl) :
  run (s1 ++ s2) st = run s2 (run s1 st).
Proof. unfold run. apply fold_left_app. Qed.

Lemma run_Inv (sched : list Action) (st : Impl) : Inv st -> Inv (run sched st).
Proof.
  revert st. induction sched as [| a sched IH]; intros st I; simpl.
  - exact I.
  - apply IH, act_Inv, I.
Qed.

Lemma ctor_Inv (w : World) (st0 : Impl) : Impl_ctor w = Returned st0 -> Inv st0.
Proof.
  unfold Impl_ctor. destruct generateDomainDescriptor as [d | msg];
    [| discriminate].
  intros [= <-]. constructor; unfold count; simpl; intros;
    solve [discriminate | reflexivity | lia | intuition discriminate].
Qed.

Lemma act_closed (a : Action) (st : Impl) :
  closed_ st = true -> closed_ (act a st) = true.
Proof.
  intros Hc. destruct a as [t | t | t request | t |]; simpl.
  - destruct (isIdle (pcs st t)); assumption.
  - destruct (isIdle (pcs st t)); assumption.
  - destruct (isIdle (pcs st t)); assumption.
  - unfold stepThread.
    destruct (pcs st t) as [| [| |] fromJoin | | | |]; simpl; try assumption.
    + rewrite Hc. reflexivity.
    + destruct (mutex_ st); assumption.
    + destruct (compare_exchange_strong (joined_ st) false true); assumption.
    + destruct (thread_ st); assumption.
  - unfold stepWorker. destruct (thread_ st); [| assumption].
    destruct (requests_ st) as [| [request |] rest]; try assumption.
    destruct (performCopy request (world st)); assumption.
Qed.

Lemma act_joined (a : Action) (st : Impl) :
  joined_ st = true -> joined_ (act a st) = true.
Proof.
  intros Hj. destruct a as [t | t | t request | t |]; simpl.
  - destruct (isIdle (pcs st t)); assumption.
  - destruct (isIdle (pcs st t)); assumption.
  - destruct (isIdle (pcs st t)); assumption.
  - unfold stepThread.
    destruct (pcs st t) as [| [| |] fromJoin | | | |]; simpl; try assumption.
    + destruct (compare_exchange_strong (closed_ st) false true); assumption.
    + destruct (mutex_ st); assumption.
    + rewrite Hj. reflexivity.
    + destruct (thread_ st); assumption.
  - unfold stepWorker. destruct (thread_ st); [| assumption].
    destruct (requests_ st) as [| [request |] rest]; try assumption.
    destruct (performCopy request (world st)); assumption.
Qed.

Lemma run_closed (sched : list Action) (st : Impl) :
  closed_ st = true -> closed_ (run sched st) = true.
Proof.
  revert st. induction sched as [| a sched IH]; intros st Hc; simpl;
    [exact Hc | apply IH, act_closed, Hc].
Qed.

Lemma run_joined (sched : list Action) (st : Impl) :
  joined_ st = true -> joined_ (run sched st) = true.
Proof.
  revert st. induction sched as [| a sched IH]; intros st Hj; simpl;
    [exact Hj | apply IH, act_joined, Hj].
Qed.














Lemma pcs_withPc (t : nat) (pc : Pc) (st : Impl) : pcs (withPc t pc st) t = pc.
Proof. unfold withPc, setPc. simpl. now rewrite Nat.eqb_refl. Qed.



Lemma run_nil (st : Impl) : run [] st = st.
Proof. reflexivity. Qed.

Lemma run_cons (a : Action) (sched : list Action) (st : Impl) :
  run (a :: sched) st = run sched (act a st).
Proof. reflexivity. Qed.






(** ** The domain descriptor *)

Lemma readDecimal_decimal (n : Z) : 0 <= n -> readDecimal (decimal n) = Some n.
Proof.
  intros Hn. unfold readDecimal, decimal.
  rewrite NilZero.usu.
  - simpl. rewrite DecimalN.Unsigned.of_to. now rewrite Z2N.id.
  - destruct (Z.to_N n); simpl;
      [discriminate | apply DecimalPos.Unsigned.to_uint_nonnil].
Qed.

Lemma act_domainDescriptor (a : Action) (st : Impl) :
  domainDescriptor_ (act a st) = domainDescriptor_ st.
Proof.
  destruct a as [t | t | t request | t |]; simpl.
  - destruct (isIdle (pcs st t)); reflexivity.
  - destruct (isIdle (pcs st t)); reflexivity.
  - destruct (isIdle (pcs st t)); reflexivity.
  - unfold stepThread.
    destruct (pcs st t) as [| [| |] fromJoin | | | |]; simpl; try reflexivity.
    + destruct (compare_exchange_strong (closed_ st) false true); reflexivity.
    + destruct (mutex_ st); reflexivity.
    + destruct (compare_exchange_strong (joined_ st) false true); reflexivity.
    + destruct (thread_ st); reflexivity.
  - unfold stepWorker.
    destruct (thread_ st); [| reflexivity].
    destruct (requests_ st) as [| [request |] rest]; try reflexivity.
    destruct (performCopy request (world st)); reflexivity.
Qed.

Lemma run_domainDescriptor (sched : list Action) (st : Impl) :
  domainDescriptor_ (run sched st) = domainDescriptor_ st.
Proof.
  revert st. induction sched as [| a sched IH]; intros st; simpl.
  - reflexivity.
  - unfold run in IH. rewrite IH. apply act_domainDescriptor.
Qed.

(** C9.  When the boot id can be read, construction succeeds and
    [domainDescriptor()] returns, then and after any calls on the context,
    exactly "cma:" followed by the boot id, "/", the effective user id in
    decimal, "/" and the effective group id in decimal (the decimal numerals
    read back as the two ids).  When the boot id cannot be read, construction
    throws and there is no context to ask for a descriptor. *)
Theorem domainDescriptor_format (w : World) :
  (forall bootID, getBootID = Some bootID ->
     exists st, Impl_ctor w = Returned st /\
       forall sched,
         domainDescriptor (run sched st)
         = ("cma:" ++ bootID ++ "/" ++ decimal geteuid
                   ++ "/" ++ decimal getegid)%string) /\
  (0 <= geteuid -> readDecimal (decimal geteuid) = Some geteuid) /\
  (0 <= getegid -> readDecimal (decimal getegid) = Some getegid) /\
  (getBootID = None -> exists msg, Impl_ctor w = Thrown msg).
Proof.
  split; [| split; [| split]].
  - intros bootID Hboot. unfold Impl_ctor, generateDomainDescriptor.
    rewrite Hboot. eexists. split; [reflexivity |].
    intros sched. unfold domainDescriptor. rewrite run_domainDescriptor.
    simpl. unfold oss_put, kChannelName. simpl.
    repeat rewrite append_assoc. reflexivity.
  - apply readDecimal_decimal.
  - apply readDecimal_decimal.
  - intros Hboot. unfold Impl_ctor, generateDomainDescriptor. rewrite Hboot.
    eexists. reflexivity.
Qed.

(** ** The worker and the queue *)

Lemma callbacksIn_app (l l' : list WorkerEvent) :
  callbacksIn (l ++ l') = callbacksIn l ++ callbacksIn l'.
Proof. apply flat_map_app. Qed.

Lemma pushedIn_app (l l' : list ContextEvent) :
  pushedIn (l ++ l') = pushedIn l ++ pushedIn l'.
Proof. apply flat_map_app. Qed.

Lemma workerCallbacksIn_app (l l' : list ContextEvent) :
  workerCallbacksIn (l ++ l') = workerCallbacksIn l ++ workerCallbacksIn l'.
Proof. apply flat_map_app. Qed.

(** One copy: the callback of the request is called once, whatever the
    system call returns. *)
Lemma performCopy_callbacks (request : CopyRequest) (w : World) :
  callbacksIn (fst (performCopy request w)) = [callback request].
Proof.
  unfold performCopy. now destruct (process_vm_readv _ _ _ _ _).
Qed.

Lemma worker_log (evs : list WorkerEvent) :
  pushedIn (map EvWorker evs) = [] /\
  workerCallbacksIn (map EvWorker evs) = callbacksIn evs.
Proof.
  induction evs as [| e evs [IH1 IH2]]; [now split |].
  split; [exact IH1 |].
  change (callbacksIn [e] ++ workerCallbacksIn (map EvWorker evs)
          = callbacksIn ([e] ++ evs)).
  now rewrite callbacksIn_app, IH2.
Qed.

(** Only the sentinel stops the worker.  On requests alone the worker serves
    every one of them, calling each callback once in the order of the queue
    whatever the copies return, and then waits in [requests_.pop()]; with a
    sentinel behind these requests it does the same and leaves, and what was
    queued behind the sentinel is left in the queue, its callbacks not
    called. *)
Theorem worker_stops_only_at_sentinel (requests : list CopyRequest)
    (behind : list (option CopyRequest)) (w : World) :
  exists evs w',
    handleCopyRequests_ (map Some requests) w = (evs, [], w', WaitingInPop) /\
    handleCopyRequests_ (map Some requests ++ None :: behind) w
    = (evs, behind, w', Exited) /\
    callbacksIn evs = map callback requests.
Proof.
  revert w. induction requests as [| request requests IH]; intros w; simpl.
  - now exists [], w.
  - pose proof (performCopy_callbacks request w) as Hcb.
    destruct (performCopy request w) as [evs1 w1]. simpl in Hcb.
    destruct (IH w1) as (evs & w' & -> & -> & Hrest).
    exists (evs1 ++ evs), w'. rewrite callbacksIn_app, Hcb, Hrest.
    now repeat split.
Qed.

(** What one action does to the requests served so far: it may add to
    them. *)
Lemma act_served (a : Action) (st : Impl) (served : list CopyRequest) :
  servedSoFar st served ->
  exists more, servedSoFar (act a st) (served ++ more).
Proof.
  unfold servedSoFar. intros [Hpushed Hcalled].
  assert (Hsame : forall st',
    log st' = log st -> thread_ st' = thread_ st ->
    requests_ st' = requests_ st ->
    exists more,
      pushedIn (log st')
      = map Some (served ++ more) ++ poppedSentinel (thread_ st')
        ++ requests_ st' /\
      workerCallbacksIn (log st') = map callback (served ++ more)).
  { intros st' -> -> ->. exists []. now rewrite app_nil_r. }
  assert (Hlogged : forall e st',
    log st' = log st ++ [e] -> thread_ st' = thread_ st ->
    requests_ st' = requests_ st ++ pushedIn [e] ->
    workerCallbacksIn [e] = [] ->
    exists more,
      pushedIn (log st')
      = map Some (served ++ more) ++ poppedSentinel (thread_ st')
        ++ requests_ st' /\
      workerCallbacksIn (log st') = map callback (served ++ more)).
  { intros e st' -> -> -> He. exists [].
    rewrite app_nil_r, pushedIn_app, workerCallbacksIn_app, He, Hpushed,
      Hcalled, app_nil_r.
    now rewrite <- !app_assoc. }
  destruct a as [t | t | t request | t |]; simpl.
  - destruct (isIdle (pcs st t)); now apply Hsame.
  - destruct (isIdle (pcs st t)); now apply Hsame.
  - destruct (isIdle (pcs st t)); [| now apply Hsame].
    now apply (Hlogged (EvPush (Some request))).
  - unfold stepThread.
    destruct (pcs st t) as [| [| |] fromJoin | | | |];
      try (now apply Hsame).
    + destruct (closed_ st); now apply Hsame.
    + apply (Hlogged EvClosingEmitterClose); simpl;
        now rewrite ?app_nil_r.
    + now apply (Hlogged (EvPush None)).
    + destruct (mutex_ st); now apply Hsame.
    + destruct (joined_ st); now apply Hsame.
    + destruct (thread_ st) eqn:Hthread; [now apply Hsame |].
      apply (Hlogged EvThreadJoin); simpl; now rewrite ?app_nil_r.
  - unfold stepWorker. destruct (thread_ st) eqn:Hthread;
      [| now apply Hsame].
    destruct (requests_ st) as [| [request |] rest] eqn:Hq.
    + now apply Hsame.
    + pose proof (performCopy_callbacks request (world st)) as Hcb.
      destruct (performCopy request (world st)) as [evs w']. simpl in Hcb.
      simpl in Hpushed. exists [request]. simpl.
      destruct (worker_log evs) as [Hnone Hcalls].
      rewrite pushedIn_app, workerCallbacksIn_app, Hnone, Hcalls, Hcb,
        Hpushed, Hcalled, app_nil_r, !map_app, <- app_assoc.
      now split.
    + simpl in Hpushed. exists []. simpl. rewrite app_nil_r, Hpushed, Hcalled. now split.
Qed.

Lemma run_served (sched : list Action) (st : Impl)
    (served : list CopyRequest) :
  servedSoFar st served ->
  exists more, servedSoFar (run sched st) (served ++ more).
Proof.
  revert st served.
  induction sched as [| a sched IH]; intros st served Hserved; simpl.
  - exists []. now rewrite app_nil_r.
  - destruct (act_served a Hserved) as (more1 & H1).
    destruct (IH _ _ H1) as (more2 & H2).
    exists (more1 ++ more2). now rewrite app_assoc.
Qed.

(** Once the worker has left it stays so, and it calls nothing more. *)
Lemma act_finished (a : Action) (st : Impl) :
  thread_ st = Finished ->
  thread_ (act a st) = Finished /\
  workerCallbacksIn (log (act a st)) = workerCallbacksIn (log st).
Proof.
  intros Hthread. destruct a as [t | t | t request | t |]; simpl.
  - destruct (isIdle (pcs st t)); now split.
  - destruct (isIdle (pcs st t)); now split.
  - destruct (isIdle (pcs st t)); [| now split]. simpl.
    split; [exact Hthread |].
    rewrite workerCallbacksIn_app. simpl. now rewrite app_nil_r.
  - unfold stepThread.
    destruct (pcs st t) as [| [| |] fromJoin | | | |]; simpl;
      rewrite ?workerCallbacksIn_app; simpl; rewrite ?app_nil_r;
      try (now split).
    + destruct (closed_ st); now split.
    + destruct (mutex_ st); now split.
    + destruct (joined_ st); now split.
    + rewrite Hthread. simpl. rewrite workerCallbacksIn_app. simpl.
      now rewrite app_nil_r.
  - unfold stepWorker. rewrite Hthread. now split.
Qed.

Lemma run_finished (sched : list Action) (st : Impl) :
  thread_ st = Finished ->
  thread_ (run sched st) = Finished /\
  workerCallbacksIn (log (run sched st)) = workerCallbacksIn (log st).
Proof.
  revert st. induction sched as [| a sched IH]; intros st Hthread; simpl;
    [now split |].
  destruct (@act_finished a st Hthread) as [Hthread' Hcalls].
  destruct (IH _ Hthread') as [Hfinal Hcalls'].
  split; [exact Hfinal | congruence].
Qed.

(** Requests are served in the order of the queue, until the sentinel.  In
    every state the context can reach, the items pushed so far are, in
    order: the requests the worker has served, the sentinel if the worker
    has left, and what is still queued; the worker has called the callbacks
    of the served requests, each once and in that order, and no other.  Once
    the worker has left, what is still queued are requests and no second
    sentinel, and whatever happens later no callback is called any more:
    a request pushed behind the sentinel is never served. *)
Theorem copies_served_in_order (w : World) (st0 : Impl)
    (sched : list Action) :
  Impl_ctor w = Returned st0 ->
  exists served,
    servedSoFar (run sched st0) served /\
    (thread_ (run sched st0) = Finished ->
     (forall item, In item (requests_ (run sched st0)) -> item <> None) /\
     forall later,
       workerCallbacksIn (log (run later (run sched st0)))
       = map callback served).
Proof.
  intros Hctor.
  assert (Hstart : servedSoFar st0 []).
  { unfold Impl_ctor in Hctor.
    destruct generateDomainDescriptor; [| discriminate].
    injection Hctor as <-. now split. }
  destruct (run_served sched Hstart) as (served & Hserved).
  exists served. split; [exact Hserved |]. intros Hthread. split.
  - pose proof (run_Inv sched (ctor_Inv w Hctor)) as I.
    pose proof (inv_queue I) as Hqueue. pose proof (inv_counts I) as Hcounts.
    rewrite Hthread in Hqueue. simpl in Hqueue.
    intros item Hin ->.
    assert (Hin' : In None (filter isSentinel (requests_ (run sched st0))))
      by (apply filter_In; now split).
    destruct (filter isSentinel (requests_ (run sched st0)));
      [contradiction | simpl in Hqueue; lia].
  - intros later.
    destruct (@run_finished later (run sched st0) Hthread) as [_ ->].
    apply Hserved.
Qed.

(** ** [close()] takes no lock *)

Lemma other_keeps_pc (t : nat) (a : Action) (st : Impl) :
  notBy t a -> pcs (act a st) t = pcs st t.
Proof.
  assert (Hset : forall t' pc st',
    t' <> t -> pcs st' = pcs st -> pcs (withPc t' pc st') t = pcs st t).
  { intros t' pc st' Hne Hpcs. unfold withPc, setPc. simpl.
    destruct (Nat.eqb_spec t t'); [congruence | now rewrite Hpcs]. }
  destruct a as [t' | t' | t' request | t' |]; simpl; intros Hother.
  - destruct (isIdle (pcs st t')); [now apply Hset | reflexivity].
  - destruct (isIdle (pcs st t')); [now apply Hset | reflexivity].
  - now destruct (isIdle (pcs st t')).
  - unfold stepThread.
    destruct (pcs st t') as [| [| |] fromJoin | | | |];
      try reflexivity; try (now apply Hset).
    + destruct (closed_ st); now apply Hset.
    + destruct (mutex_ st); [reflexivity | now apply Hset].
    + destruct (joined_ st); now apply Hset.
    + destruct (thread_ st); [reflexivity | now apply Hset].
  - unfold stepWorker. destruct (thread_ st); [| reflexivity].
    destruct (requests_ st) as [| [request |] rest]; try reflexivity.
    now destruct (performCopy request (world st)).
Qed.

Lemma others_keep_pc (t : nat) (sched : list Action) (st : Impl) :
  Forall (notBy t) sched -> pcs (run sched st) t = pcs st t.
Proof.
  revert st. induction sched as [| a sched IH]; intros st Hothers; simpl;
    [reflexivity |].
  inversion Hothers as [| a' sched' Ha Hrest]; subst.
  unfold run in IH. rewrite IH by exact Hrest. now apply other_keeps_pc.
Qed.

(** A step of a thread inside a user's [close()] brings it nearer to the
    end of the call, whatever the state. *)
Lemma close_step_rank (t : nat) (st : Impl) (n : nat) :
  (closeRank (pcs st t) <= S n)%nat -> (n <= 2)%nat ->
  (closeRank (pcs (act (Step t) st) t) <= n)%nat.
Proof.
  intros Hrank Hn. simpl. unfold stepThread.
  destruct (pcs st t) as [| [| |] [|] | | | |] eqn:Hpc; simpl in Hrank;
    try lia.
  - rewrite Hpc. simpl. lia.
  - unfold compare_exchange_strong.
    destruct (closed_ st);
      cbv beta iota zeta delta [Bool.eqb negb afterClose];
      rewrite pcs_withPc; simpl; lia.
  - rewrite pcs_withPc. simpl. lia.
  - rewrite pcs_withPc. simpl. lia.
Qed.

Lemma close_cas_closes (t : nat) (st : Impl) :
  pcs st t = InClose AtCloseCas false -> closed_ (act (Step t) st) = true.
Proof.
  intros Hpc. simpl. unfold stepThread. rewrite Hpc.
  now destruct (closed_ st).
Qed.

(** [close()] never waits.  A thread that calls [close()] from outside the
    context is back outside after at most three steps of its own, and the
    context is then closed, whatever the other threads and the worker do in
    between: also while another thread holds [mutex_] inside [join()] or
    waits there for the worker. *)
Theorem close_never_waits (t : nat) (st : Impl) (o1 o2 o3 : list Action) :
  pcs st t = Idle ->
  Forall (notBy t) o1 -> Forall (notBy t) o2 -> Forall (notBy t) o3 ->
  pcs (run (CallClose t :: o1 ++ Step t :: o2 ++ Step t :: o3 ++ [Step t])
         st) t = Idle /\
  closed_ (run (CallClose t :: o1 ++ Step t :: o2 ++ Step t :: o3 ++ [Step t])
             st) = true.
Proof.
  intros Hidle H1 H2 H3.
  rewrite run_cons, run_app, run_cons, run_app, run_cons, run_app, run_cons,
    run_nil.
  set (s1 := run o1 (act (CallClose t) st)).
  assert (Hs1 : pcs s1 t = InClose AtCloseCas false).
  { unfold s1. rewrite others_keep_pc by exact H1. simpl. rewrite Hidle.
    simpl. apply pcs_withPc. }
  set (s2 := run o2 (act (Step t) s1)).
  assert (Hs2 : (closeRank (pcs s2 t) <= 2)%nat).
  { unfold s2. rewrite others_keep_pc by exact H2.
    apply close_step_rank; [rewrite Hs1; simpl; lia | lia]. }
  assert (Hc2 : closed_ s2 = true)
    by (apply run_closed; now apply close_cas_closes).
  set (s3 := run o3 (act (Step t) s2)).
  assert (Hs3 : (closeRank (pcs s3 t) <= 1)%nat).
  { unfold s3. rewrite others_keep_pc by exact H3.
    apply close_step_rank; [exact Hs2 | lia]. }
  assert (Hc3 : closed_ s3 = true) by (apply run_closed; now apply act_closed).
  split; [| now apply act_closed].
  assert (Hend : (closeRank (pcs (act (Step t) s3) t) <= 0)%nat)
    by (apply close_step_rank; [exact Hs3 | lia]).
  destruct (pcs (act (Step t) s3) t) as [| [| |] [|] | | | |];
    simpl in Hend; (reflexivity || lia).
Qed.

(** ** Channels of a context *)

Lemma act_outside_join (a : Action) (st : Impl) :
  isCallJoin a = false ->
  joined_ st = false /\ (forall t, outsideJoin (pcs st t) = true) ->
  joined_ (act a st) = false /\
  (forall t, outsideJoin (pcs (act a st) t) = true).
Proof.
  intros Hcall [Hjoined Houtside].
  assert (Hset : forall t pc st',
    outsideJoin pc = true -> pcs st' = pcs st ->
    forall t', outsideJoin (pcs (withPc t pc st') t') = true).
  { intros t pc st' Hpc Hpcs t'. unfold withPc, setPc. simpl.
    destruct (Nat.eqb t' t); [exact Hpc | rewrite Hpcs; apply Houtside]. }
  destruct a as [t | t | t request | t |]; simpl; try discriminate.
  - destruct (isIdle (pcs st t)); [| now split].
    split; [exact Hjoined | now apply Hset].
  - destruct (isIdle (pcs st t)); now split.
  - unfold stepThread. pose proof (Houtside t) as Ht.
    destruct (pcs st t) as [| [| |] [|] | | | |]; try discriminate;
      try (now split).
    + destruct (closed_ st); simpl; (split; [exact Hjoined | now apply Hset]).
    + split; [exact Hjoined | now apply Hset].
    + split; [exact Hjoined | now apply Hset].
  - unfold stepWorker. destruct (thread_ st); [| now split].
    destruct (requests_ st) as [| [request |] rest]; try (now split).
    now destruct (performCopy request (world st)).
Qed.

Lemma run_outside_join (sched : list Action) (st : Impl) :
  forallb (fun a => negb (isCallJoin a)) sched = true ->
  joined_ st = false /\ (forall t, outsideJoin (pcs st t) = true) ->
  joined_ (run sched st) = false.
Proof.
  revert st. induction sched as [| a sched IH]; intros st Hsched Hst;
    simpl in *; [apply Hst |].
  apply andb_true_iff in Hsched. destruct Hsched as [Ha Hrest].
  apply IH; [exact Hrest |]. apply act_outside_join; [| exact Hst].
  now apply negb_true_iff.
Qed.

(** [createChannel] looks at [joined_] only.  On a context on which
    [join()] was never called, [createChannel] returns the channel, whatever
    else was called: also after [close()].  Once a [thread_.join()] has
    returned, [createChannel] throws, then and at any later time. *)
Theorem createChannel_until_join {Channel : Type} (make : Channel)
    (w : World) (st0 : Impl) (sched : list Action) :
  Impl_ctor w = Returned st0 ->
  (forallb (fun a => negb (isCallJoin a)) sched = true ->
   createChannel make (run sched st0) = Returned make) /\
  (count isThreadJoin (log (run sched st0)) = 1%nat ->
   forall later,
     createChannel make (run later (run sched st0))
     = Thrown "TP_THROW_ASSERT_IF").
Proof.
  intros Hctor. split.
  - intros Hsched. unfold createChannel.
    rewrite run_outside_join; [reflexivity | exact Hsched |].
    unfold Impl_ctor in Hctor.
    destruct generateDomainDescriptor; [| discriminate].
    injection Hctor as <-. now split.
  - intros Hjoin later. unfold createChannel.
    pose proof (run_Inv sched (ctor_Inv w Hctor)) as I.
    destruct (joined_ (run sched st0)) eqn:Hjoined.
    + now rewrite run_joined.
    + pose proof (inv_unjoined I Hjoined). congruence.
Qed.

(** ** [join()] holds the lock *)

(** Calls of [join()] are serialized.  In every state the context can reach:
    the threads inside [join()] between taking [mutex_] and releasing it are
    the thread that holds it, so there is at most one; a thread that waits
    for [mutex_] while another holds it stays where it is; and a thread
    waits in [thread_.join()] only while holding [mutex_], staying there as
    long as the worker runs, so that every other [join()] waits with it. *)
Theorem join_is_serialized (w : World) (st0 : Impl) (sched : list Action) :
  Impl_ctor w = Returned st0 ->
  (forall t,
   inJoin (pcs (run sched st0) t) = true <-> mutex_ (run sched st0) = Some t) /\
  (forall t1 t2,
   inJoin (pcs (run sched st0) t1) = true ->
   inJoin (pcs (run sched st0) t2) = true -> t1 = t2) /\
  (forall t holder,
   pcs (run sched st0) t = AtJoinLock ->
   mutex_ (run sched st0) = Some holder ->
   holder <> t /\ act (Step t) (run sched st0) = run sched st0) /\
  (forall t,
   pcs (run sched st0) t = AtThreadJoin ->
   mutex_ (run sched st0) = Some t /\
   (thread_ (run sched st0) = Running ->
    act (Step t) (run sched st0) = run sched st0)).
Proof.
  intros Hctor. set (st := run sched st0).
  assert (I : Inv st) by (apply run_Inv, (ctor_Inv _ Hctor)).
  pose proof (inv_mutex I) as Hmutex.
  split; [exact Hmutex | split; [| split]].
  - intros t1 t2 H1 H2. apply Hmutex in H1. apply Hmutex in H2. congruence.
  - intros t holder Hpc Hheld. split.
    + intros ->. apply Hmutex in Hheld. rewrite Hpc in Hheld. discriminate.
    + simpl. unfold stepThread. now rewrite Hpc, Hheld.
  - intros t Hpc. split.
    + apply Hmutex. now rewrite Hpc.
    + intros Hrunning. simpl. unfold stepThread. now rewrite Hpc, Hrunning.
Qed.

End Worker.

(** A small operating system for running the worker on concrete requests: the
    state counts the calls; the first call transfers 4 bytes, the second
    fails, later ones transfer nothing. *)
Definition exampleReadv (w : nat) (pid : Z) (l r : list iovec) (f : Z)
  : nat * Z :=
  (S w, match w with
        | O => 4
        | S O => -1
        | _ => 0
        end).

Definition exampleErrno (w : nat) : Z := 3.

Definition exampleQueue : list (option (CopyRequest nat)) :=
  [ Some {| remotePid := 77; remotePtr := 4096; localPtr := 8192;
            length := 4; callback := 0%nat |};
    Some {| remotePid := 77; remotePtr := 4100; localPtr := 8196;
            length := 4; callback := 1%nat |};
    Some {| remotePid := 77; remotePtr := 4104; localPtr := 8200;
            length := 0; callback := 2%nat |};
    None;
    Some {| remotePid := 77; remotePtr := 0; localPtr := 0;
            length := 1; callback := 3%nat |} ].

Lemma worker_serves_each_request_witness :
  readvContract exampleReadv /\
  Forall (fun request => is_size_t (length request))
    (poppedRequests exampleQueue) /\
  servesEach exampleReadv exampleErrno O (poppedRequests exampleQueue)
    (fst (fst (fst (handleCopyRequests_ exampleReadv exampleErrno
                      exampleQueue O)))).
Proof.
  assert (Hos : readvContract exampleReadv).
  { intros w pid l r f. destruct w as [| [| w]]; simpl; lia. }
  assert (Hq : Forall (fun request => is_size_t (length request))
                 (poppedRequests exampleQueue)).
  { repeat constructor; simpl; unfold UINT64_MODULUS; lia. }
  split; [exact Hos | split; [exact Hq |]].
  exact (proj1 (worker_serves_each_request exampleErrno exampleQueue O Hos Hq)).
Defined.

Arguments CallClose {Callback} t.
Arguments CallJoin {Callback} t.
Arguments Step {Callback} t.

(** A context built on a host with boot id "b0071d", run by uid 1000 and
    gid 100. *)
Definition exampleContext : Impl nat nat :=
  {| domainDescriptor_ := "cma:b0071d/1000/100"; requests_ := [];
     closed_ := false; joined_ := false; mutex_ := None; thread_ := Running;
     world := O; pcs := fun _ => Idle; log := [] |}.

(** Thread 0 submits a request, threads 1 and 2 race in [close()], thread 3
    then calls [join()]. *)
Definition exampleSchedule : list (Action nat) :=
  [ CallRequestCopy 0 {| remotePid := 77; remotePtr := 4096; localPtr := 8192;
                         length := 4; callback := 0%nat |};
    CallClose 1; CallClose 2; Step 2; Step 1; Step 2; WorkerStep _; Step 2;
    CallJoin 3; Step 3; Step 3; Step 3; WorkerStep _; Step 3; Step 3 ].


Lemma domainDescriptor_format_witness :
  Some "b0071d"%string = Some "b0071d"%string /\
  exists st,
    Impl_ctor nat (Some "b0071d"%string) 1000 100 O
    = Returned st /\
    forall sched,
      domainDescriptor (run exampleReadv exampleErrno sched st)
      = "cma:b0071d/1000/100"%string.
Proof.
  split; [reflexivity |].
  exact (proj1 (@domainDescriptor_format nat nat exampleReadv exampleErrno
                  (Some "b0071d"%string) 1000 100 O)
           "b0071d"%string eq_refl).
Defined.

(** ** Comparing domain descriptors *)

Lemma digits_no_slash (d : Decimal.uint) :
  hasSlash (NilEmpty.string_of_uint d) = false.
Proof. induction d; simpl; auto. Qed.

Lemma decimal_no_slash (n : Z) : hasSlash (decimal n) = false.
Proof.
  unfold decimal, NilZero.string_of_uint.
  destruct (N.to_uint (Z.to_N n)) eqn:Hd; try reflexivity;
    rewrite <- Hd; apply digits_no_slash.
Qed.

Lemma decimal_inj (n m : Z) :
  0 <= n -> 0 <= m -> decimal n = decimal m -> n = m.
Proof.
  intros Hn Hm Heq.
  pose proof (readDecimal_decimal Hn) as Hrn.
  pose proof (readDecimal_decimal Hm) as Hrm.
  rewrite Heq in Hrn. congruence.
Qed.

(** A text is cut at its last "/" in one way only. *)
Lemma cut_at_last_slash (x x' y y' : string) :
  hasSlash y = false -> hasSlash y' = false ->
  (x ++ "/" ++ y)%string = (x' ++ "/" ++ y')%string -> x = x' /\ y = y'.
Proof.
  intros Hy Hy'. revert x'.
  assert (Hslash : forall (a b : string),
    hasSlash (a ++ String "/" b)%string = true).
  { intros a b. induction a as [| c a IH]; simpl; [reflexivity |].
    rewrite IH. apply orb_true_r. }
  induction x as [| c x IH]; intros [| c' x']; simpl; intros Heq.
  - injection Heq as ->. now split.
  - injection Heq as <- ->. now rewrite Hslash in Hy.
  - injection Heq as -> <-. now rewrite Hslash in Hy'.
  - injection Heq as -> Heq. destruct (IH x' Heq) as [-> ->]. now split.
Qed.

(** Equal descriptors, equal credentials.  The domain descriptors built for
    two processes are the same text exactly when the two processes read the
    same boot id, the same effective user id and the same effective group
    id: a "/" inside a boot id cannot make two different triples look
    alike. *)
Theorem domainDescriptor_same_iff (bootID1 bootID2 : string)
    (euid1 egid1 euid2 egid2 : Z) :
  0 <= euid1 -> 0 <= egid1 -> 0 <= euid2 -> 0 <= egid2 ->
  (generateDomainDescriptor (Some bootID1) euid1 egid1
   = generateDomainDescriptor (Some bootID2) euid2 egid2
   <-> bootID1 = bootID2 /\ euid1 = euid2 /\ egid1 = egid2).
Proof.
  intros Hu1 Hg1 Hu2 Hg2. split.
  - unfold generateDomainDescriptor, oss_put, kChannelName.
    intros [= Heq]. rewrite !(append_assoc _ "/") in Heq.
    apply cut_at_last_slash in Heq; try apply decimal_no_slash.
    destruct Heq as [Heq Hg].
    apply cut_at_last_slash in Heq; try apply decimal_no_slash.
    destruct Heq as [Heq Hu].
    split; [exact Heq | split; now apply decimal_inj].
  - now intros (-> & -> & ->).
Qed.

Lemma domainDescriptor_same_iff_witness :
  0 <= 1000 /\ 0 <= 100 /\ 0 <= 1001 /\
  generateDomainDescriptor (Some "b0071d/1"%string) 1000 100
  <> generateDomainDescriptor (Some "b0071d"%string) 1001 100.
Proof.
  assert (Hu1 : 0 <= 1000) by lia.
  assert (Hg : 0 <= 100) by lia.
  assert (Hu2 : 0 <= 1001) by lia.
  split; [exact Hu1 | split; [exact Hg | split; [exact Hu2 |]]].
  intros Heq.
  apply (domainDescriptor_same_iff "b0071d/1" "b0071d" Hu1 Hg Hu2 Hg) in Heq.
  destruct Heq as (_ & Heq & _). discriminate.
Defined.

(** Threads 1 and 2 request copies while thread 0 closes the context; the
    worker takes its turns in between. *)
Definition exampleRequest (localPtr : Z) (cb : nat) : CopyRequest nat :=
  {| remotePid := 7; remotePtr := 4096; localPtr := localPtr; length := 4;
     callback := cb |}.

Definition exampleTraffic : list (Action nat) :=
  [ CallRequestCopy 1%nat (exampleRequest 8192 21%nat);
    CallClose 0%nat; Step 0%nat;
    CallRequestCopy 2%nat (exampleRequest 12288 22%nat);
    WorkerStep _; Step 0%nat; Step 0%nat;
    CallRequestCopy 1%nat (exampleRequest 16384 23%nat);
    WorkerStep _; WorkerStep _; WorkerStep _ ].

Lemma copies_served_in_order_witness :
  Impl_ctor nat (Some "b0071d"%string) 1000 100 O = Returned exampleContext /\
  exists served,
    servedSoFar (run exampleReadv exampleErrno exampleTraffic exampleContext)
      served /\
    (thread_ (run exampleReadv exampleErrno exampleTraffic exampleContext)
     = Finished ->
     (forall item,
      In item
        (requests_
           (run exampleReadv exampleErrno exampleTraffic exampleContext)) ->
      item <> None) /\
     forall later,
       workerCallbacksIn
         (log (run exampleReadv exampleErrno later
                 (run exampleReadv exampleErrno exampleTraffic
                    exampleContext)))
       = map (@callback nat) served).
Proof.
  assert (Hctor : Impl_ctor nat (Some "b0071d"%string) 1000 100 O
                  = Returned exampleContext) by reflexivity.
  split; [exact Hctor |].
  exact (@copies_served_in_order nat nat exampleReadv exampleErrno
           (Some "b0071d"%string) 1000 100 O exampleContext exampleTraffic
           Hctor).
Defined.

Lemma close_never_waits_witness :
  pcs exampleContext 0%nat = Idle /\
  Forall (@notBy nat 0%nat) [CallJoin 1%nat; Step 1%nat; Step 1%nat] /\
  pcs (run exampleReadv exampleErrno
         (CallClose 0%nat
          :: [CallJoin 1%nat; Step 1%nat; Step 1%nat]
          ++ Step 0%nat :: [] ++ Step 0%nat :: [] ++ [Step 0%nat])
         exampleContext) 0%nat
  = Idle.
Proof.
  assert (Hidle : pcs exampleContext 0%nat = Idle) by reflexivity.
  assert (Hothers :
    Forall (@notBy nat 0%nat) [CallJoin 1%nat; Step 1%nat; Step 1%nat])
    by (repeat constructor; discriminate).
  split; [exact Hidle | split; [exact Hothers |]].
  exact (proj1 (@close_never_waits nat nat exampleReadv exampleErrno 0%nat
                  exampleContext _ [] [] Hidle Hothers
                  (Forall_nil _) (Forall_nil _))).
Defined.

Lemma createChannel_until_join_witness :
  Impl_ctor nat (Some "b0071d"%string) 1000 100 O = Returned exampleContext /\
  closed_ (run exampleReadv exampleErrno exampleTraffic exampleContext)
  = true /\
  createChannel tt (run exampleReadv exampleErrno exampleTraffic exampleContext)
  = Returned tt /\
  createChannel tt (run exampleReadv exampleErrno exampleSchedule exampleContext)
  = Thrown "TP_THROW_ASSERT_IF".
Proof.
  assert (Hctor : Impl_ctor nat (Some "b0071d"%string) 1000 100 O
                  = Returned exampleContext) by reflexivity.
  destruct (@createChannel_until_join nat nat exampleReadv exampleErrno
              (Some "b0071d"%string) 1000 100 unit tt O exampleContext
              exampleTraffic Hctor) as [Hopen _].
  destruct (@createChannel_until_join nat nat exampleReadv exampleErrno
              (Some "b0071d"%string) 1000 100 unit tt O exampleContext
              exampleSchedule Hctor) as [_ Hjoined].
  assert (Hclosed :
    closed_ (run exampleReadv exampleErrno exampleTraffic exampleContext)
    = true) by (vm_compute; reflexivity).
  assert (Hcount :
    count (@isThreadJoin nat)
      (log (run exampleReadv exampleErrno exampleSchedule exampleContext))
    = 1%nat) by (vm_compute; reflexivity).
  split; [exact Hctor | split; [exact Hclosed | split]].
  - apply Hopen. vm_compute. reflexivity.
  - pose proof (Hjoined Hcount []) as Hthrown.
    rewrite run_nil in Hthrown. exact Hthrown.
Defined.

(** Thread 1 is inside [join()], thread 2 has called it too. *)
Definition exampleTwoJoins : list (Action nat) :=
  [CallJoin 1%nat; Step 1%nat; CallJoin 2%nat; Step 2%nat].

Lemma join_is_serialized_witness :
  Impl_ctor nat (Some "b0071d"%string) 1000 100 O = Returned exampleContext /\
  pcs (run exampleReadv exampleErrno exampleTwoJoins exampleContext) 2%nat
  = AtJoinLock /\
  mutex_ (run exampleReadv exampleErrno exampleTwoJoins exampleContext)
  = Some 1%nat /\
  act exampleReadv exampleErrno (Step 2%nat)
    (run exampleReadv exampleErrno exampleTwoJoins exampleContext)
  = run exampleReadv exampleErrno exampleTwoJoins exampleContext.
Proof.
  assert (Hctor : Impl_ctor nat (Some "b0071d"%string) 1000 100 O
                  = Returned exampleContext) by reflexivity.
  assert (Hpc :
    pcs (run exampleReadv exampleErrno exampleTwoJoins exampleContext) 2%nat
    = AtJoinLock) by reflexivity.
  assert (Hheld :
    mutex_ (run exampleReadv exampleErrno exampleTwoJoins exampleContext)
    = Some 1%nat) by reflexivity.
  split; [exact Hctor | split; [exact Hpc | split; [exact Hheld |]]].
  destruct (@join_is_serialized nat nat exampleReadv exampleErrno
              (Some "b0071d"%string) 1000 100 O exampleContext
              exampleTwoJoins Hctor) as (_ & _ & Hwaits & _).
  exact (proj2 (Hwaits 2%nat 1%nat Hpc Hheld)).
Defined.

End Context.

(** * The channel's loop

    [Channel::Impl::deferToLoop_].  The two blocks that hold [mutex_] are
    atomic steps; a thread is described by its stack of frames inside
    [deferToLoop_] and the tasks it runs.  A task leaves by returning or by
    throwing, as [sendFromLoop_] and [onNotification_] do. *)

Module Loop.

Local Open Scope nat_scope.

(** A task, [std::function<void()>].  While it runs it may call
    [deferToLoop_] again (user callbacks calling [send], [recv] or [close],
    completions delivered inline): [defers] lists the tasks it hands over, in
    order.  [label] names the task. *)
#[warnings="-register-all"]
Inductive Task : Type :=
| MkTask (label : nat) (defers : list Task).

Definition defers (task : Task) : list Task :=
  match task with MkTask _ ds => ds end.

(** Where a thread stands, innermost frame first. *)
Inductive Frame : Type :=
| FEnter (fn : Task)
    (* in deferToLoop_(fn), before the first block under the lock *)
| FLoop
    (* in deferToLoop_, at the top of while (true) *)
| FTask (task : Task) (rest : list Task).
    (* in task(); [rest]: the calls of deferToLoop_ it has yet to make *)

Inductive Event : Type :=
| EvDeferred (t : nat) (fn : Task)     (* pendingTasks_.push_back(fn) by t *)
| EvBegin (t : nat) (task : Task)      (* t pops task and calls it *)
| EvEnd (t : nat) (task : Task).       (* task() returns *)

Record State : Type := {
  currentLoop_ : option nat;        (* None is std::thread::id() *)
  pendingTasks_ : list Task;
  stacks : nat -> list Frame;
  history : list Event              (* oldest first *)
}.

Definition initial : State :=
  {| currentLoop_ := None; pendingTasks_ := []; stacks := fun _ => [];
     history := [] |}.

Definition setStack (t : nat) (s : list Frame) (f : nat -> list Frame)
  : nat -> list Frame :=
  fun t' => if Nat.eqb t' t then s else f t'.

(** One step of thread [t] along [deferToLoop_] and along a task up to its
    return.  The other way out of a task, an exception, is [throwFromTask]
    below. *)
Definition step (t : nat) (st : State) : State :=
  match stacks st t with
  | [] => st
  | FEnter fn :: k =>
      (* { lock; pendingTasks_.push_back(fn);
           if (currentLoop_ != std::thread::id()) return;
           currentLoop_ = std::this_thread::get_id(); } *)
      let pending := pendingTasks_ st ++ [fn] in
      let h := history st ++ [EvDeferred t fn] in
      match currentLoop_ st with
      | Some r =>
          {| currentLoop_ := Some r; pendingTasks_ := pending;
             stacks := setStack t k (stacks st); history := h |}
      | None =>
          {| currentLoop_ := Some t; pendingTasks_ := pending;
             stacks := setStack t (FLoop :: k) (stacks st); history := h |}
      end
  | FLoop :: k =>
      (* { lock; if (pendingTasks_.empty()) { currentLoop_ = id(); return; }
           task = pendingTasks_.front(); pendingTasks_.pop_front(); } task(); *)
      match pendingTasks_ st with
      | [] =>
          {| currentLoop_ := None; pendingTasks_ := [];
             stacks := setStack t k (stacks st); history := history st |}
      | task :: rest =>
          {| currentLoop_ := currentLoop_ st; pendingTasks_ := rest;
             stacks := setStack t (FTask task (defers task) :: FLoop :: k)
                         (stacks st);
             history := history st ++ [EvBegin t task] |}
      end
  | FTask task [] :: k =>
      (* task() returns *)
      {| currentLoop_ := currentLoop_ st; pendingTasks_ := pendingTasks_ st;
         stacks := setStack t k (stacks st);
         history := history st ++ [EvEnd t task] |}
  | FTask task (fn :: rest) :: k =>
      (* the running task calls deferToLoop_(fn) *)
      {| currentLoop_ := currentLoop_ st; pendingTasks_ := pendingTasks_ st;
         stacks := setStack t (FEnter fn :: FTask task rest :: k) (stacks st);
         history := history st |}
  end.

(** [task()] throws while thread [t] executes it.  [deferToLoop_] has no
    handler and holds no lock around [task()], so the exception leaves the
    [while] loop and [deferToLoop_] itself: the thread is back outside, and
    [currentLoop_], which is only cleared in the branch of the empty queue,
    stays as it is. *)
Definition throwFromTask (t : nat) (st : State) : State :=
  {| currentLoop_ := currentLoop_ st; pendingTasks_ := pendingTasks_ st;
     stacks := setStack t [] (stacks st); history := history st |}.

(** What can happen next: a thread that is not inside the channel calls
    [deferToLoop_(fn)], a thread inside moves on, or the task that a thread
    is executing throws. *)
Inductive Action : Type :=
| Call (t : nat) (fn : Task)
| Step (t : nat)
| Throw (t : nat).

Definition act (a : Action) (st : State) : State :=
  match a with
  | Call t fn =>
      match stacks st t with
      | [] =>
          {| currentLoop_ := currentLoop_ st;
             pendingTasks_ := pendingTasks_ st;
             stacks := setStack t [FEnter fn] (stacks st);
             history := history st |}
      | _ => st
      end
  | Step t => step t st
  | Throw t =>
      match stacks st t with
      | FTask _ _ :: _ => throwFromTask t st
      | _ => st
      end
  end.


Definition run (sched : list Action) (st : State) : State :=
  fold_left (fun s a => act a s) sched st.

(** [inLoop_()] as evaluated by thread [t]. *)
Definition inLoop_ (t : nat) (st : State) : bool :=
  match currentLoop_ st with
  | Some r => Nat.eqb r t
  | None => false
  end.

(** A thread not draining the queue: outside [deferToLoop_], or at its
    entry. *)
Definition outsideLoop (s : list Frame) : bool :=
  match s with
  | [] | [FEnter _] => true
  | _ => false
  end.

(** The runner: in the drain loop, in a task called from it, or in a call of
    [deferToLoop_] made by that task. *)
Definition runnerStack (s : list Frame) : bool :=
  match s with
  | [FLoop] | [FTask _ _; FLoop] | [FEnter _; FTask _ _; FLoop] => true
  | _ => false
  end.

(** A thread that is executing a task. *)
Definition inTask (s : list Frame) : bool :=
  existsb (fun f => match f with FTask _ _ => true | _ => false end) s.

(** The task a stack is executing, if any. *)
Definition taskOf (s : list Frame) : option Task :=
  match s with
  | FTask task _ :: _ | FEnter _ :: FTask task _ :: _ => Some task
  | _ => None
  end.

(** Reading the history. *)
Definition deferred (h : list Event) : list Task :=
  flat_map (fun e => match e with EvDeferred _ fn => [fn] | _ => [] end) h.

Definition begun (h : list Event) : list Task :=
  flat_map (fun e => match e with EvBegin _ task => [task] | _ => [] end) h.

(** The task open at the end of a history in which tasks do not overlap:
    [Some None] when none is open, [Some (Some (t, task))] when thread [t] is
    inside [task], [None] when some task began while another was open or
    ended without being the open one. *)
Fixpoint openAfter (cur : option (nat * Task)) (h : list Event)
  : option (option (nat * Task)) :=
  match h with
  | [] => Some cur
  | EvDeferred _ _ :: h' => openAfter cur h'
  | EvBegin t task :: h' =>
      match cur with
      | None => openAfter (Some (t, task)) h'
      | Some _ => None
      end
  | EvEnd t task :: h' =>
      match cur with
      | Some (t', _) => if Nat.eqb t t' then openAfter None h' else None
      | None => None
      end
  end.

Definition oneAtATime (h : list Event) : Prop :=
  exists cur, openAfter None h = Some cur.

(** The schedule in which thread [t] calls [deferToLoop_(fn)] and then takes
    [n] steps with no other thread moving. *)
Definition deferAlone (t : nat) (fn : Task) (n : nat) : list Action :=
  Call t fn :: repeat (Step t) n.

(** An upper bound on the steps a thread needs to get through a task: to pop
    it, to make each of its calls of [deferToLoop_], to run the tasks so
    deferred, and to return. *)
Fixpoint taskSteps (task : Task) : nat :=
  match task with
  | MkTask _ ds =>
      2 + (fix calls (l : list Task) : nat :=
             match l with
             | [] => 0
             | d :: l' => 3 + taskSteps d + calls l'
             end) ds
  end.

Definition callsCost (l : list Task) : nat :=
  list_sum (map (fun d => 3 + taskSteps d)%nat l).


(** A schedule in which no task throws. *)
Definition isThrow (a : Action) : bool :=
  match a with Throw _ => true | _ => false end.

Definition noThrow (sched : list Action) : bool :=
  forallb (fun a => negb (isThrow a)) sched.

(** The order in which a queue is drained when every task returns: the front
    task is executed, the tasks it hands over go to the back of the queue,
    and so on until the queue is empty. *)
Inductive Drains : list Task -> list Task -> Prop :=
| drains_nil : Drains [] []
| drains_cons task rest order :
    Drains (rest ++ defers task) order ->
    Drains (task :: rest) (task :: order).

(** What holds of the loop in every state it can reach as long as no task
    has thrown. *)
Record Inv (st : State) : Prop := {
  inv_runner : forall t,
    currentLoop_ st = Some t -> runnerStack (stacks st t) = true;
  inv_others : forall t,
    currentLoop_ st <> Some t -> outsideLoop (stacks st t) = true;
  inv_idle_empty : currentLoop_ st = None -> pendingTasks_ st = [];
  inv_fifo : begun (history st) ++ pendingTasks_ st = deferred (history st);
  inv_open :
    openAfter None (history st)
    = Some match currentLoop_ st with
           | Some r => option_map (pair r) (taskOf (stacks st r))
           | None => None
           end
}.

(** A loop whose runner [r] is gone: [currentLoop_] names [r], and no thread
    is in the drain loop. *)
Definition wedged (r : nat) (st : State) : Prop :=
  currentLoop_ st = Some r /\ forall t, outsideLoop (stacks st t) = true.

(** What holds of the loop in every state it can reach. *)
Record Sound (st : State) : Prop := {
  sound_fifo : begun (history st) ++ pendingTasks_ st = deferred (history st);
  sound_open : oneAtATime (history st);
  sound_runner : Inv st \/ exists r, wedged r st
}.

Lemma runnerStack_inv (s : list Frame) :
  runnerStack s = true ->
  s = [FLoop] \/
  (exists task rest, s = [FTask task rest; FLoop]) \/
  (exists fn task rest, s = [FEnter fn; FTask task rest; FLoop]).
Proof.
  destruct s as [| [fn | | task rest] [| [fn' | | task' rest'] [| [] []]]];
    simpl; try discriminate; intros _; eauto 6.
Qed.

Lemma outsideLoop_inv (s : list Frame) :
  outsideLoop s = true -> s = [] \/ exists fn, s = [FEnter fn].
Proof.
  destruct s as [| [fn | | task rest] [|]]; simpl; try discriminate;
    intros _; eauto.
Qed.

Lemma openAfter_app (cur : option (nat * Task)) (h h' : list Event) :
  openAfter cur (h ++ h')
  = match openAfter cur h with
    | Some c => openAfter c h'
    | None => None
    end.
Proof.
  revert cur. induction h as [| [t fn | t task | t task] h IH]; intros cur;
    simpl; try reflexivity.
  - apply IH.
  - destruct cur; [reflexivity | apply IH].
  - destruct cur as [[t' task'] |]; [| reflexivity].
    destruct (Nat.eqb t t'); [apply IH | reflexivity].
Qed.

Lemma deferred_app (h h' : list Event) :
  deferred (h ++ h') = deferred h ++ deferred h'.
Proof. apply flat_map_app. Qed.

Lemma begun_app (h h' : list Event) : begun (h ++ h') = begun h ++ begun h'.
Proof. apply flat_map_app. Qed.

(** Where thread [t] stands with respect to the loop. *)
Lemma standing (st : State) (t : nat) :
  Inv st ->
  (currentLoop_ st = Some t /\ runnerStack (stacks st t) = true) \/
  (currentLoop_ st <> Some t /\ outsideLoop (stacks st t) = true).
Proof.
  intros I. destruct (currentLoop_ st) as [r |] eqn:Hcur.
  - destruct (Nat.eq_dec r t) as [-> | Hne].
    + left. split; [reflexivity | now apply (inv_runner I)].
    + right. assert (Some r <> Some t) by congruence.
      split; [assumption | apply (inv_others I); congruence].
  - right. split; [discriminate | apply (inv_others I); congruence].
Qed.

Ltac split_stacks :=
  unfold setStack in *;
  repeat match goal with
    | |- context [Nat.eqb ?a ?b] => destruct (Nat.eqb_spec a b); subst
    | H : context [Nat.eqb ?a ?b] |- _ => destruct (Nat.eqb_spec a b); subst
    end.

Ltac loop_fields I Hs Hc Hp :=
  pose proof (inv_runner I) as Hrun;
  pose proof (inv_others I) as Hoth;
  pose proof (inv_idle_empty I) as Hidle;
  pose proof (inv_fifo I) as Hfifo;
  pose proof (inv_open I) as Hopen;
  try rewrite Hc in Hidle; try rewrite Hc in Hopen;
  try rewrite Hp in Hidle; try rewrite Hp in Hfifo;
  constructor; simpl; intros;
  rewrite ?deferred_app, ?begun_app, ?openAfter_app; simpl;
  rewrite ?Hopen; simpl;
  split_stacks; rewrite ?Hs in *; simpl in *;
  rewrite ?Nat.eqb_refl; rewrite ?app_nil_r in *; rewrite <- ?app_assoc;
  simpl;
  try solve [ reflexivity | congruence | auto
            | rewrite <- Hfifo; rewrite <- ?app_assoc; reflexivity
            | apply Hoth; congruence
            | apply Hrun; congruence ].

Lemma loop_step_Inv (t : nat) (st : State) : Inv st -> Inv (step t st).
Proof.
  intros I. unfold step.
  destruct (standing t I) as [[Hcur Hstack] | [Hne Hstack]].
  - apply runnerStack_inv in Hstack.
    destruct Hstack as [Hs | [(task & rest & Hs) | (fn & task & rest & Hs)]];
      rewrite Hs, ?Hcur.
    + destruct (pendingTasks_ st) as [| task rest] eqn:Hpending;
        loop_fields I Hs Hcur Hpending.
    + destruct rest as [| fn rest]; loop_fields I Hs Hcur Hcur.
    + loop_fields I Hs Hcur Hcur.
  - apply outsideLoop_inv in Hstack. destruct Hstack as [Hs | (fn & Hs)];
      rewrite Hs; [assumption |].
    destruct (currentLoop_ st) as [r |] eqn:Hcur; loop_fields I Hs Hcur Hcur.
Qed.

Lemma loop_act_Inv (a : Action) (st : State) :
  isThrow a = false -> Inv st -> Inv (act a st).
Proof.
  intros Hthrow I.
  destruct a as [t fn | t | t]; simpl; [| now apply loop_step_Inv
                                        | discriminate].
  destruct (stacks st t) as [| f k] eqn:Hs; [| assumption].
  destruct (standing t I) as [[Hcur Hstack] | [Hne Hstack]].
  - rewrite Hs in Hstack. discriminate.
  - pose proof (inv_runner I) as Hrun.
    pose proof (inv_others I) as Hoth.
    pose proof (inv_open I) as Hopen.
    constructor; simpl; intros.
    + split_stacks; [congruence | now apply Hrun].
    + split_stacks; [reflexivity | now apply Hoth].
    + now apply (inv_idle_empty I).
    + apply (inv_fifo I).
    + rewrite Hopen. destruct (currentLoop_ st) as [r |]; [| reflexivity].
      split_stacks; [congruence | reflexivity].
Qed.

Lemma loop_initial_Inv : Inv initial.
Proof. constructor; simpl; intros; congruence || reflexivity. Qed.

Lemma loop_run_app (s1 s2 : list Action) (st : State) :
  run (s1 ++ s2) st = run s2 (run s1 st).
Proof. unfold run. apply fold_left_app. Qed.

Lemma loop_run_Inv (sched : list Action) (st : State) :
  noThrow sched = true -> Inv st -> Inv (run sched st).
Proof.
  revert st. induction sched as [| a sched IH]; intros st Hsched I; simpl;
    [exact I |].
  simpl in Hsched. apply andb_true_iff in Hsched.
  destruct Hsched as [Ha Hrest]. apply negb_true_iff in Ha.
  apply IH; [exact Hrest | now apply loop_act_Inv].
Qed.

(** A thread that is not outside the loop is the runner. *)
Lemma draining_is_runner (st : State) (t : nat) :
  Inv st -> outsideLoop (stacks st t) = false -> currentLoop_ st = Some t.
Proof.
  intros I Hout. destruct (standing t I) as [[Hcur _] | [_ Hstack]];
    [assumption | congruence].
Qed.

Lemma inTask_not_outside (s : list Frame) :
  inTask s = true -> outsideLoop s = false.
Proof.
  destruct s as [| [fn | | task rest] [|]]; simpl; try reflexivity;
    discriminate.
Qed.

Lemma one_task_at_a_time (st : State) (t1 t2 : nat) :
  Inv st ->
  inTask (stacks st t1) = true -> inTask (stacks st t2) = true -> t1 = t2.
Proof.
  intros I H1 H2.
  apply inTask_not_outside, (draining_is_runner _ I) in H1.
  apply inTask_not_outside, (draining_is_runner _ I) in H2.
  congruence.
Qed.

(** ** A task that throws *)

Lemma act_wedged (a : Action) (st : State) (r : nat) :
  wedged r st ->
  wedged r (act a st) /\
  begun (history (act a st)) = begun (history st) /\
  (oneAtATime (history st) -> oneAtATime (history (act a st))) /\
  exists more,
    pendingTasks_ (act a st) = pendingTasks_ st ++ more /\
    deferred (history (act a st)) = deferred (history st) ++ more.
Proof.
  intros [Hcur Hout].
  assert (Hsame : wedged r st /\ begun (history st) = begun (history st) /\
    (oneAtATime (history st) -> oneAtATime (history st)) /\
    exists more,
      pendingTasks_ st = pendingTasks_ st ++ more /\
      deferred (history st) = deferred (history st) ++ more).
  { split; [now split | split; [reflexivity | split; [auto |]]].
    exists []. now rewrite !app_nil_r. }
  destruct a as [t fn | t | t]; simpl.
  - destruct (stacks st t) as [| f k] eqn:Hs; [| exact Hsame].
    split; [| split; [reflexivity | split; [auto |]]].
    + split; [exact Hcur |]. intros t'. simpl. unfold setStack.
      destruct (Nat.eqb t' t); [reflexivity | apply Hout].
    + exists []. simpl. now rewrite !app_nil_r.
  - unfold step. pose proof (Hout t) as Ht. apply outsideLoop_inv in Ht.
    destruct Ht as [-> | (fn & ->)]; [exact Hsame |].
    rewrite Hcur. simpl. split; [| split; [| split]].
    + split; [reflexivity |]. intros t'. simpl. unfold setStack.
      destruct (Nat.eqb t' t); [reflexivity | apply Hout].
    + rewrite begun_app. simpl. now rewrite app_nil_r.
    + intros [cur Hopen]. exists cur. rewrite openAfter_app, Hopen.
      reflexivity.
    + exists [fn]. now rewrite deferred_app.
  - pose proof (Hout t) as Ht. apply outsideLoop_inv in Ht.
    destruct Ht as [-> | (fn & ->)]; exact Hsame.
Qed.

Lemma run_wedged (sched : list Action) (st : State) (r : nat) :
  wedged r st ->
  wedged r (run sched st) /\
  begun (history (run sched st)) = begun (history st) /\
  exists more,
    pendingTasks_ (run sched st) = pendingTasks_ st ++ more /\
    deferred (history (run sched st)) = deferred (history st) ++ more.
Proof.
  revert st. induction sched as [| a sched IH]; intros st Hw; simpl.
  - split; [exact Hw | split; [reflexivity |]].
    exists []. now rewrite !app_nil_r.
  - destruct (act_wedged a Hw) as (Hw1 & Hb1 & _ & more1 & Hp1 & Hd1).
    destruct (IH _ Hw1) as (Hw2 & Hb2 & more2 & Hp2 & Hd2).
    split; [exact Hw2 | split; [congruence |]].
    exists (more1 ++ more2).
    unfold run in *. rewrite Hp2, Hd2, Hp1, Hd1. now rewrite !app_assoc.
Qed.

(** ** Every state the loop can reach *)

Lemma Inv_Sound (st : State) : Inv st -> Sound st.
Proof.
  intros I. constructor; [apply (inv_fifo I) | | now left].
  eexists. apply (inv_open I).
Qed.

(** A thread in the drain loop or in a task: no task has thrown. *)
Lemma Sound_draining (st : State) (t : nat) :
  Sound st -> outsideLoop (stacks st t) = false -> Inv st.
Proof.
  intros Hsound Hout. destruct (sound_runner Hsound) as [I | (r & _ & Hall)];
    [exact I |].
  rewrite Hall in Hout. discriminate.
Qed.

Lemma Sound_idle (st : State) :
  Sound st -> currentLoop_ st = None -> Inv st.
Proof.
  intros Hsound Hcur. destruct (sound_runner Hsound) as [I | (r & Hr & _)];
    [exact I | congruence].
Qed.

Lemma act_Sound (a : Action) (st : State) : Sound st -> Sound (act a st).
Proof.
  intros Hsound. destruct (sound_runner Hsound) as [I | (r & Hw)].
  - destruct (isThrow a) eqn:Hthrow;
      [| now apply Inv_Sound, loop_act_Inv].
    destruct a as [t fn | t | t]; try discriminate. simpl.
    destruct (stacks st t) as [| [fn | | task rest] k] eqn:Hs;
      try exact Hsound.
    assert (Hout : outsideLoop (stacks st t) = false) by now rewrite Hs.
    pose proof (draining_is_runner t I Hout) as Hcur.
    constructor; simpl; [apply (sound_fifo Hsound) | apply (sound_open Hsound) |].
    right. exists t. split; [exact Hcur |].
    intros t'. simpl. unfold setStack.
    destruct (Nat.eqb_spec t' t) as [-> | Hne]; [reflexivity |].
    apply (inv_others I). congruence.
  - destruct (act_wedged a Hw) as (Hw' & Hbegun & Hopen & more & Hp & Hd).
    constructor.
    + rewrite Hbegun, Hp, Hd, app_assoc. now rewrite (sound_fifo Hsound).
    + apply Hopen, (sound_open Hsound).
    + right. now exists r.
Qed.

Lemma run_Sound (sched : list Action) (st : State) :
  Sound st -> Sound (run sched st).
Proof.
  revert st. induction sched as [| a sched IH]; intros st Hsound; simpl;
    [exact Hsound | apply IH, act_Sound, Hsound].
Qed.

Lemma reachable_Sound (sched : list Action) : Sound (run sched initial).
Proof. apply run_Sound, Inv_Sound, loop_initial_Inv. Qed.

(** ** A thread draining the queue alone comes back *)

Lemma taskSteps_eq (task : Task) :
  taskSteps task = (2 + callsCost (defers task))%nat.
Proof.
  destruct task as [label ds]. simpl. do 2 f_equal.
  unfold callsCost. induction ds as [| d ds IH]; simpl; [reflexivity |].
  now rewrite IH.
Qed.

Lemma stacks_setStack (t : nat) (s : list Frame) (f : nat -> list Frame) :
  setStack t s f t = s.
Proof. unfold setStack. now rewrite Nat.eqb_refl. Qed.

Lemma stacks_setStack_other (t t' : nat) (s : list Frame)
    (f : nat -> list Frame) :
  t' <> t -> setStack t s f t' = f t'.
Proof.
  intros Hne. unfold setStack. destruct (Nat.eqb_spec t' t); congruence.
Qed.

Lemma calls_bound (ds : list Task) :
  list_sum (map taskSteps ds) <= callsCost ds.
Proof.
  unfold callsCost, list_sum.
  induction ds as [| d ds IH]; cbn [map fold_right]; lia.
Qed.

(** Draining ends: the tasks are finite trees. *)
Lemma drains_total (q : list Task) : exists order, Drains q order.
Proof.
  assert (Hbound : forall n q,
    list_sum (map taskSteps q) <= n -> exists order, Drains q order).
  { induction n as [| n IH]; intros q' Hq;
      (destruct q' as [| task rest]; [exists []; constructor |]);
      simpl in Hq; rewrite (taskSteps_eq task) in Hq; [lia |].
    destruct (IH (rest ++ defers task)) as [order Horder].
    - rewrite map_app, list_sum_app.
      pose proof (calls_bound (defers task)). lia.
    - exists (task :: order). now constructor. }
  now apply (Hbound (list_sum (map taskSteps q))).
Qed.

Lemma run_repeat_app (t : nat) (n m : nat) (st : State) :
  run (repeat (Step t) (n + m)) st
  = run (repeat (Step t) m) (run (repeat (Step t) n) st).
Proof. now rewrite repeat_app, loop_run_app. Qed.

(** The steps, one per case. *)
Lemma step_enter_idle (t : nat) (fn : Task) (k : list Frame) (st : State) :
  stacks st t = FEnter fn :: k -> currentLoop_ st = None ->
  step t st
  = {| currentLoop_ := Some t; pendingTasks_ := pendingTasks_ st ++ [fn];
       stacks := setStack t (FLoop :: k) (stacks st);
       history := history st ++ [EvDeferred t fn] |}.
Proof. intros Hs Hcur. unfold step. now rewrite Hs, Hcur. Qed.

Lemma step_enter_runner (t r : nat) (fn : Task) (k : list Frame)
    (st : State) :
  stacks st t = FEnter fn :: k -> currentLoop_ st = Some r ->
  step t st
  = {| currentLoop_ := Some r; pendingTasks_ := pendingTasks_ st ++ [fn];
       stacks := setStack t k (stacks st);
       history := history st ++ [EvDeferred t fn] |}.
Proof. intros Hs Hcur. unfold step. now rewrite Hs, Hcur. Qed.

Lemma step_loop_empty (t : nat) (k : list Frame) (st : State) :
  stacks st t = FLoop :: k -> pendingTasks_ st = [] ->
  step t st
  = {| currentLoop_ := None; pendingTasks_ := [];
       stacks := setStack t k (stacks st); history := history st |}.
Proof. intros Hs Hp. unfold step. now rewrite Hs, Hp. Qed.

Lemma step_loop_pop (t : nat) (k : list Frame) (task : Task)
    (rest : list Task) (st : State) :
  stacks st t = FLoop :: k -> pendingTasks_ st = task :: rest ->
  step t st
  = {| currentLoop_ := currentLoop_ st; pendingTasks_ := rest;
       stacks := setStack t (FTask task (defers task) :: FLoop :: k)
                   (stacks st);
       history := history st ++ [EvBegin t task] |}.
Proof. intros Hs Hp. unfold step. now rewrite Hs, Hp. Qed.

Lemma step_task_calls (t : nat) (task fn : Task) (rest : list Task)
    (k : list Frame) (st : State) :
  stacks st t = FTask task (fn :: rest) :: k ->
  step t st
  = {| currentLoop_ := currentLoop_ st; pendingTasks_ := pendingTasks_ st;
       stacks := setStack t (FEnter fn :: FTask task rest :: k) (stacks st);
       history := history st |}.
Proof. intros Hs. unfold step. now rewrite Hs. Qed.

Lemma step_task_returns (t : nat) (task : Task) (k : list Frame)
    (st : State) :
  stacks st t = FTask task [] :: k ->
  step t st
  = {| currentLoop_ := currentLoop_ st; pendingTasks_ := pendingTasks_ st;
       stacks := setStack t k (stacks st);
       history := history st ++ [EvEnd t task] |}.
Proof. intros Hs. unfold step. now rewrite Hs. Qed.

(** The runner alone, through one task: it makes the task's calls of
    [deferToLoop_], each of which appends and comes back, and returns to the
    drain loop. *)
Lemma task_body_alone (t : nat) (task : Task) (ds : list Task) :
  forall st,
  currentLoop_ st = Some t -> stacks st t = [FTask task ds; FLoop] ->
  exists n,
    currentLoop_ (run (repeat (Step t) n) st) = Some t /\
    stacks (run (repeat (Step t) n) st) t = [FLoop] /\
    pendingTasks_ (run (repeat (Step t) n) st) = pendingTasks_ st ++ ds /\
    (forall t', t' <> t ->
     stacks (run (repeat (Step t) n) st) t' = stacks st t') /\
    begun (history (run (repeat (Step t) n) st)) = begun (history st).
Proof.
  induction ds as [| fn ds IH]; intros st Hcur Hs.
  - exists 1. simpl. rewrite (@step_task_returns t task [FLoop] st Hs). simpl.
    rewrite stacks_setStack, app_nil_r, begun_app. simpl.
    rewrite app_nil_r. repeat split; try assumption.
    intros t' Hne. now apply stacks_setStack_other.
  - set (st1 := step t st).
    assert (E1 : st1 = _) by apply (@step_task_calls t task fn ds [FLoop] st Hs).
    assert (Hs1 : stacks st1 t = [FEnter fn; FTask task ds; FLoop])
      by (rewrite E1; simpl; apply stacks_setStack).
    assert (Hcur1 : currentLoop_ st1 = Some t) by (rewrite E1; exact Hcur).
    pose proof (@step_enter_runner t t fn [FTask task ds; FLoop] st1
                  Hs1 Hcur1) as E2.
    set (st2 := step t st1) in *.
    destruct (IH st2) as (n & Hc & Hst & Hp & Hother & Hb).
    { rewrite E2. reflexivity. }
    { rewrite E2. simpl. apply stacks_setStack. }
    exists (2 + n).
    change (run (repeat (Step t) (2 + n)) st)
      with (run (repeat (Step t) n) st2).
    split; [exact Hc | split; [exact Hst | split; [| split]]].
    + rewrite Hp, E2. simpl. rewrite E1. simpl.
      now rewrite <- app_assoc.
    + intros t' Hne. rewrite (Hother t' Hne), E2. simpl.
      rewrite stacks_setStack_other by exact Hne. rewrite E1. simpl.
      now apply stacks_setStack_other.
    + rewrite Hb, E2. simpl. rewrite begun_app, E1. simpl.
      now rewrite app_nil_r.
Qed.

(** The runner alone, through the queue. *)
Lemma drain_alone (t : nat) (q order : list Task) :
  Drains q order ->
  forall st,
  currentLoop_ st = Some t -> stacks st t = [FLoop] ->
  pendingTasks_ st = q ->
  exists n,
    currentLoop_ (run (repeat (Step t) n) st) = None /\
    stacks (run (repeat (Step t) n) st) t = [] /\
    pendingTasks_ (run (repeat (Step t) n) st) = [] /\
    (forall t', t' <> t ->
     stacks (run (repeat (Step t) n) st) t' = stacks st t') /\
    begun (history (run (repeat (Step t) n) st))
    = begun (history st) ++ order.
Proof.
  induction 1 as [| task rest order Hdrains IH]; intros st Hcur Hs Hp.
  - exists 1. simpl. rewrite (@step_loop_empty t [] st Hs Hp). simpl.
    rewrite stacks_setStack, app_nil_r. repeat split.
    intros t' Hne. now apply stacks_setStack_other.
  - set (st1 := step t st).
    assert (E1 : st1 = _) by apply (@step_loop_pop t [] task rest st Hs Hp).
    destruct (@task_body_alone t task (defers task) st1)
      as (n1 & Hc1 & Hs1 & Hp1 & Ho1 & Hb1).
    { rewrite E1. exact Hcur. }
    { rewrite E1. simpl. apply stacks_setStack. }
    destruct (IH (run (repeat (Step t) n1) st1) Hc1 Hs1)
      as (n2 & Hc2 & Hs2 & Hp2 & Ho2 & Hb2).
    { rewrite Hp1, E1. reflexivity. }
    exists (1 + (n1 + n2)).
    change (run (repeat (Step t) (1 + (n1 + n2))) st)
      with (run (repeat (Step t) (n1 + n2)) st1).
    rewrite run_repeat_app.
    split; [exact Hc2 | split; [exact Hs2 | split; [exact Hp2 | split]]].
    + intros t' Hne. rewrite (Ho2 t' Hne), (Ho1 t' Hne), E1. simpl.
      now apply stacks_setStack_other.
    + rewrite Hb2, Hb1, E1. simpl. rewrite begun_app. simpl.
      now rewrite <- app_assoc.
Qed.

Lemma quiescent_idle (st : State) :
  Inv st -> (forall t, stacks st t = []) ->
  currentLoop_ st = None /\ pendingTasks_ st = [].
Proof.
  intros I Hall.
  assert (Hcur : currentLoop_ st = None).
  { destruct (currentLoop_ st) as [r |] eqn:Hcur; [| reflexivity].
    pose proof (inv_runner I Hcur) as Hr. rewrite Hall in Hr. discriminate. }
  split; [exact Hcur | now apply (inv_idle_empty I)].
Qed.

Lemma defer_alone_drains (st : State) (t : nat) (fn : Task) :
  Sound st -> (forall t', stacks st t' = []) -> currentLoop_ st = None ->
  exists n more,
    (forall t', stacks (run (deferAlone t fn n) st) t' = []) /\
    currentLoop_ (run (deferAlone t fn n) st) = None /\
    pendingTasks_ (run (deferAlone t fn n) st) = [] /\
    Drains [fn] (fn :: more) /\
    begun (history (run (deferAlone t fn n) st))
    = begun (history st) ++ fn :: more /\
    deferred (history (run (deferAlone t fn n) st))
    = begun (history (run (deferAlone t fn n) st)).
Proof.
  intros Hsound Hall Hcur.
  pose proof (inv_idle_empty (Sound_idle Hsound Hcur) Hcur) as Hpending.
  destruct (drains_total [fn]) as [order Horder].
  assert (Hshape : exists more, order = fn :: more)
    by (inversion Horder; subst; eauto).
  destruct Hshape as [more ->].
  set (st1 := act (Call t fn) st).
  assert (E1 : st1
               = {| currentLoop_ := currentLoop_ st;
                    pendingTasks_ := pendingTasks_ st;
                    stacks := setStack t [FEnter fn] (stacks st);
                    history := history st |})
    by (unfold st1; simpl; now rewrite Hall).
  assert (Hs1 : stacks st1 t = [FEnter fn])
    by (rewrite E1; simpl; apply stacks_setStack).
  assert (Hcur1 : currentLoop_ st1 = None) by (rewrite E1; exact Hcur).
  pose proof (@step_enter_idle t fn [] st1 Hs1 Hcur1) as E2.
  set (st2 := step t st1) in *.
  destruct (@drain_alone t [fn] (fn :: more) Horder st2)
    as (n & Hc & Hs & Hp & Hother & Hb).
  { rewrite E2. reflexivity. }
  { rewrite E2. simpl. apply stacks_setStack. }
  { rewrite E2. simpl. rewrite E1. simpl. now rewrite Hpending. }
  exists (S n), more.
  change (run (deferAlone t fn (S n)) st)
    with (run (repeat (Step t) n) st2).
  assert (Hsound' : Sound (run (repeat (Step t) n) st2)).
  { apply run_Sound. unfold st2. apply (act_Sound (Step t)).
    unfold st1. now apply act_Sound. }
  split; [| split; [exact Hc | split; [exact Hp | split; [exact Horder |]]]].
  - intros t'. destruct (Nat.eq_dec t' t) as [-> | Hne]; [exact Hs |].
    rewrite (Hother t' Hne), E2. simpl.
    rewrite stacks_setStack_other by exact Hne. rewrite E1. simpl.
    rewrite stacks_setStack_other by exact Hne. apply Hall.
  - split.
    + rewrite Hb, E2. simpl. rewrite begun_app, E1. simpl.
      now rewrite app_nil_r.
    + pose proof (sound_fifo Hsound') as Hfifo.
      rewrite Hp, app_nil_r in Hfifo. now symmetry.
Qed.

(** C6, as the code has it.  In every state the loop can reach, whatever the
    interleaving of threads and whether tasks return or throw: a call of
    [deferToLoop_(fn)] appends [fn] to [pendingTasks_]; with no runner the
    caller becomes the runner and enters the drain loop, with a runner it
    returns right after appending, and so does a call made by the running
    task itself, which goes back to its task and then to the drain loop; the
    runner takes the front task of the queue each time round and, when the
    queue is empty, clears [currentLoop_] and returns; any thread that is in
    the drain loop or in a task is the one named by [currentLoop_], so two
    threads never execute tasks at once and in the history no task begins
    before the previous one ended; tasks begin in the order in which they
    were appended; with no runner nothing is pending; a thread that calls
    [deferToLoop_(fn)] while every thread is outside and there is no runner,
    and then runs alone with every task returning, executes [fn] and every
    task handed over meanwhile, in the order in which a queue is drained, and
    returns with the queue empty and [currentLoop_] cleared.  A task that
    throws takes its thread out of [deferToLoop_] with [currentLoop_] still
    naming it and the queue as it is, and no task begins afterwards. *)
Theorem deferToLoop_runs_one_at_a_time (sched : list Action) :
  let st := run sched initial in
  (forall t fn k, stacks st t = FEnter fn :: k ->
     pendingTasks_ (step t st) = pendingTasks_ st ++ [fn] /\
     (currentLoop_ st = None ->
      currentLoop_ (step t st) = Some t /\
      stacks (step t st) t = FLoop :: k) /\
     (forall r, currentLoop_ st = Some r ->
      currentLoop_ (step t st) = Some r /\ stacks (step t st) t = k)) /\
  (forall t task fn rest k,
     stacks st t = FTask task (fn :: rest) :: k ->
     stacks (step t st) t = FEnter fn :: FTask task rest :: k /\
     pendingTasks_ (step t st) = pendingTasks_ st /\
     currentLoop_ (step t st) = currentLoop_ st) /\
  (forall t fn task rest k,
     stacks st t = FEnter fn :: FTask task rest :: k ->
     inLoop_ t st = true /\
     pendingTasks_ (step t st) = pendingTasks_ st ++ [fn] /\
     stacks (step t st) t = FTask task rest :: k /\
     k = [FLoop]) /\
  (forall t task k,
     stacks st t = FTask task [] :: k ->
     stacks (step t st) t = k /\ k = [FLoop] /\
     currentLoop_ (step t st) = Some t /\
     history (step t st) = history st ++ [EvEnd t task]) /\
  (forall t k, stacks st t = FLoop :: k ->
     (pendingTasks_ st = [] ->
      currentLoop_ (step t st) = None /\ stacks (step t st) t = k) /\
     (forall task rest, pendingTasks_ st = task :: rest ->
      pendingTasks_ (step t st) = rest /\
      stacks (step t st) t = FTask task (defers task) :: FLoop :: k /\
      history (step t st) = history st ++ [EvBegin t task])) /\
  (forall t, outsideLoop (stacks st t) = false -> currentLoop_ st = Some t) /\
  (forall t1 t2,
     inTask (stacks st t1) = true -> inTask (stacks st t2) = true ->
     t1 = t2) /\
  oneAtATime (history st) /\
  begun (history st) ++ pendingTasks_ st = deferred (history st) /\
  (currentLoop_ st = None -> pendingTasks_ st = []) /\
  (forall t fn, (forall t', stacks st t' = []) -> currentLoop_ st = None ->
     exists n more,
       (forall t', stacks (run (deferAlone t fn n) st) t' = []) /\
       currentLoop_ (run (deferAlone t fn n) st) = None /\
       pendingTasks_ (run (deferAlone t fn n) st) = [] /\
       Drains [fn] (fn :: more) /\
       begun (history (run (deferAlone t fn n) st))
       = begun (history st) ++ fn :: more /\
       deferred (history (run (deferAlone t fn n) st))
       = begun (history (run (deferAlone t fn n) st))) /\
  (forall t task rest k, stacks st t = FTask task rest :: k ->
     stacks (act (Throw t) st) t = [] /\
     currentLoop_ (act (Throw t) st) = Some t /\
     pendingTasks_ (act (Throw t) st) = pendingTasks_ st /\
     forall later,
       currentLoop_ (run later (act (Throw t) st)) = Some t /\
       begun (history (run later (act (Throw t) st))) = begun (history st)).
Proof.
  intros st.
  assert (Hsound : Sound st) by apply reachable_Sound.
  repeat match goal with |- _ /\ _ => split end.
  - intros t fn k Hs. unfold step. rewrite Hs.
    destruct (currentLoop_ st) as [r |]; simpl; rewrite stacks_setStack.
    + split; [reflexivity | split; [discriminate |]].
      intros r' [= <-]. now split.
    + split; [reflexivity | split; [now split | discriminate]].
  - intros t task fn rest k Hs. rewrite (@step_task_calls t task fn rest k st Hs). simpl.
    now rewrite stacks_setStack.
  - intros t fn task rest k Hs.
    assert (Hout : outsideLoop (stacks st t) = false) by now rewrite Hs.
    pose proof (Sound_draining t Hsound Hout) as I.
    pose proof (draining_is_runner t I Hout) as Hcur.
    pose proof (inv_runner I Hcur) as Hrun. rewrite Hs in Hrun.
    unfold inLoop_, step. rewrite Hs, Hcur, Nat.eqb_refl. simpl.
    rewrite stacks_setStack. repeat split.
    destruct k as [| [] [|]]; simpl in Hrun; congruence.
  - intros t task k Hs.
    assert (Hout : outsideLoop (stacks st t) = false) by now rewrite Hs.
    pose proof (Sound_draining t Hsound Hout) as I.
    pose proof (draining_is_runner t I Hout) as Hcur.
    pose proof (inv_runner I Hcur) as Hrun. rewrite Hs in Hrun.
    rewrite (@step_task_returns t task k st Hs). simpl. rewrite stacks_setStack.
    repeat split; [| exact Hcur].
    destruct k as [| [] [|]]; simpl in Hrun; congruence.
  - intros t k Hs. unfold step. rewrite Hs. split.
    + intros ->. simpl. rewrite stacks_setStack. now split.
    + intros task rest ->. simpl. rewrite stacks_setStack. now repeat split.
  - intros t Hout. exact (draining_is_runner t (Sound_draining t Hsound Hout) Hout).
  - intros t1 t2 H1 H2.
    pose proof (Sound_draining t1 Hsound (inTask_not_outside _ H1)) as I.
    now apply (one_task_at_a_time t1 t2 I).
  - apply (sound_open Hsound).
  - apply (sound_fifo Hsound).
  - intros Hcur. exact (inv_idle_empty (Sound_idle Hsound Hcur) Hcur).
  - intros t fn Hall Hcur. now apply defer_alone_drains.
  - intros t task rest k Hs.
    assert (Hout : outsideLoop (stacks st t) = false) by now rewrite Hs.
    pose proof (Sound_draining t Hsound Hout) as I.
    pose proof (draining_is_runner t I Hout) as Hcur.
    assert (E : act (Throw t) st = throwFromTask t st)
      by (simpl; now rewrite Hs).
    rewrite E. simpl. rewrite stacks_setStack.
    split; [reflexivity | split; [exact Hcur | split; [reflexivity |]]].
    intros later.
    assert (Hw : wedged t (throwFromTask t st)).
    { split; [exact Hcur |]. intros t'. simpl. unfold setStack.
      destruct (Nat.eqb_spec t' t) as [-> | Hne]; [reflexivity |].
      apply (inv_others I). congruence. }
    destruct (run_wedged later Hw) as ([Hc _] & Hb & _).
    split; [exact Hc | exact Hb].
Qed.

(** A task that defers two tasks, the first of which defers one more. *)
Definition exampleTask : Task :=
  MkTask 0 [MkTask 1 [MkTask 3 []]; MkTask 2 []].

(** Thread 1 hands over the example task, becomes the runner, starts the
    task and is inside the first call of [deferToLoop_] that the task
    makes. *)
Definition exampleReentry : list Action :=
  [Call 1 exampleTask; Step 1; Step 1; Step 1].

(** Thread 1 hands over the example task and starts it; thread 2 hands over
    a task meanwhile and returns at once; thread 1 runs everything. *)
Definition exampleRace : list Action :=
  [Call 1 exampleTask; Step 1; Step 1; Call 2 (MkTask 9 []); Step 2]
  ++ repeat (Step 1) 20.

(** What C6 says of a call of [deferToLoop_(fn)] made by thread [t] on a
    channel with no runner, the thread then going on alone as [alone] says:
    when the thread is back outside [deferToLoop_], the queue is empty and
    the runner identifier is cleared. *)
Definition drainsUntilEmpty (t : nat) (fn : Task) (alone : list Action)
  : Prop :=
  stacks (run (Call t fn :: alone) initial) t = [] ->
  pendingTasks_ (run (Call t fn :: alone) initial) = [] /\
  currentLoop_ (run (Call t fn :: alone) initial) = None.

(** Thread 1 hands over the example task and becomes the runner; the task
    hands over its first task and throws: thread 1 is outside, the task
    handed over is still queued and [currentLoop_] still names thread 1. *)
Lemma throwing_task_keeps_runner :
  ~ drainsUntilEmpty 1 exampleTask [Step 1; Step 1; Step 1; Step 1; Throw 1].
Proof.
  unfold drainsUntilEmpty. intros Hclaim.
  destruct (Hclaim eq_refl) as [Hpending _]. discriminate.
Qed.

Lemma deferToLoop_runs_one_at_a_time_witness :
  (stacks (run exampleReentry initial) 1
   = [FEnter (MkTask 1 [MkTask 3 []]); FTask exampleTask [MkTask 2 []];
      FLoop] /\
   inLoop_ 1 (run exampleReentry initial) = true /\
   pendingTasks_ (step 1 (run exampleReentry initial))
   = pendingTasks_ (run exampleReentry initial) ++ [MkTask 1 [MkTask 3 []]] /\
   stacks (step 1 (run exampleReentry initial)) 1
   = [FTask exampleTask [MkTask 2 []]; FLoop]) /\
  (forall t', stacks (run exampleRace initial) t' = []) /\
  currentLoop_ (run exampleRace initial) = None /\
  exists n more,
    (forall t', stacks (run (deferAlone 5 exampleTask n)
                          (run exampleRace initial)) t' = []) /\
    currentLoop_ (run (deferAlone 5 exampleTask n) (run exampleRace initial))
    = None /\
    pendingTasks_ (run (deferAlone 5 exampleTask n) (run exampleRace initial))
    = [] /\
    Drains [exampleTask] (exampleTask :: more) /\
    begun (history (run (deferAlone 5 exampleTask n)
                      (run exampleRace initial)))
    = begun (history (run exampleRace initial)) ++ exampleTask :: more /\
    deferred (history (run (deferAlone 5 exampleTask n)
                         (run exampleRace initial)))
    = begun (history (run (deferAlone 5 exampleTask n)
                        (run exampleRace initial))).
Proof.
  assert (Hs : stacks (run exampleReentry initial) 1
               = [FEnter (MkTask 1 [MkTask 3 []]);
                  FTask exampleTask [MkTask 2 []]; FLoop]) by reflexivity.
  assert (Hall : forall t', stacks (run exampleRace initial) t' = []).
  { intros t'. vm_compute. destruct t' as [| [| [| t']]]; reflexivity. }
  assert (Hcur : currentLoop_ (run exampleRace initial) = None)
    by (vm_compute; reflexivity).
  destruct (deferToLoop_runs_one_at_a_time exampleReentry)
    as (_ & _ & Hreentry & _).
  destruct (deferToLoop_runs_one_at_a_time exampleRace)
    as (_ & _ & _ & _ & _ & _ & _ & _ & _ & _ & Halone & _).
  destruct (Hreentry 1 _ _ _ _ Hs) as (Hin & Hpending & Hstack & _).
  split; [split; [exact Hs | split; [exact Hin | split; assumption]] |].
  split; [exact Hall | split; [exact Hcur |]].
  exact (Halone 5 exampleTask Hall Hcur).
Defined.

(** [inLoop_()] tells the runner from the others.  In every state the loop
    can reach and for every thread: [inLoop_()] evaluated by a thread that is
    past the first block of [deferToLoop_], in the drain loop or in a task
    called from it, is true, as the [TP_DCHECK(inLoop_())] at the head of
    every function run from the loop expects; it is true for a thread outside
    only when the task that thread was executing has thrown, and then no
    thread is in the drain loop; as long as no task has thrown it is true
    exactly for the thread in the drain loop or in a task.  A call of
    [deferToLoop_] made from a task does not start a second drain loop: no
    thread is ever more than three frames deep. *)
Theorem inLoop_iff_draining (sched : list Action) (t : nat) :
  (outsideLoop (stacks (run sched initial) t) = false ->
   inLoop_ t (run sched initial) = true) /\
  (inTask (stacks (run sched initial) t) = true ->
   inLoop_ t (run sched initial) = true) /\
  (inLoop_ t (run sched initial) = true ->
   outsideLoop (stacks (run sched initial) t) = true ->
   forall t', outsideLoop (stacks (run sched initial) t') = true) /\
  (noThrow sched = true ->
   inLoop_ t (run sched initial)
   = negb (outsideLoop (stacks (run sched initial) t))) /\
  (List.length (stacks (run sched initial) t) <= 3)%nat.
Proof.
  set (st := run sched initial).
  assert (Hsound : Sound st) by apply reachable_Sound.
  assert (Hhealthy : Inv st ->
    inLoop_ t st = negb (outsideLoop (stacks st t))).
  { intros I. unfold inLoop_.
    destruct (standing t I) as [[Hcur Hstack] | [Hne Hstack]].
    - rewrite Hcur, Nat.eqb_refl.
      apply runnerStack_inv in Hstack.
      destruct Hstack as [-> | [(task & rest & ->) | (fn & task & rest & ->)]];
        reflexivity.
    - rewrite Hstack. simpl.
      destruct (currentLoop_ st) as [r |]; [| reflexivity].
      apply Nat.eqb_neq. congruence. }
  assert (Hin : outsideLoop (stacks st t) = false -> inLoop_ t st = true).
  { intros Hout. rewrite (Hhealthy (Sound_draining t Hsound Hout)).
    now rewrite Hout. }
  split; [exact Hin | split; [| split; [| split]]].
  - intros Htask. apply Hin. now apply inTask_not_outside.
  - intros Htrue Hout. destruct (sound_runner Hsound) as [I | (r & _ & Hall)];
      [| exact Hall].
    rewrite (Hhealthy I), Hout in Htrue. discriminate.
  - intros Hsched. apply Hhealthy.
    now apply loop_run_Inv; [| apply loop_initial_Inv].
  - destruct (sound_runner Hsound) as [I | (r & _ & Hall)].
    + destruct (standing t I) as [[_ Hstack] | [_ Hstack]].
      * apply runnerStack_inv in Hstack.
        destruct Hstack
          as [-> | [(task & rest & ->) | (fn & task & rest & ->)]];
          simpl; lia.
      * apply outsideLoop_inv in Hstack.
        destruct Hstack as [-> | (fn & ->)]; simpl; lia.
    + pose proof (Hall t) as Hstack. apply outsideLoop_inv in Hstack.
      destruct Hstack as [-> | (fn & ->)]; simpl; lia.
Qed.

(** No task is left behind.  In every state the loop can reach: while a
    task is pending, [currentLoop_] names a thread; and when every thread is
    back outside [deferToLoop_] and [currentLoop_] is cleared, nothing is
    pending and the tasks executed are the tasks handed over, each once and
    in the order in which they were appended.  As long as no task has
    thrown, the thread named by [currentLoop_] is inside the drain loop,
    committed to run what is pending, and [currentLoop_] is cleared whenever
    every thread is back outside. *)
Theorem no_task_left_behind (sched : list Action) :
  (pendingTasks_ (run sched initial) <> [] ->
   exists r, currentLoop_ (run sched initial) = Some r) /\
  ((forall t, stacks (run sched initial) t = []) ->
   currentLoop_ (run sched initial) = None ->
   pendingTasks_ (run sched initial) = [] /\
   begun (history (run sched initial))
   = deferred (history (run sched initial))) /\
  (noThrow sched = true ->
   (forall r, currentLoop_ (run sched initial) = Some r ->
    runnerStack (stacks (run sched initial) r) = true) /\
   ((forall t, stacks (run sched initial) t = []) ->
    currentLoop_ (run sched initial) = None)).
Proof.
  set (st := run sched initial).
  assert (Hsound : Sound st) by apply reachable_Sound.
  split; [| split].
  - intros Hpending. destruct (currentLoop_ st) as [r |] eqn:Hcur;
      [now exists r |].
    now pose proof (inv_idle_empty (Sound_idle Hsound Hcur) Hcur).
  - intros Hall Hcur.
    pose proof (inv_idle_empty (Sound_idle Hsound Hcur) Hcur) as Hpending.
    split; [exact Hpending |].
    pose proof (sound_fifo Hsound) as Hfifo.
    now rewrite Hpending, app_nil_r in Hfifo.
  - intros Hsched.
    assert (I : Inv st)
      by (apply loop_run_Inv; [exact Hsched | apply loop_initial_Inv]).
    split; [exact (inv_runner I) |].
    intros Hall. now apply (quiescent_idle I).
Qed.

Lemma inLoop_iff_draining_witness :
  inTask (stacks (run [Call 1 exampleTask; Step 1; Step 1] initial) 1) = true /\
  inLoop_ 1 (run [Call 1 exampleTask; Step 1; Step 1] initial) = true /\
  noThrow exampleRace = true /\
  inLoop_ 2 (run exampleRace initial)
  = negb (outsideLoop (stacks (run exampleRace initial) 2)).
Proof.
  assert (Htask :
    inTask (stacks (run [Call 1 exampleTask; Step 1; Step 1] initial) 1)
    = true) by reflexivity.
  assert (Hsched : noThrow exampleRace = true) by reflexivity.
  destruct (inLoop_iff_draining [Call 1 exampleTask; Step 1; Step 1] 1)
    as (_ & Hin & _).
  destruct (inLoop_iff_draining exampleRace 2) as (_ & _ & _ & Hiff & _).
  split; [exact Htask | split; [exact (Hin Htask) |]].
  split; [exact Hsched | exact (Hiff Hsched)].
Defined.

Lemma no_task_left_behind_witness :
  (forall t, stacks (run exampleRace initial) t = []) /\
  currentLoop_ (run exampleRace initial) = None /\
  pendingTasks_ (run exampleRace initial) = [] /\
  begun (history (run exampleRace initial))
  = deferred (history (run exampleRace initial)).
Proof.
  assert (Hall : forall t, stacks (run exampleRace initial) t = []).
  { intros t. vm_compute.
    destruct t as [| [| [| t]]]; reflexivity. }
  assert (Hsched : noThrow exampleRace = true) by reflexivity.
  destruct (no_task_left_behind exampleRace) as (_ & Hquiet & Hhealthy).
  destruct (Hhealthy Hsched) as [_ Hcleared].
  split; [exact Hall | split; [exact (Hcleared Hall) |]].
  exact (Hquiet Hall (Hcleared Hall)).
Defined.

(** A task that throws stops the loop for good.  When the task that a thread
    executes throws, in any state the loop can reach, then whatever the
    threads do afterwards: [currentLoop_] keeps naming that thread, no
    thread enters the drain loop, no task is begun any more, and every
    later call of [deferToLoop_] returns with its task appended to
    [pendingTasks_], where it stays. *)
Theorem throw_wedges_loop (sched later : list Action) (t : nat)
    (task : Task) (rest : list Task) (k : list Frame) :
  stacks (run sched initial) t = FTask task rest :: k ->
  currentLoop_ (run later (throwFromTask t (run sched initial))) = Some t /\
  (forall t',
   outsideLoop (stacks (run later (throwFromTask t (run sched initial))) t')
   = true) /\
  begun (history (run later (throwFromTask t (run sched initial))))
  = begun (history (run sched initial)) /\
  exists more,
    pendingTasks_ (run later (throwFromTask t (run sched initial)))
    = pendingTasks_ (run sched initial) ++ more /\
    deferred (history (run later (throwFromTask t (run sched initial))))
    = deferred (history (run sched initial)) ++ more.
Proof.
  intros Hs. set (st := run sched initial) in *.
  assert (Hsound : Sound st) by apply reachable_Sound.
  assert (Hout : outsideLoop (stacks st t) = false) by now rewrite Hs.
  pose proof (Sound_draining t Hsound Hout) as I.
  assert (Hw : wedged t (throwFromTask t st)).
  { split.
    - simpl. now apply (draining_is_runner t I).
    - intros t'. simpl. unfold setStack.
      destruct (Nat.eqb_spec t' t) as [-> | Hne]; [reflexivity |].
      apply (inv_others I).
      rewrite (draining_is_runner t I) by exact Hout.
      congruence. }
  destruct (run_wedged later Hw) as ([Hcur Hall] & Hbegun & more & Hp & Hd).
  split; [exact Hcur | split; [exact Hall | split; [exact Hbegun |]]].
  exists more. now split.
Qed.

Lemma throw_wedges_loop_witness :
  stacks (run [Call 1 exampleTask; Step 1; Step 1] initial) 1
  = [FTask exampleTask (defers exampleTask); FLoop] /\
  begun
    (history
       (run [Call 2 (MkTask 9 []); Step 2; Call 1 (MkTask 8 []); Step 1]
          (throwFromTask 1 (run [Call 1 exampleTask; Step 1; Step 1] initial))))
  = begun (history (run [Call 1 exampleTask; Step 1; Step 1] initial)).
Proof.
  assert (Hs : stacks (run [Call 1 exampleTask; Step 1; Step 1] initial) 1
               = [FTask exampleTask (defers exampleTask); FLoop])
    by reflexivity.
  split; [exact Hs |].
  destruct (throw_wedges_loop [Call 1 exampleTask; Step 1; Step 1]
              [Call 2 (MkTask 9 []); Step 2; Call 1 (MkTask 8 []); Step 1]
              1 Hs) as (_ & _ & Hbegun & _).
  exact Hbegun.
Defined.

End Loop.

(** * The channel

    The functions of [Channel::Impl] that run inside the loop.  They read and
    write [error_], [id_] and [sendOperations_]; every call that leaves the
    channel (a user callback, the transport, the context) is logged together
    with the channel state at the moment of the call. *)

Module Channel.

(** [proto::Descriptor], [proto::Notification] and [proto::Packet] (a oneof
    whose only case is the notification). *)
Record Descriptor : Type := {
  operation_id : Z;
  pid : Z;
  ptr : Z
}.

Record Notification : Type := { notification_id : Z }.

Inductive Packet : Type :=
| PacketNotification (n : Notification)
| PacketNotSet.

(** User callbacks are opaque: the channel only calls them.  They are named
    by numbers. *)
Definition TDescriptorCallback : Type := nat.
Definition TSendCallback : Type := nat.
Definition TRecvCallback : Type := nat.

Record SendOperation : Type := {
  id : Z;
  callback : TSendCallback
}.

Record Impl : Type := {
  error_ : Error;
  id_ : Z;
  sendOperations_ : list SendOperation
}.

(** A channel as constructed: [error_{Error::kSuccess}], [id_{0}], no
    operation. *)
Definition fresh : Impl :=
  {| error_ := kSuccess; id_ := 0; sendOperations_ := [] |}.

Section WithEnvironment.

(** The serialized descriptor and its codec ([saveDescriptor] and
    [loadDescriptor] of channel/helpers.h), and [getpid()]. *)
Variable TDescriptor : Type.
Variable saveDescriptor : Descriptor -> TDescriptor.
Variable loadDescriptor : TDescriptor -> Descriptor.
Variable getpid : Z.

Inductive Event : Type :=
| EvDescriptorCallback (cb : TDescriptorCallback) (e : Error) (d : TDescriptor)
| EvSendCallback (cb : TSendCallback) (e : Error)
| EvRecvCallback (cb : TRecvCallback) (e : Error)
| EvConnectionRead
    (* connection_->read(packet, readPacketCallbackWrapper_(...)) *)
| EvConnectionWrite (p : Packet)
    (* connection_->write(packet, writePacketCallbackWrapper_(...)) *)
| EvConnectionClose
| EvRequestCopy (remotePid remotePtr localPtr length : Z)
    (id : Z) (cb : TRecvCallback)
    (* context_->requestCopy(..., copyCallbackWrapper_([id, callback] ...)) *)
| EvClosingReceiverActivate.

(** A logged call: the call and the channel as it was when the call was
    made. *)
Definition Entry : Type := (Event * Impl)%type.

(** Computations on the channel: they read and write the state, log calls,
    and either return or throw.  What was done before a throw stays done. *)
Definition M (A : Type) : Type := Impl -> Outcome A * Impl * list Entry.

Definition ret {A : Type} (a : A) : M A := fun s => (Returned a, s, []).

Definition bind {A B : Type} (m : M A) (f : A -> M B) : M B :=
  fun s =>
    match m s with
    | (Returned a, s', l) =>
        let '(r, s'', l') := f a s' in (r, s'', l ++ l')
    | (Thrown msg, s', l) => (Thrown msg, s', l)
    end.

Definition get : M Impl := fun s => (Returned s, s, []).
Definition put (s' : Impl) : M unit := fun _ => (Returned tt, s', []).
Definition call (e : Event) : M unit := fun s => (Returned tt, s, [(e, s)]).
Definition throw {A : Type} (msg : string) : M A :=
  fun s => (Thrown msg, s, []).

Notation "x <- m ;; k" := (bind m (fun x => k))
  (at level 61, m at next level, right associativity).
Notation "m ;;; k" := (bind m (fun _ => k))
  (at level 61, right associativity).

Definition set_error (e : Error) : M unit :=
  s <- get ;;
  put {| error_ := e; id_ := id_ s; sendOperations_ := sendOperations_ s |}.

Definition set_sendOperations (ops : list SendOperation) : M unit :=
  s <- get ;;
  put {| error_ := error_ s; id_ := id_ s; sendOperations_ := ops |}.

(** [id_++] on a [uint64_t]. *)
Definition post_increment_id : M Z :=
  s <- get ;;
  put {| error_ := error_ s; id_ := to_uint64 (id_ s + 1);
         sendOperations_ := sendOperations_ s |} ;;;
  ret (id_ s).

(** Calling each element of a list in order. *)
Fixpoint for_each {A : Type} (f : A -> M unit) (l : list A) : M unit :=
  match l with
  | [] => ret tt
  | x :: l' => f x ;;; for_each f l'
  end.

(** [Channel::Impl::sendFromLoop_]. *)
Definition sendFromLoop_ (ptr length : Z)
    (descriptorCallback : TDescriptorCallback) (callback : TSendCallback)
  : M unit :=
  s <- get ;;
  (if isError (error_ s) then throw "TP_THROW_ASSERT" else ret tt) ;;;
  id <- post_increment_id ;;
  let pbDescriptor := {| operation_id := id; pid := getpid; ptr := ptr |} in
  s <- get ;;
  set_sendOperations
    (sendOperations_ s ++ [{| id := id; callback := callback |}]) ;;;
  call (EvDescriptorCallback descriptorCallback kSuccess
          (saveDescriptor pbDescriptor)).

(** The completion passed to [copyCallbackWrapper_] in [recvFromLoop_]:
    [[id, callback](Impl& impl) { ... }]. *)
Definition recvCopyDone (id : Z) (callback : TRecvCallback) : M unit :=
  call (EvConnectionWrite (PacketNotification {| notification_id := id |})) ;;;
  s <- get ;;
  call (EvRecvCallback callback (error_ s)).

(** [Channel::Impl::recvFromLoop_]. *)
Definition recvFromLoop_ (descriptor : TDescriptor) (ptr length : Z)
    (callback : TRecvCallback) : M unit :=
  let pbDescriptor := loadDescriptor descriptor in
  let id := operation_id pbDescriptor in
  let remotePid := pid pbDescriptor in
  let remotePtr := Channel.ptr pbDescriptor in
  call (EvRequestCopy remotePid remotePtr ptr length id callback).

(** [Channel::Impl::handleError_]. *)
Definition handleError_ : M unit :=
  s <- get ;;
  let sendOperations := sendOperations_ s in
  set_sendOperations [] ;;;
  for_each
    (fun op => s <- get ;; call (EvSendCallback (callback op) (error_ s)))
    sendOperations ;;;
  call EvConnectionClose.

(** [Channel::Impl::closeFromLoop_]. *)
Definition closeFromLoop_ : M unit :=
  s <- get ;;
  if negb (isError (error_ s))
  then set_error ChannelClosedError ;;; handleError_
  else ret tt.

(** [Channel::Impl::readPacket_]. *)
Definition readPacket_ : M unit := call EvConnectionRead.

(** [Channel::Impl::initFromLoop_]. *)
Definition initFromLoop_ : M unit :=
  call EvClosingReceiverActivate ;;; readPacket_.

(** [std::find_if] on the list of operations, as the position found: the
    elements before it, the element, the elements after it. *)
Fixpoint find_if (p : SendOperation -> bool) (l : list SendOperation)
  : option (list SendOperation * SendOperation * list SendOperation) :=
  match l with
  | [] => None
  | op :: l' =>
      if p op then Some ([], op, l')
      else match find_if p l' with
           | Some (before, found, after) => Some (op :: before, found, after)
           | None => None
           end
  end.

(** [Channel::Impl::onNotification_]. *)
Definition onNotification_ (pbNotification : Notification) : M unit :=
  let id := notification_id pbNotification in
  s <- get ;;
  match find_if (fun op => Channel.id op =? id) (sendOperations_ s) with
  | None => throw "Expected send operation to exist."
  | Some (before, op, after) =>
      set_sendOperations (before ++ after) ;;;
      call (EvSendCallback (callback op) kSuccess)
  end.

(** [Channel::Impl::onPacket_].  [TP_DCHECK_EQ] on the packet's case stops a
    checked build on any other case. *)
Definition onPacket_ (pbPacketIn : Packet) : M unit :=
  match pbPacketIn with
  | PacketNotification n => onNotification_ n ;;; readPacket_
  | PacketNotSet => throw "TP_DCHECK_EQ"
  end.

(** Modelled from the spec: the entry point of [DeferringCallbackWrapper]
    (tensorpipe/common/callback.h, not among the sources), which
    [readPacketCallbackWrapper_] and [writePacketCallbackWrapper_] put around
    a completion.  It runs as a loop task with the error the transport
    reported.  From sections 4.3.5 and 3 of the specification: a callback that
    observes an error argument sets the channel error if unset and runs
    [handleError]; once the error is set no further transport reads are
    issued and notifications are ignored.  So the completion [fn] runs only
    when no error is set and none is reported. *)
Definition deferringEntryPoint (e : Error) (fn : M unit) : M unit :=
  s <- get ;;
  if isError (error_ s) then ret tt
  else if isError e then set_error e ;;; handleError_
  else fn.

(** Modelled from the spec: the entry point of
    [DeferringTolerantCallbackWrapper] (same header), which
    [copyCallbackWrapper_] puts around the completion of a copy.  As above it
    sets the channel error if unset and runs [handleError] when the copy
    reported an error; being tolerant, it then runs the completion in every
    case, which is how the recv callback of section 4.3.3 comes to be called
    after a failed copy. *)
Definition deferringTolerantEntryPoint (e : Error) (fn : M unit) : M unit :=
  s <- get ;;
  (if negb (isError (error_ s)) && isError e
   then set_error e ;;; handleError_
   else ret tt) ;;;
  fn.

(** The tasks handed to [deferToLoop_]: by [init_], [send], [recv], [close],
    and by the three callback wrappers when the transport or the copy worker
    completes. *)
Inductive Task : Type :=
| TaskInit
| TaskSend (ptr length : Z)
    (descriptorCallback : TDescriptorCallback) (callback : TSendCallback)
| TaskRecv (descriptor : TDescriptor) (ptr length : Z)
    (callback : TRecvCallback)
| TaskClose
| TaskReadPacketDone (e : Error) (packet : Packet)
| TaskWritePacketDone (e : Error)
| TaskCopyDone (e : Error) (id : Z) (callback : TRecvCallback).

Definition runTask (task : Task) : M unit :=
  match task with
  | TaskInit => initFromLoop_
  | TaskSend ptr length descriptorCallback callback =>
      sendFromLoop_ ptr length descriptorCallback callback
  | TaskRecv descriptor ptr length callback =>
      recvFromLoop_ descriptor ptr length callback
  | TaskClose => closeFromLoop_
  | TaskReadPacketDone e packet => deferringEntryPoint e (onPacket_ packet)
  | TaskWritePacketDone e => deferringEntryPoint e (ret tt)
  | TaskCopyDone e id callback =>
      deferringTolerantEntryPoint e (recvCopyDone id callback)
  end.

(** The loop running tasks one after the other; a task that throws ends the
    run (the exception leaves [deferToLoop_] with [currentLoop_] still set,
    so no later task of this channel runs). *)
Definition runLoop (tasks : list Task) : M unit := for_each runTask tasks.

(** Reading a log. *)
Definition events (l : list Entry) : list Event := map fst l.

Definition isSend (task : Task) : bool :=
  match task with TaskSend _ _ _ _ => true | _ => false end.

(** The number of sends among tasks. *)
Definition sendsIn (tasks : list Task) : nat :=
  List.length (filter isSend tasks).

(** The descriptors handed to descriptor callbacks, oldest first. *)
Definition descriptorsIn (l : list Entry) : list TDescriptor :=
  flat_map (fun entry =>
              match fst entry with
              | EvDescriptorCallback _ _ d => [d]
              | _ => []
              end) l.

(** The operation ids of the notifications read without error. *)
Definition notifiedIn (tasks : list Task) : list Z :=
  flat_map (fun task =>
              match task with
              | TaskReadPacketDone kSuccess (PacketNotification n) =>
                  [notification_id n]
              | _ => []
              end) tasks.

(** The buffer pointers of the sends among tasks, oldest first. *)
Definition sendPtrs (tasks : list Task) : list Z :=
  flat_map (fun task =>
              match task with
              | TaskSend ptr _ _ _ => [ptr]
              | _ => []
              end) tasks.

(** The descriptors of sends numbered from [k] on, one per buffer pointer. *)
Fixpoint descriptorsFrom (k : Z) (ptrs : list Z) : list Descriptor :=
  match ptrs with
  | [] => []
  | p :: ptrs' =>
      {| operation_id := k; pid := getpid; ptr := p |}
      :: descriptorsFrom (k + 1) ptrs'
  end.

(** What a task other than a send may do to the channel: [id_] is kept, no
    descriptor is handed out, an error is never cleared, no operation is
    added and ids stay distinct, and while no error is set every operation
    stays in flight unless the task is the notification for it. *)
Definition quietStep (task : Task) (s s' : Impl) (l : list Entry) : Prop :=
  id_ s' = id_ s /\
  descriptorsIn l = [] /\
  (error_ s' = kSuccess -> error_ s = kSuccess) /\
  (forall op, In op (sendOperations_ s') -> In op (sendOperations_ s)) /\
  (NoDup (map id (sendOperations_ s)) ->
   NoDup (map id (sendOperations_ s'))) /\
  (error_ s' = kSuccess ->
   forall op, In op (sendOperations_ s) ->
   ~ In (id op) (notifiedIn [task]) -> In op (sendOperations_ s')).

(** What holds after a run of the loop on a fresh channel that did not
    throw. *)
Record Reached (tasks : list Task) (st : Impl) (log : list Entry) : Prop := {
  reached_id : id_ st = Z.of_nat (sendsIn tasks);
  reached_descriptors :
    descriptorsIn log
    = map saveDescriptor (descriptorsFrom 0 (sendPtrs tasks));
  reached_bound : forall op,
    In op (sendOperations_ st) -> 0 <= id op < id_ st;
  reached_nodup : NoDup (map id (sendOperations_ st));
  reached_in_flight :
    error_ st = kSuccess ->
    forall i, 0 <= i < id_ st -> ~ In i (notifiedIn tasks) ->
    exists op, In op (sendOperations_ st) /\ id op = i;
  reached_registered : forall cb e d snap,
    In (EvDescriptorCallback cb e d, snap) log ->
    e = kSuccess /\
    exists d0, d = saveDescriptor d0 /\ pid d0 = getpid /\
    exists op, In op (sendOperations_ snap) /\ id op = operation_id d0
}.

(** ** What one task does

    The channel after its first error [e]: the error is recorded and nothing
    is left in flight. *)
Definition failedWith (e : Error) (s : Impl) : Impl :=
  {| error_ := e; id_ := id_ s; sendOperations_ := [] |}.

(** What [handleError_] calls on the first error [e]: the callback of every
    send in flight, oldest first, then [connection_->close()]. *)
Definition failureLog (e : Error) (s : Impl) : list Entry :=
  map (fun op => (EvSendCallback (callback op) e, failedWith e s))
    (sendOperations_ s)
  ++ [(EvConnectionClose, failedWith e s)].

(** The channel after the notification for the operation found by
    [std::find_if] between [before] and [after]. *)
Definition erased (before after : list SendOperation) (s : Impl) : Impl :=
  {| error_ := error_ s; id_ := id_ s; sendOperations_ := before ++ after |}.

(** The channel after a send. *)
Definition registered (callback : TSendCallback) (s : Impl) : Impl :=
  {| error_ := kSuccess; id_ := to_uint64 (id_ s + 1);
     sendOperations_ :=
       sendOperations_ s ++ [{| id := id_ s; callback := callback |}] |}.

(** The outcomes of a task that returns, case by case: the state it leaves
    and the calls it makes. *)
Inductive Effect : Task -> Impl -> Impl -> list Entry -> Prop :=
| effect_init s :
    Effect TaskInit s s
      [(EvClosingReceiverActivate, s); (EvConnectionRead, s)]
| effect_send s ptr length dcb cb :
    error_ s = kSuccess ->
    Effect (TaskSend ptr length dcb cb) s (registered cb s)
      [(EvDescriptorCallback dcb kSuccess
          (saveDescriptor
             {| operation_id := id_ s; pid := getpid; ptr := ptr |}),
        registered cb s)]
| effect_recv s descriptor ptr length cb :
    Effect (TaskRecv descriptor ptr length cb) s s
      [(EvRequestCopy (pid (loadDescriptor descriptor))
          (Channel.ptr (loadDescriptor descriptor)) ptr length
          (operation_id (loadDescriptor descriptor)) cb, s)]
| effect_close s :
    error_ s = kSuccess ->
    Effect TaskClose s (failedWith ChannelClosedError s)
      (failureLog ChannelClosedError s)
| effect_close_again s :
    error_ s <> kSuccess -> Effect TaskClose s s []
| effect_read_error s e packet :
    error_ s = kSuccess -> e <> kSuccess ->
    Effect (TaskReadPacketDone e packet) s (failedWith e s) (failureLog e s)
| effect_read_ignored s e packet :
    error_ s <> kSuccess -> Effect (TaskReadPacketDone e packet) s s []
| effect_notification s N before op after :
    error_ s = kSuccess ->
    find_if (fun op => id op =? N) (sendOperations_ s)
    = Some (before, op, after) ->
    Effect
      (TaskReadPacketDone kSuccess
         (PacketNotification {| notification_id := N |}))
      s (erased before after s)
      [(EvSendCallback (callback op) kSuccess, erased before after s);
       (EvConnectionRead, erased before after s)]
| effect_write_error s e :
    error_ s = kSuccess -> e <> kSuccess ->
    Effect (TaskWritePacketDone e) s (failedWith e s) (failureLog e s)
| effect_write_ignored s e :
    error_ s <> kSuccess \/ e = kSuccess ->
    Effect (TaskWritePacketDone e) s s []
| effect_copy_error s e i cb :
    error_ s = kSuccess -> e <> kSuccess ->
    Effect (TaskCopyDone e i cb) s (failedWith e s)
      (failureLog e s
       ++ [(EvConnectionWrite
              (PacketNotification {| notification_id := i |}),
            failedWith e s);
           (EvRecvCallback cb e, failedWith e s)])
| effect_copy_quiet s e i cb :
    error_ s <> kSuccess \/ e = kSuccess ->
    Effect (TaskCopyDone e i cb) s s
      [(EvConnectionWrite (PacketNotification {| notification_id := i |}), s);
       (EvRecvCallback cb (error_ s), s)].

(** ** Reading a log and a list of tasks

    The send callbacks called, oldest first. *)
Definition sendCallbacksIn (l : list Entry) : list TSendCallback :=
  flat_map (fun entry =>
              match fst entry with
              | EvSendCallback cb _ => [cb]
              | _ => []
              end) l.

(** The descriptor callbacks called, oldest first. *)
Definition descriptorCallbacksIn (l : list Entry)
  : list TDescriptorCallback :=
  flat_map (fun entry =>
              match fst entry with
              | EvDescriptorCallback cb _ _ => [cb]
              | _ => []
              end) l.

(** The send callbacks and the descriptor callbacks that the sends among
    tasks were given, oldest first. *)
Definition sendCallbacksOf (tasks : list Task) : list TSendCallback :=
  flat_map (fun task =>
              match task with
              | TaskSend _ _ _ cb => [cb]
              | _ => []
              end) tasks.

Definition descriptorCallbacksOf (tasks : list Task)
  : list TDescriptorCallback :=
  flat_map (fun task =>
              match task with
              | TaskSend _ _ dcb _ => [dcb]
              | _ => []
              end) tasks.

Definition isClose (entry : Entry) : bool :=
  match fst entry with EvConnectionClose => true | _ => false end.

Definition isRead (entry : Entry) : bool :=
  match fst entry with EvConnectionRead => true | _ => false end.

(** How many times [connection_->close()] and [connection_->read] were
    called. *)
Definition closesIn (l : list Entry) : nat := List.length (filter isClose l).
Definition readsIn (l : list Entry) : nat := List.length (filter isRead l).

Definition isInit (task : Task) : bool :=
  match task with TaskInit => true | _ => false end.

Definition isReadDone (task : Task) : bool :=
  match task with TaskReadPacketDone _ _ => true | _ => false end.

(** How many reads the tasks account for: one armed by each [initFromLoop_],
    and one completion handed to each [TaskReadPacketDone]. *)
Definition initsIn (tasks : list Task) : nat :=
  List.length (filter isInit tasks).
Definition readsDoneIn (tasks : list Task) : nat :=
  List.length (filter isReadDone tasks).

(** ** Evaluating the functions of the loop *)

Ltac unfold_m :=
  unfold set_error, set_sendOperations, post_increment_id, bind, ret, get,
    put, call, throw in *.

Lemma error_cases (s : Impl) : error_ s = kSuccess \/ error_ s <> kSuccess.
Proof. destruct (error_ s); (now left) || (right; discriminate). Qed.

Lemma bind_get_run {A : Type} (f : Impl -> M A) (s : Impl) :
  (x <- get ;; f x) s = f s s.
Proof.
  unfold bind, get. destruct (f s s) as [[r s'] l]. reflexivity.
Qed.

Lemma for_each_send_callbacks (ops : list SendOperation) (s : Impl) :
  for_each
    (fun op => s <- get ;; call (EvSendCallback (callback op) (error_ s)))
    ops s
  = (Returned tt, s,
     map (fun op => (EvSendCallback (callback op) (error_ s), s)) ops).
Proof.
  induction ops as [| op ops IH]; [reflexivity |].
  simpl. cbv [bind get call] in *. now rewrite IH.
Qed.

Lemma handleError_spec (s : Impl) :
  let s' := {| error_ := error_ s; id_ := id_ s; sendOperations_ := [] |} in
  handleError_ s
  = (Returned tt, s',
     map (fun op => (EvSendCallback (callback op) (error_ s), s'))
       (sendOperations_ s)
     ++ [(EvConnectionClose, s')]).
Proof.
  pose proof (for_each_send_callbacks (sendOperations_ s)
                {| error_ := error_ s; id_ := id_ s; sendOperations_ := [] |})
    as Hcalls.
  unfold handleError_, set_sendOperations.
  cbv [bind get put call] in *. now rewrite Hcalls.
Qed.

(** Setting the error and running [handleError_]: what [closeFromLoop_] and
    the callback wrappers do on the first error. *)
Lemma fail_with_spec (e : Error) (s : Impl) :
  let s' := {| error_ := e; id_ := id_ s; sendOperations_ := [] |} in
  (set_error e ;;; handleError_) s
  = (Returned tt, s',
     map (fun op => (EvSendCallback (callback op) e, s')) (sendOperations_ s)
     ++ [(EvConnectionClose, s')]).
Proof.
  cbv [bind set_error get put]. now rewrite handleError_spec.
Qed.

Lemma closeFromLoop_active (st : Impl) :
  error_ st = kSuccess ->
  let st' := {| error_ := ChannelClosedError; id_ := id_ st;
                sendOperations_ := [] |} in
  closeFromLoop_ st
  = (Returned tt, st',
     map (fun op => (EvSendCallback (callback op) ChannelClosedError, st'))
       (sendOperations_ st)
     ++ [(EvConnectionClose, st')]).
Proof.
  intros He. unfold closeFromLoop_. rewrite bind_get_run, He. simpl.
  apply fail_with_spec.
Qed.

Lemma closeFromLoop_failed (st : Impl) :
  error_ st <> kSuccess -> closeFromLoop_ st = (Returned tt, st, []).
Proof.
  intros He. apply isError_true in He.
  unfold closeFromLoop_. rewrite bind_get_run. now rewrite He.
Qed.

Lemma find_if_found (p : SendOperation -> bool)
    (before : list SendOperation) (op : SendOperation)
    (after : list SendOperation) :
  (forall o, In o before -> p o = false) -> p op = true ->
  find_if p (before ++ op :: after) = Some (before, op, after).
Proof.
  intros Hbefore Hop. induction before as [| o before IH]; simpl.
  - now rewrite Hop.
  - rewrite (Hbefore o) by now left.
    rewrite IH; [reflexivity |]. intros o' Ho'. apply Hbefore. now right.
Qed.

Lemma find_if_none (p : SendOperation -> bool) (l : list SendOperation) :
  (forall o, In o l -> p o = false) -> find_if p l = None.
Proof.
  intros Hl. induction l as [| o l IH]; simpl; [reflexivity |].
  rewrite (Hl o) by now left. rewrite IH; [reflexivity |].
  intros o' Ho'. apply Hl. now right.
Qed.

Lemma find_if_some (p : SendOperation -> bool) (l : list SendOperation)
    (before : list SendOperation) (op : SendOperation)
    (after : list SendOperation) :
  find_if p l = Some (before, op, after) ->
  l = before ++ op :: after /\ p op = true /\
  (forall o, In o before -> p o = false).
Proof.
  revert before. induction l as [| o l IH]; intros before; simpl;
    [discriminate |].
  destruct (p o) eqn:Hpo.
  - intros [= <- <- <-]. simpl. repeat split; [assumption | contradiction].
  - destruct (find_if p l) as [[[b f] a] |]; [| discriminate].
    intros [= <- <- <-]. destruct (IH b eq_refl) as (-> & Hf & Hb).
    repeat split; [assumption |].
    intros o' [<- | Ho']; [assumption | now apply Hb].
Qed.

(** [onPacket_] on a notification, by what [std::find_if] returns. *)
Lemma onPacket_notification (st : Impl) (N : Z) :
  onPacket_ (PacketNotification {| notification_id := N |}) st
  = match find_if (fun op => id op =? N) (sendOperations_ st) with
    | Some (before, op, after) =>
        let st' := {| error_ := error_ st; id_ := id_ st;
                      sendOperations_ := before ++ after |} in
        (Returned tt, st',
         [(EvSendCallback (callback op) kSuccess, st');
          (EvConnectionRead, st')])
    | None => (Thrown "Expected send operation to exist.", st, [])
    end.
Proof.
  unfold onPacket_, onNotification_. simpl.
  cbv [bind get]. 
  destruct (find_if (fun op => id op =? N) (sendOperations_ st))
    as [[[before op] after] |]; reflexivity.
Qed.

Lemma deferring_failed (e : Error) (fn : M unit) (s : Impl) :
  error_ s <> kSuccess -> deferringEntryPoint e fn s = (Returned tt, s, []).
Proof.
  intros Hs. apply isError_true in Hs. unfold deferringEntryPoint.
  rewrite bind_get_run. now rewrite Hs.
Qed.

Lemma deferring_error (e : Error) (fn : M unit) (s : Impl) :
  error_ s = kSuccess -> e <> kSuccess ->
  let s' := {| error_ := e; id_ := id_ s; sendOperations_ := [] |} in
  deferringEntryPoint e fn s
  = (Returned tt, s',
     map (fun op => (EvSendCallback (callback op) e, s')) (sendOperations_ s)
     ++ [(EvConnectionClose, s')]).
Proof.
  intros Hs He. apply isError_true in He. unfold deferringEntryPoint.
  rewrite bind_get_run. rewrite Hs, He. simpl. apply fail_with_spec.
Qed.

Lemma deferring_ok (fn : M unit) (s : Impl) :
  error_ s = kSuccess -> deferringEntryPoint kSuccess fn s = fn s.
Proof.
  intros Hs. unfold deferringEntryPoint. rewrite bind_get_run.
  now rewrite Hs.
Qed.

Lemma recvCopyDone_spec (st : Impl) (id : Z) (callback : TRecvCallback) :
  recvCopyDone id callback st
  = (Returned tt, st,
     [(EvConnectionWrite (PacketNotification {| notification_id := id |}), st);
      (EvRecvCallback callback (error_ st), st)]).
Proof. reflexivity. Qed.

Lemma copyDone_quiet (st : Impl) (e : Error) (id : Z)
    (callback : TRecvCallback) :
  error_ st <> kSuccess \/ e = kSuccess ->
  runTask (TaskCopyDone e id callback) st
  = (Returned tt, st,
     [(EvConnectionWrite (PacketNotification {| notification_id := id |}), st);
      (EvRecvCallback callback (error_ st), st)]).
Proof.
  intros Hcase.
  assert (Hguard : negb (isError (error_ st)) && isError e = false).
  { destruct Hcase as [Hst | ->].
    - apply isError_true in Hst. now rewrite Hst.
    - apply andb_false_r. }
  cbv [runTask deferringTolerantEntryPoint recvCopyDone bind get put call
       ret set_error].
  now rewrite Hguard.
Qed.

Lemma copyDone_first_error (st : Impl) (e : Error) (id : Z)
    (callback : TRecvCallback) :
  error_ st = kSuccess -> e <> kSuccess ->
  let st' := {| error_ := e; id_ := id_ st; sendOperations_ := [] |} in
  runTask (TaskCopyDone e id callback) st
  = (Returned tt, st',
     map (fun op => (EvSendCallback (Channel.callback op) e, st'))
       (sendOperations_ st)
     ++ [(EvConnectionClose, st');
         (EvConnectionWrite (PacketNotification {| notification_id := id |}),
          st');
         (EvRecvCallback callback e, st')]).
Proof.
  intros Hst He. apply isError_true in He.
  cbv [runTask deferringTolerantEntryPoint recvCopyDone bind get put call
       ret set_error].
  rewrite Hst, He. simpl. rewrite handleError_spec. simpl.
  now rewrite <- app_assoc.
Qed.

Lemma sendFromLoop_active (st : Impl) (ptr length : Z)
    (descriptorCallback : TDescriptorCallback) (callback : TSendCallback) :
  error_ st = kSuccess ->
  let st' := {| error_ := kSuccess; id_ := to_uint64 (id_ st + 1);
                sendOperations_ :=
                  sendOperations_ st
                  ++ [{| id := id_ st; callback := callback |}] |} in
  sendFromLoop_ ptr length descriptorCallback callback st
  = (Returned tt, st',
     [(EvDescriptorCallback descriptorCallback kSuccess
         (saveDescriptor
            {| operation_id := id_ st; pid := getpid; ptr := ptr |}),
       st')]).
Proof.
  intros He. unfold sendFromLoop_. unfold_m. rewrite He. simpl.
  now rewrite He.
Qed.

Lemma sendFromLoop_failed (st : Impl) (ptr length : Z)
    (descriptorCallback : TDescriptorCallback) (callback : TSendCallback) :
  error_ st <> kSuccess ->
  sendFromLoop_ ptr length descriptorCallback callback st
  = (Thrown "TP_THROW_ASSERT", st, []).
Proof.
  intros He. apply isError_true in He. unfold sendFromLoop_. unfold_m.
  now rewrite He.
Qed.

(** ** Runs of the loop *)

Lemma for_each_app {A : Type} (f : A -> M unit) (l1 l2 : list A) (s : Impl) :
  for_each f (l1 ++ l2) s = (for_each f l1 ;;; for_each f l2) s.
Proof.
  revert s. induction l1 as [| x l1 IH]; intros s; simpl.
  - unfold bind, ret. destruct (for_each f l2 s) as [[r s'] l].
    reflexivity.
  - cbv [bind]. destruct (f x s) as [[[u | msg] s1] l1']; [| reflexivity].
    rewrite IH. cbv [bind].
    destruct (for_each f l1 s1) as [[[u' | msg'] s2] l2']; [| reflexivity].
    destruct (for_each f l2 s2) as [[r s3] l3'].
    now rewrite app_assoc.
Qed.

Lemma runLoop_snoc (tasks : list Task) (task : Task) (s : Impl) :
  runLoop (tasks ++ [task]) s
  = match runLoop tasks s with
    | (Returned _, s', l) =>
        let '(r, s'', l') := runTask task s' in (r, s'', l ++ l')
    | (Thrown msg, s', l) => (Thrown msg, s', l)
    end.
Proof.
  unfold runLoop. rewrite for_each_app. unfold bind at 1.
  destruct (for_each runTask tasks s) as [[[u | msg] s'] l]; [| reflexivity].
  simpl. unfold bind, ret.
  destruct (runTask task s') as [[[u' | msg'] s''] l']; [| reflexivity].
  destruct u'. now rewrite app_nil_r.
Qed.

Lemma descriptorsIn_app (l l' : list Entry) :
  descriptorsIn (l ++ l') = descriptorsIn l ++ descriptorsIn l'.
Proof. apply flat_map_app. Qed.

Lemma descriptorsIn_send_callbacks (ops : list SendOperation) (e : Error)
    (s : Impl) :
  descriptorsIn (map (fun op => (EvSendCallback (callback op) e, s)) ops) = [].
Proof. induction ops as [| op ops IH]; [reflexivity | exact IH]. Qed.

Lemma in_descriptorsIn (l : list Entry) (cb : TDescriptorCallback)
    (e : Error) (d : TDescriptor) (snap : Impl) :
  In (EvDescriptorCallback cb e d, snap) l -> In d (descriptorsIn l).
Proof.
  intros Hin. unfold descriptorsIn. apply in_flat_map.
  exists (EvDescriptorCallback cb e d, snap). split; [exact Hin | now left].
Qed.

Lemma quiet_same (task : Task) (s : Impl) (l : list Entry) :
  descriptorsIn l = [] -> quietStep task s s l.
Proof. intros Hl. unfold quietStep. repeat split; auto. Qed.

Lemma quiet_failed (task : Task) (s : Impl) (e : Error) (l : list Entry) :
  e <> kSuccess -> descriptorsIn l = [] ->
  quietStep task s {| error_ := e; id_ := id_ s; sendOperations_ := [] |} l.
Proof.
  intros He Hl. unfold quietStep. simpl.
  repeat split; try congruence; try contradiction. intros _. constructor.
Qed.

Lemma quiet_removed (s : Impl) (N : Z)
    (before : list SendOperation) (op : SendOperation)
    (after : list SendOperation) (l : list Entry) :
  sendOperations_ s = before ++ op :: after -> id op = N ->
  descriptorsIn l = [] ->
  quietStep
    (TaskReadPacketDone kSuccess (PacketNotification {| notification_id := N |}))
    s {| error_ := error_ s; id_ := id_ s; sendOperations_ := before ++ after |}
    l.
Proof.
  intros Hops Hid Hl. unfold quietStep. simpl. rewrite Hops.
  repeat split; auto.
  - intros o Ho. apply in_app_or in Ho. apply in_or_app.
    destruct Ho; [now left | right; now right].
  - rewrite !map_app. simpl. intros Hnd. now apply NoDup_remove_1 in Hnd.
  - intros _ o Ho Hnot. apply in_app_or in Ho. apply in_or_app.
    destruct Ho as [Ho | [<- | Ho]]; [now left | | now right].
    exfalso. apply Hnot. now left.
Qed.

Lemma other_task_effect (task : Task) (s s' : Impl) (l : list Entry) :
  isSend task = false -> runTask task s = (Returned tt, s', l) ->
  quietStep task s s' l.
Proof.
  intros Hsend Hrun.
  destruct task as [| ptr len dcb cb | descriptor ptr len cb | | e packet
                   | e | e i cb]; simpl in Hsend; try discriminate.
  - injection Hrun as <- <-. now apply quiet_same.
  - injection Hrun as <- <-. now apply quiet_same.
  - simpl in Hrun. destruct (error_cases s) as [He | He].
    + rewrite closeFromLoop_active in Hrun by exact He.
      injection Hrun as <- <-. apply quiet_failed; [discriminate |].
      rewrite descriptorsIn_app. now rewrite descriptorsIn_send_callbacks.
    + rewrite closeFromLoop_failed in Hrun by exact He.
      injection Hrun as <- <-. now apply quiet_same.
  - simpl in Hrun. destruct (error_cases s) as [Hs | Hs].
    + destruct e; try (rewrite deferring_error in Hrun by congruence;
        injection Hrun as <- <-; apply quiet_failed; [discriminate |];
        rewrite descriptorsIn_app; now rewrite descriptorsIn_send_callbacks).
      rewrite deferring_ok in Hrun by exact Hs.
      destruct packet as [[N] |]; [| discriminate].
      rewrite onPacket_notification in Hrun.
      destruct (find_if (fun op => id op =? N) (sendOperations_ s))
        as [[[before op] after] |] eqn:Hfind; [| discriminate].
      apply find_if_some in Hfind. destruct Hfind as (Hops & Hid & _).
      apply Z.eqb_eq in Hid. injection Hrun as <- <-.
      now apply (quiet_removed s before op after).
    + rewrite deferring_failed in Hrun by exact Hs.
      injection Hrun as <- <-. now apply quiet_same.
  - simpl in Hrun. destruct (error_cases s) as [Hs | Hs].
    + destruct e; try (rewrite deferring_error in Hrun by congruence;
        injection Hrun as <- <-; apply quiet_failed; [discriminate |];
        rewrite descriptorsIn_app; now rewrite descriptorsIn_send_callbacks).
      rewrite deferring_ok in Hrun by exact Hs.
      injection Hrun as <- <-. now apply quiet_same.
    + rewrite deferring_failed in Hrun by exact Hs.
      injection Hrun as <- <-. now apply quiet_same.
  - destruct (error_cases s) as [Hs | Hs].
    + destruct e; try (rewrite copyDone_first_error in Hrun by congruence;
        injection Hrun as <- <-; apply quiet_failed; [discriminate |];
        rewrite descriptorsIn_app; now rewrite descriptorsIn_send_callbacks).
      rewrite copyDone_quiet in Hrun by now right.
      injection Hrun as <- <-. now apply quiet_same.
    + rewrite copyDone_quiet in Hrun by now left.
      injection Hrun as <- <-. now apply quiet_same.
Qed.

Lemma sendsIn_app (l l' : list Task) :
  sendsIn (l ++ l') = (sendsIn l + sendsIn l')%nat.
Proof. unfold sendsIn. now rewrite filter_app, length_app. Qed.

Lemma sendPtrs_app (l l' : list Task) :
  sendPtrs (l ++ l') = sendPtrs l ++ sendPtrs l'.
Proof. apply flat_map_app. Qed.

Lemma notifiedIn_app (l l' : list Task) :
  notifiedIn (l ++ l') = notifiedIn l ++ notifiedIn l'.
Proof. apply flat_map_app. Qed.

Lemma sendPtrs_length (tasks : list Task) :
  List.length (sendPtrs tasks) = sendsIn tasks.
Proof.
  unfold sendsIn. induction tasks as [| task tasks IH]; [reflexivity |].
  destruct task; simpl; congruence.
Qed.

Lemma descriptorsFrom_snoc (k : Z) (ptrs : list Z) (p : Z) :
  descriptorsFrom k (ptrs ++ [p])
  = descriptorsFrom k ptrs
    ++ [{| operation_id := k + Z.of_nat (List.length ptrs); pid := getpid;
           ptr := p |}].
Proof.
  revert k. induction ptrs as [| q ptrs IH]; intros k; simpl.
  - now rewrite Z.add_0_r.
  - rewrite IH.
    replace (k + 1 + Z.of_nat (List.length ptrs))
      with (k + Z.of_nat (S (List.length ptrs))) by lia.
    reflexivity.
Qed.

Lemma fresh_Reached : Reached [] fresh [].
Proof.
  constructor; simpl; intros; try contradiction; try reflexivity;
    try lia; constructor.
Qed.

Lemma send_Reached (tasks : list Task) (s : Impl) (l : list Entry)
    (ptr length : Z) (dcb : TDescriptorCallback) (cb : TSendCallback) :
  Reached tasks s l -> error_ s = kSuccess ->
  Z.of_nat (sendsIn tasks) + 1 < UINT64_MODULUS ->
  let s' := {| error_ := kSuccess; id_ := to_uint64 (id_ s + 1);
               sendOperations_ :=
                 sendOperations_ s ++ [{| id := id_ s; callback := cb |}] |} in
  Reached (tasks ++ [TaskSend ptr length dcb cb]) s'
    (l ++ [(EvDescriptorCallback dcb kSuccess
              (saveDescriptor
                 {| operation_id := id_ s; pid := getpid; ptr := ptr |}),
            s')]).
Proof.
  intros R He Hroom. cbv zeta.
  pose proof (reached_id R) as Hid.
  assert (Hnext : to_uint64 (id_ s + 1) = id_ s + 1).
  { unfold to_uint64. apply Z.mod_small. unfold UINT64_MODULUS in *. lia. }
  constructor; simpl.
  - rewrite Hnext, Hid, sendsIn_app.
    change (sendsIn [TaskSend ptr length dcb cb]) with 1%nat. lia.
  - rewrite descriptorsIn_app, (reached_descriptors R), sendPtrs_app. simpl.
    rewrite descriptorsFrom_snoc, map_app, sendPtrs_length. simpl.
    now rewrite Hid.
  - rewrite Hnext. intros op Hop. apply in_app_or in Hop.
    destruct Hop as [Hop | [<- | []]].
    + pose proof (reached_bound R op Hop). lia.
    + simpl. lia.
  - rewrite map_app. simpl. apply NoDup_app.
    + apply (reached_nodup R).
    + constructor; [intros [] | constructor].
    + intros i Hi [<- | []]. apply in_map_iff in Hi.
      destruct Hi as (op & Hop & Hin).
      pose proof (reached_bound R op Hin). lia.
  - rewrite Hnext. intros _ i Hi Hnot.
    rewrite notifiedIn_app in Hnot. simpl in Hnot. rewrite app_nil_r in Hnot.
    destruct (Z.eq_dec i (id_ s)) as [-> | Hne].
    + eexists. split; [apply in_or_app; right; now left | reflexivity].
    + destruct (reached_in_flight R He (i := i)) as (op & Hop & Hopid);
        [lia | exact Hnot |].
      exists op. split; [apply in_or_app; now left | exact Hopid].
  - intros cb' e d snap Hin. apply in_app_or in Hin.
    destruct Hin as [Hin | [[= <- <- <- <-] | []]].
    + now apply (reached_registered R) in Hin.
    + split; [reflexivity |]. eexists. split; [reflexivity |].
      split; [reflexivity |]. eexists.
      split; [simpl; apply in_or_app; right; now left | reflexivity].
Qed.

Lemma quiet_Reached (tasks : list Task) (task : Task) (s s' : Impl)
    (l l' : list Entry) :
  Reached tasks s l -> isSend task = false -> quietStep task s s' l' ->
  Reached (tasks ++ [task]) s' (l ++ l').
Proof.
  intros R Hsend (Hid & Hnone & Herr & Hsub & Hnodup & Hkept).
  assert (Hsends : sendsIn [task] = 0%nat).
  { unfold sendsIn. simpl. now rewrite Hsend. }
  assert (Hptrs : sendPtrs [task] = []).
  { destruct task; simpl in *; congruence. }
  constructor.
  - rewrite Hid, sendsIn_app, Hsends, Nat.add_0_r. apply (reached_id R).
  - rewrite descriptorsIn_app, Hnone, sendPtrs_app, Hptrs, !app_nil_r.
    apply (reached_descriptors R).
  - intros op Hop. rewrite Hid. apply (reached_bound R), Hsub, Hop.
  - apply Hnodup, (reached_nodup R).
  - intros He i Hi Hnot. rewrite Hid in Hi. rewrite notifiedIn_app in Hnot.
    destruct (reached_in_flight R (Herr He) (i := i)) as (op & Hop & Hopid);
      [exact Hi | intros Hin; apply Hnot, in_or_app; now left |].
    exists op. split; [| exact Hopid].
    apply (Hkept He op Hop). rewrite Hopid. intros Hin.
    apply Hnot, in_or_app. now right.
  - intros cb e d snap Hin. apply in_app_or in Hin. destruct Hin as [Hin | Hin].
    + now apply (reached_registered R) in Hin.
    + apply in_descriptorsIn in Hin. rewrite Hnone in Hin. contradiction.
Qed.

Lemma run_Reached (tasks : list Task) :
  forall st log,
  runLoop tasks fresh = (Returned tt, st, log) ->
  Z.of_nat (sendsIn tasks) < UINT64_MODULUS ->
  Reached tasks st log.
Proof.
  induction tasks as [| task tasks IH] using rev_ind; intros st log Hrun Hroom.
  - injection Hrun as <- <-. apply fresh_Reached.
  - rewrite runLoop_snoc in Hrun.
    destruct (runLoop tasks fresh) as [[[[] | msg] s1] l1]; [| discriminate].
    destruct (runTask task s1) as [[r s2] l2] eqn:Htask.
    injection Hrun as -> <- <-.
    rewrite sendsIn_app in Hroom.
    assert (R : Reached tasks s1 l1) by (apply IH; [reflexivity | lia]).
    destruct (isSend task) eqn:Hsend.
    + destruct task as [| ptr len dcb cb | | | | |]; try discriminate.
      simpl in Htask. destruct (error_cases s1) as [He | He].
      * rewrite sendFromLoop_active in Htask by exact He.
        injection Htask as <- <-. apply send_Reached; [exact R | exact He |].
        change (sendsIn [TaskSend ptr len dcb cb]) with 1%nat in Hroom. lia.
      * rewrite sendFromLoop_failed in Htask by exact He. discriminate.
    + apply (quiet_Reached R Hsend). now apply other_task_effect.
Qed.

Lemma find_if_exists (p : SendOperation -> bool) (l : list SendOperation) :
  (exists op, In op l /\ p op = true) ->
  exists before op after, find_if p l = Some (before, op, after).
Proof.
  intros (op & Hin & Hp). induction l as [| o l IH]; [contradiction |].
  simpl. destruct (p o) eqn:Hpo; [now eexists _, _, _ |].
  destruct Hin as [-> | Hin]; [congruence |].
  destruct (IH Hin) as (before & op' & after & ->). now eexists _, _, _.
Qed.

(** Once the error is set no task changes the channel. *)
Lemma failed_is_terminal (task : Task) (s s' : Impl) (r : Outcome unit)
    (l : list Entry) :
  error_ s <> kSuccess -> runTask task s = (r, s', l) -> s' = s.
Proof.
  intros He Hrun.
  destruct task as [| ptr len dcb cb | descriptor ptr len cb | | e packet
                   | e | e i cb]; simpl in Hrun.
  - now injection Hrun as _ <- _.
  - rewrite sendFromLoop_failed in Hrun by exact He.
    now injection Hrun as _ <- _.
  - now injection Hrun as _ <- _.
  - rewrite closeFromLoop_failed in Hrun by exact He.
    now injection Hrun as _ <- _.
  - rewrite deferring_failed in Hrun by exact He.
    now injection Hrun as _ <- _.
  - rewrite deferring_failed in Hrun by exact He.
    now injection Hrun as _ <- _.
  - change (runTask (TaskCopyDone e i cb) s = (r, s', l)) in Hrun.
    rewrite copyDone_quiet in Hrun by now left.
    now injection Hrun as _ <- _.
Qed.

Lemma failed_stays_failed (tasks : list Task) (s s' : Impl)
    (r : Outcome unit) (l : list Entry) :
  error_ s <> kSuccess -> runLoop tasks s = (r, s', l) -> s' = s.
Proof.
  intros He. revert r s' l.
  induction tasks as [| task tasks IH] using rev_ind; intros r s' l Hrun.
  - now injection Hrun as _ <- _.
  - rewrite runLoop_snoc in Hrun.
    destruct (runLoop tasks s) as [[[[] | msg] s1] l1] eqn:Hfirst.
    + assert (s1 = s) by now apply (IH _ _ _ eq_refl). subst s1.
      destruct (runTask task s) as [[r2 s2] l2] eqn:Htask.
      injection Hrun as _ <- _.
      eapply failed_is_terminal; [exact He | exact Htask].
    + injection Hrun as _ <- _. now apply (IH _ _ _ eq_refl).
Qed.

(** ** Properties of the channel *)

(** C2.  [closeFromLoop_] on a channel with no error sets [error_] to
    [ChannelClosedError] and runs [handleError_]: the in-flight list is
    emptied, then the callback of each operation that was in it is called
    once, in order, with [ChannelClosedError], then the connection is closed;
    nothing else is called and [id_] is kept.  On a channel whose error is
    set it does nothing.  Whatever the channel, after one [closeFromLoop_] the
    error is set and a second [closeFromLoop_] does nothing; and once the
    error is set, no task of the loop changes it, or anything else of the
    channel, again. *)
Theorem close_fails_sends_in_flight (st : Impl) :
  (error_ st = kSuccess ->
   let st' := {| error_ := ChannelClosedError; id_ := id_ st;
                 sendOperations_ := [] |} in
   closeFromLoop_ st
   = (Returned tt, st',
      map (fun op => (EvSendCallback (callback op) ChannelClosedError, st'))
        (sendOperations_ st)
      ++ [(EvConnectionClose, st')])) /\
  (error_ st <> kSuccess -> closeFromLoop_ st = (Returned tt, st, [])) /\
  (forall r st' l, closeFromLoop_ st = (r, st', l) ->
     error_ st' <> kSuccess /\ closeFromLoop_ st' = (Returned tt, st', [])) /\
  (error_ st <> kSuccess ->
   forall tasks r st' l, runLoop tasks st = (r, st', l) -> st' = st).
Proof.
  split; [apply closeFromLoop_active | split; [apply closeFromLoop_failed |]].
  split.
  - intros r st' l Hclose.
    assert (He' : error_ st' <> kSuccess).
    { destruct (error_cases st) as [He | He].
      - rewrite closeFromLoop_active in Hclose by exact He.
        injection Hclose as _ <- _. discriminate.
      - rewrite closeFromLoop_failed in Hclose by exact He.
        injection Hclose as _ <- _. exact He. }
    split; [exact He' | now apply closeFromLoop_failed].
  - intros He tasks r st' l. now apply failed_stays_failed.
Qed.

(** C3.  When a notification for operation id [N] is handed to [onPacket_]:
    if some in-flight operation has id [N], the first such operation,
    wherever it stands in the list, is removed from the list, then its
    callback is called once with success, then a transport read is armed
    again, and nothing else happens; if none has id [N], the call throws,
    with the channel unchanged and nothing called.  On a channel with no
    error, a packet read without error is handed to [onPacket_]. *)
Theorem notification_completes_matching_send (st : Impl) (N : Z) :
  (forall before op after,
     sendOperations_ st = before ++ op :: after ->
     id op = N -> (forall o, In o before -> id o <> N) ->
     let st' := {| error_ := error_ st; id_ := id_ st;
                   sendOperations_ := before ++ after |} in
     onPacket_ (PacketNotification {| notification_id := N |}) st
     = (Returned tt, st',
        [(EvSendCallback (callback op) kSuccess, st');
         (EvConnectionRead, st')])) /\
  ((forall o, In o (sendOperations_ st) -> id o <> N) ->
   exists msg,
     onPacket_ (PacketNotification {| notification_id := N |}) st
     = (Thrown msg, st, [])) /\
  (error_ st = kSuccess ->
   forall packet,
     runTask (TaskReadPacketDone kSuccess packet) st = onPacket_ packet st).
Proof.
  split; [| split].
  - intros before op after Hops Hid Hbefore. cbv zeta.
    rewrite onPacket_notification, Hops, find_if_found; [reflexivity | |].
    + intros o Ho. apply Z.eqb_neq. now apply Hbefore.
    + now apply Z.eqb_eq.
  - intros Hnone. rewrite onPacket_notification, find_if_none.
    + eexists. reflexivity.
    + intros o Ho. apply Z.eqb_neq. now apply Hnone.
  - intros He packet. simpl. now apply deferring_ok.
Qed.

(** C4, as the code has it.  When the copy requested by a recv completes:
    on a channel with no error, if the copy succeeded, a notification with
    the descriptor's operation id is written to the transport and then the
    recv callback is called with success, without waiting for the write; if
    the copy failed, its error becomes the channel error, the in-flight sends
    are failed with it and the connection is closed, and then the
    notification is written all the same and the recv callback is called with
    the copy error.  On a channel whose error is already set, whatever the
    outcome of the copy, the notification is written and the recv callback is
    called with the channel error.  In every case the completion itself
    writes the notification and then calls the recv callback with
    [error_]. *)
Theorem recv_completion_notifies_then_reports_channel_error
    (st : Impl) (e : Error) (id : Z) (callback : TRecvCallback) :
  let notification :=
    EvConnectionWrite (PacketNotification {| notification_id := id |}) in
  (error_ st = kSuccess -> e = kSuccess ->
   runTask (TaskCopyDone e id callback) st
   = (Returned tt, st,
      [(notification, st); (EvRecvCallback callback kSuccess, st)])) /\
  (error_ st = kSuccess -> e <> kSuccess ->
   let st' := {| error_ := e; id_ := id_ st; sendOperations_ := [] |} in
   runTask (TaskCopyDone e id callback) st
   = (Returned tt, st',
      map (fun op => (EvSendCallback (Channel.callback op) e, st'))
        (sendOperations_ st)
      ++ [(EvConnectionClose, st'); (notification, st');
          (EvRecvCallback callback e, st')])) /\
  (error_ st <> kSuccess ->
   runTask (TaskCopyDone e id callback) st
   = (Returned tt, st,
      [(notification, st); (EvRecvCallback callback (error_ st), st)])) /\
  recvCopyDone id callback st
  = (Returned tt, st,
     [(notification, st); (EvRecvCallback callback (error_ st), st)]).
Proof.
  cbv zeta. split; [| split; [| split]].
  - intros Hst He. rewrite copyDone_quiet by now right. now rewrite Hst.
  - intros Hst He. now apply copyDone_first_error.
  - intros Hst. apply copyDone_quiet. now left.
  - apply recvCopyDone_spec.
Qed.

(** C5.  After any run of the loop on a fresh channel that did not throw and
    left no error, with [n] sends so far ([n] below [2^64]), a send takes
    id [n]: [id_] moves on to [n + 1] (modulo [2^64]), the operation
    [(n, callback)] is appended to the in-flight list, and then, within the
    same task, the descriptor callback is called with success and the
    serialized descriptor [(n, getpid(), ptr)]; nothing else is called.  The
    descriptors handed out by the run are, in order, those of ids
    [0, 1, ..., n - 1] with the pid and each send's pointer, the ids in
    flight are below [n], and the ids in flight after the send are all
    different. *)
Theorem send_takes_next_id (tasks : list Task) (st : Impl) (log : list Entry)
    (ptr length : Z) (descriptorCallback : TDescriptorCallback)
    (callback : TSendCallback) :
  runLoop tasks fresh = (Returned tt, st, log) ->
  error_ st = kSuccess ->
  Z.of_nat (sendsIn tasks) < UINT64_MODULUS ->
  let n := Z.of_nat (sendsIn tasks) in
  let st' := {| error_ := kSuccess; id_ := to_uint64 (n + 1);
                sendOperations_ :=
                  sendOperations_ st ++ [{| id := n; callback := callback |}]
             |} in
  sendFromLoop_ ptr length descriptorCallback callback st
  = (Returned tt, st',
     [(EvDescriptorCallback descriptorCallback kSuccess
         (saveDescriptor {| operation_id := n; pid := getpid; ptr := ptr |}),
       st')]) /\
  (n + 1 < UINT64_MODULUS -> id_ st' = n + 1) /\
  descriptorsIn log = map saveDescriptor (descriptorsFrom 0 (sendPtrs tasks)) /\
  (forall op, In op (sendOperations_ st) -> 0 <= id op < n) /\
  NoDup (map id (sendOperations_ st')).
Proof.
  intros Hrun He Hroom. cbv zeta.
  pose proof (run_Reached tasks Hrun Hroom) as R.
  pose proof (reached_id R) as Hid.
  split; [| split; [| split; [| split]]].
  - rewrite sendFromLoop_active by exact He. now rewrite Hid.
  - intros Hnext. simpl. unfold to_uint64. apply Z.mod_small. lia.
  - apply (reached_descriptors R).
  - intros op Hop. rewrite <- Hid. now apply (reached_bound R).
  - simpl. rewrite map_app. simpl. apply NoDup_app.
    + apply (reached_nodup R).
    + constructor; [intros [] | constructor].
    + intros i Hi [<- | []]. apply in_map_iff in Hi.
      destruct Hi as (op & Hop & Hin).
      pose proof (reached_bound R op Hin). lia.
Qed.

(** C7, on the code.  On a channel whose error is set, [sendFromLoop_]
    throws before anything else: [id_] and the in-flight list are untouched
    and nothing is called.  [recvFromLoop_] does not look at [error_]: it
    submits the copy request exactly as on an active channel and returns,
    without calling the recv callback. *)
Theorem failed_channel_send_throws_recv_copies (st : Impl) :
  error_ st <> kSuccess ->
  (forall ptr length descriptorCallback callback,
     sendFromLoop_ ptr length descriptorCallback callback st
     = (Thrown "TP_THROW_ASSERT", st, [])) /\
  (forall descriptor ptr length callback,
     recvFromLoop_ descriptor ptr length callback st
     = (Returned tt, st,
        [(EvRequestCopy (pid (loadDescriptor descriptor))
            (Channel.ptr (loadDescriptor descriptor)) ptr length
            (operation_id (loadDescriptor descriptor)) callback, st)])).
Proof.
  intros He. split.
  - intros. now apply sendFromLoop_failed.
  - intros. reflexivity.
Qed.

(** C10, as the code has it.  In any run of the loop on a fresh channel
    that did not throw (fewer than [2^64] sends): whenever a descriptor
    callback is called, the operation with the descriptor's id is in the
    in-flight list at that moment; the descriptors handed out are those of
    ids [0 .. n-1]; and for each such id not yet notified, on a channel with
    no error, the notification finds its operation, removes it and completes
    it once.  After that the id is no longer in flight, and a second
    notification with the same id throws. *)
Theorem descriptor_handed_out_after_registration
    (tasks : list Task) (st : Impl) (log : list Entry) :
  runLoop tasks fresh = (Returned tt, st, log) ->
  Z.of_nat (sendsIn tasks) < UINT64_MODULUS ->
  (forall cb e d snap,
     In (EvDescriptorCallback cb e d, snap) log ->
     exists d0, d = saveDescriptor d0 /\
     exists op, In op (sendOperations_ snap) /\ id op = operation_id d0) /\
  descriptorsIn log = map saveDescriptor (descriptorsFrom 0 (sendPtrs tasks)) /\
  (forall i,
     0 <= i < Z.of_nat (sendsIn tasks) -> ~ In i (notifiedIn tasks) ->
     error_ st = kSuccess ->
     exists before op after,
       sendOperations_ st = before ++ op :: after /\ id op = i /\
       let st' := {| error_ := error_ st; id_ := id_ st;
                     sendOperations_ := before ++ after |} in
       onPacket_ (PacketNotification {| notification_id := i |}) st
       = (Returned tt, st',
          [(EvSendCallback (callback op) kSuccess, st');
           (EvConnectionRead, st')]) /\
       exists msg,
         onPacket_ (PacketNotification {| notification_id := i |}) st'
         = (Thrown msg, st', [])).
Proof.
  intros Hrun Hroom. pose proof (run_Reached tasks Hrun Hroom) as R.
  split; [| split].
  - intros cb e d snap Hin.
    destruct (reached_registered R _ _ _ _ Hin)
      as (_ & d0 & Hd & _ & op & Hop & Hid).
    exists d0. split; [exact Hd |]. now exists op.
  - apply (reached_descriptors R).
  - intros i Hi Hnot He. rewrite <- (reached_id R) in Hi.
    destruct (reached_in_flight R He Hi Hnot) as (op0 & Hop0 & Hid0).
    destruct (find_if_exists (fun op => id op =? i) (sendOperations_ st))
      as (before & op & after & Hfind).
    { exists op0. split; [exact Hop0 | now apply Z.eqb_eq]. }
    pose proof (find_if_some _ _ Hfind) as (Hops & Hid & Hbefore).
    apply Z.eqb_eq in Hid.
    exists before, op, after. split; [exact Hops | split; [exact Hid |]].
    cbv zeta. split.
    + now rewrite onPacket_notification, Hfind.
    + rewrite onPacket_notification. simpl. rewrite find_if_none.
      * eexists. reflexivity.
      * intros o Ho. apply Z.eqb_neq. intros Heq.
        pose proof (reached_nodup R) as Hnd. rewrite Hops, map_app in Hnd.
        simpl in Hnd. apply NoDup_remove_2 in Hnd. apply Hnd.
        rewrite <- map_app, Hid, <- Heq. now apply in_map.
Qed.

(** ** Every task, case by case *)

Lemma app_cons_cons {A : Type} (l : list A) (a b c : A) :
  l ++ [a; b; c] = (l ++ [a]) ++ [b; c].
Proof. now rewrite <- app_assoc. Qed.

Lemma runTask_Effect (task : Task) (s s' : Impl) (l : list Entry) :
  runTask task s = (Returned tt, s', l) -> Effect task s s' l.
Proof.
  intros Hrun.
  destruct task as [| ptr len dcb cb | descriptor ptr len cb | | e packet
                   | e | e i cb].
  - injection Hrun as <- <-. constructor.
  - simpl in Hrun. destruct (error_cases s) as [He | He].
    + rewrite sendFromLoop_active in Hrun by exact He.
      injection Hrun as <- <-.
      exact (@effect_send s ptr len dcb cb He).
    + rewrite sendFromLoop_failed in Hrun by exact He. discriminate.
  - injection Hrun as <- <-. constructor.
  - simpl in Hrun. destruct (error_cases s) as [He | He].
    + rewrite closeFromLoop_active in Hrun by exact He.
      injection Hrun as <- <-. exact (@effect_close s He).
    + rewrite closeFromLoop_failed in Hrun by exact He.
      injection Hrun as <- <-. now constructor.
  - simpl in Hrun. destruct (error_cases s) as [Hs | Hs].
    + destruct e; try (rewrite deferring_error in Hrun by congruence;
        injection Hrun as <- <-;
        refine (@effect_read_error s _ packet Hs _); discriminate).
      rewrite deferring_ok in Hrun by exact Hs.
      destruct packet as [[N] |]; [| discriminate].
      rewrite onPacket_notification in Hrun.
      destruct (find_if (fun op => id op =? N) (sendOperations_ s))
        as [[[before op] after] |] eqn:Hfind; [| discriminate].
      injection Hrun as <- <-.
      exact (@effect_notification s N before op after Hs Hfind).
    + rewrite deferring_failed in Hrun by exact Hs.
      injection Hrun as <- <-. now constructor.
  - simpl in Hrun. destruct (error_cases s) as [Hs | Hs].
    + destruct e; try (rewrite deferring_error in Hrun by congruence;
        injection Hrun as <- <-;
        refine (@effect_write_error s _ Hs _); discriminate).
      rewrite deferring_ok in Hrun by exact Hs.
      injection Hrun as <- <-. apply effect_write_ignored. now right.
    + rewrite deferring_failed in Hrun by exact Hs.
      injection Hrun as <- <-. apply effect_write_ignored. now left.
  - destruct (error_cases s) as [Hs | Hs].
    + destruct e; try (rewrite copyDone_first_error in Hrun by congruence;
        injection Hrun as <- <-;
        rewrite app_cons_cons;
        refine (@effect_copy_error s _ i cb Hs _); discriminate).
      rewrite copyDone_quiet in Hrun by now right.
      injection Hrun as <- <-. apply effect_copy_quiet. now right.
    + rewrite copyDone_quiet in Hrun by now left.
      injection Hrun as <- <-. apply effect_copy_quiet. now left.
Qed.

(** Induction on a run that did not throw: one more task at the end. *)
Lemma run_returned_ind (P : list Task -> Impl -> list Entry -> Prop) :
  P [] fresh [] ->
  (forall tasks s l task s' l',
   runLoop tasks fresh = (Returned tt, s, l) -> P tasks s l ->
   Effect task s s' l' -> P (tasks ++ [task]) s' (l ++ l')) ->
  forall tasks st log,
  runLoop tasks fresh = (Returned tt, st, log) -> P tasks st log.
Proof.
  intros Hbase Hstep tasks.
  induction tasks as [| task tasks IH] using rev_ind; intros st log Hrun.
  - injection Hrun as <- <-. exact Hbase.
  - rewrite runLoop_snoc in Hrun.
    destruct (runLoop tasks fresh) as [[[[] | msg] s1] l1] eqn:Hfirst;
      [| discriminate].
    destruct (runTask task s1) as [[r s2] l2] eqn:Htask.
    injection Hrun as -> <- <-.
    apply (Hstep tasks s1 l1 task s2 l2 Hfirst);
      [now apply IH | now apply runTask_Effect].
Qed.

Lemma sendCallbacksIn_app (l l' : list Entry) :
  sendCallbacksIn (l ++ l') = sendCallbacksIn l ++ sendCallbacksIn l'.
Proof. apply flat_map_app. Qed.

Lemma descriptorCallbacksIn_app (l l' : list Entry) :
  descriptorCallbacksIn (l ++ l')
  = descriptorCallbacksIn l ++ descriptorCallbacksIn l'.
Proof. apply flat_map_app. Qed.

Lemma sendCallbacksOf_app (l l' : list Task) :
  sendCallbacksOf (l ++ l') = sendCallbacksOf l ++ sendCallbacksOf l'.
Proof. apply flat_map_app. Qed.

Lemma descriptorCallbacksOf_app (l l' : list Task) :
  descriptorCallbacksOf (l ++ l')
  = descriptorCallbacksOf l ++ descriptorCallbacksOf l'.
Proof. apply flat_map_app. Qed.

Lemma closesIn_app (l l' : list Entry) :
  closesIn (l ++ l') = (closesIn l + closesIn l')%nat.
Proof. unfold closesIn. now rewrite filter_app, length_app. Qed.

Lemma readsIn_app (l l' : list Entry) :
  readsIn (l ++ l') = (readsIn l + readsIn l')%nat.
Proof. unfold readsIn. now rewrite filter_app, length_app. Qed.

Lemma initsIn_app (l l' : list Task) :
  initsIn (l ++ l') = (initsIn l + initsIn l')%nat.
Proof. unfold initsIn. now rewrite filter_app, length_app. Qed.

Lemma readsDoneIn_app (l l' : list Task) :
  readsDoneIn (l ++ l') = (readsDoneIn l + readsDoneIn l')%nat.
Proof. unfold readsDoneIn. now rewrite filter_app, length_app. Qed.

(** What the log of a first error contains. *)
Lemma failureLog_calls (e : Error) (s : Impl) :
  sendCallbacksIn (failureLog e s) = map callback (sendOperations_ s) /\
  descriptorCallbacksIn (failureLog e s) = [] /\
  descriptorsIn (failureLog e s) = [] /\
  closesIn (failureLog e s) = 1%nat /\
  readsIn (failureLog e s) = 0%nat.
Proof.
  unfold failureLog. generalize (failedWith e s) as s'. intros s'.
  induction (sendOperations_ s) as [| op ops IH]; [now repeat split |].
  destruct IH as (IH1 & IH2 & IH3 & IH4 & IH5).
  repeat split; simpl; try assumption. now f_equal.
Qed.

Lemma failureLog_errors (e : Error) (s : Impl) (cb : TSendCallback)
    (e' : Error) (snap : Impl) :
  In (EvSendCallback cb e', snap) (failureLog e s) -> e' = e.
Proof.
  unfold failureLog. intros Hin. apply in_app_or in Hin.
  destruct Hin as [Hin | [Hin | []]]; [| discriminate].
  apply in_map_iff in Hin. destruct Hin as (op & Hop & _). congruence.
Qed.

(** ** Accounting over a run *)

(** What a run keeps true of the send callbacks. *)
Lemma callbacks_step (tasks : list Task) (s : Impl) (l : list Entry)
    (task : Task) (s' : Impl) (l' : list Entry) :
  Permutation (sendCallbacksIn l ++ map callback (sendOperations_ s))
    (sendCallbacksOf tasks) ->
  Effect task s s' l' ->
  Permutation
    (sendCallbacksIn (l ++ l') ++ map callback (sendOperations_ s'))
    (sendCallbacksOf (tasks ++ [task])).
Proof.
  intros IH Heffect. rewrite sendCallbacksIn_app, sendCallbacksOf_app.
  assert (Hfail : forall e,
    Permutation (sendCallbacksIn l ++ sendCallbacksIn (failureLog e s))
      (sendCallbacksOf tasks)).
  { intros e. now destruct (failureLog_calls e s) as (-> & _). }
  destruct Heffect; simpl; rewrite ?sendCallbacksIn_app; simpl;
    rewrite ?app_nil_r; try assumption; try apply Hfail.
  - rewrite map_app, app_assoc. now apply Permutation_app_tail.
  - apply find_if_some in H0. destruct H0 as (Hops & _ & _).
    rewrite Hops in IH. rewrite <- app_assoc.
    etransitivity; [| exact IH]. apply Permutation_app_head.
    rewrite !map_app. simpl. apply Permutation_middle.
Qed.

(** Once the error is set nothing is in flight. *)
Lemma failed_nothing_in_flight (tasks : list Task) (st : Impl)
    (log : list Entry) :
  runLoop tasks fresh = (Returned tt, st, log) ->
  error_ st <> kSuccess -> sendOperations_ st = [].
Proof.
  revert tasks st log.
  apply (@run_returned_ind
           (fun _ st _ => error_ st <> kSuccess -> sendOperations_ st = [])).
  - intros H. now contradiction H.
  - intros tasks s l task s' l' _ IH Heffect.
    destruct Heffect; simpl; auto; try congruence.
Qed.

(** The error a send callback is called with: none, or the error of the
    channel. *)
Lemma callback_errors (tasks : list Task) (st : Impl) (log : list Entry) :
  runLoop tasks fresh = (Returned tt, st, log) ->
  forall cb e snap,
  In (EvSendCallback cb e, snap) log -> e = kSuccess \/ e = error_ st.
Proof.
  revert tasks st log.
  apply (@run_returned_ind
           (fun _ st log => forall cb e snap,
              In (EvSendCallback cb e, snap) log ->
              e = kSuccess \/ e = error_ st)); [contradiction |].
  intros tasks s l task s' l' _ IH Heffect cb e snap Hin.
  apply in_app_or in Hin. destruct Hin as [Hin | Hin].
  - specialize (IH cb e snap Hin).
    destruct Heffect; simpl; auto; destruct IH as [-> | ->]; auto.
  - destruct Heffect; simpl in *;
      repeat match goal with
             | H : _ \/ _ |- _ => destruct H
             | H : False |- _ => contradiction
             | H : (_, _) = (_, _) |- _ => inversion H; clear H; subst
             end; auto;
      try (right; eapply failureLog_errors; eassumption).
    apply in_app_or in Hin. destruct Hin as [Hin | Hin].
    + right. eapply failureLog_errors; eassumption.
    + simpl in Hin. destruct Hin as [Hin | [Hin | []]]; discriminate.
Qed.

(** Every send is accounted for.  After any run of the loop on a fresh
    channel that did not throw, the send callbacks called so far together
    with the callbacks of the sends still in flight are, up to order, the
    callbacks that [sendFromLoop_] was given: the callback of a send is
    called at most once, and it is called or still in flight.  Once the error
    is set every one of them has been called exactly once.  The descriptor
    callbacks are called once each, in the order of the sends, and a send
    callback is called with no error or with the error of the channel. *)
Theorem every_send_callback_called_once (tasks : list Task) (st : Impl)
    (log : list Entry) :
  runLoop tasks fresh = (Returned tt, st, log) ->
  Permutation (sendCallbacksIn log ++ map callback (sendOperations_ st))
    (sendCallbacksOf tasks) /\
  (error_ st <> kSuccess ->
   Permutation (sendCallbacksIn log) (sendCallbacksOf tasks)) /\
  descriptorCallbacksIn log = descriptorCallbacksOf tasks /\
  (forall cb e snap,
   In (EvSendCallback cb e, snap) log -> e = kSuccess \/ e = error_ st).
Proof.
  intros Hrun.
  assert (Hperm :
    Permutation (sendCallbacksIn log ++ map callback (sendOperations_ st))
      (sendCallbacksOf tasks)).
  { revert tasks st log Hrun.
    apply (@run_returned_ind
             (fun tasks st log =>
                Permutation
                  (sendCallbacksIn log ++ map callback (sendOperations_ st))
                  (sendCallbacksOf tasks))); [constructor |].
    intros tasks s l task s' l' _ IH Heffect.
    now apply callbacks_step with (s := s). }
  split; [exact Hperm |]. split; [| split].
  - intros He.
    rewrite (failed_nothing_in_flight tasks Hrun He) in Hperm.
    simpl in Hperm. now rewrite app_nil_r in Hperm.
  - clear Hperm. revert tasks st log Hrun.
    apply (@run_returned_ind
             (fun tasks _ log =>
                descriptorCallbacksIn log = descriptorCallbacksOf tasks));
      [reflexivity |].
    intros tasks s l task s' l' _ IH Heffect.
    rewrite descriptorCallbacksIn_app, descriptorCallbacksOf_app, IH.
    f_equal.
    destruct Heffect; simpl; try reflexivity;
      try (now destruct (failureLog_calls e s) as (_ & -> & _));
      try (now destruct (failureLog_calls ChannelClosedError s)
             as (_ & -> & _)).
    rewrite descriptorCallbacksIn_app.
    now destruct (failureLog_calls e s) as (_ & -> & _).
  - now apply callback_errors with (tasks := tasks).
Qed.

(** A task on a channel whose error is set. *)
Lemma effect_on_failed (task : Task) (s s' : Impl) (l : list Entry) :
  Effect task s s' l -> error_ s <> kSuccess ->
  s' = s /\ closesIn l = 0%nat /\ sendCallbacksIn l = [] /\
  descriptorCallbacksIn l = [] /\
  (isInit task = false -> readsIn l = 0%nat).
Proof.
  intros Heffect He.
  destruct Heffect; try contradiction; simpl;
    repeat split; auto; discriminate.
Qed.

(** A task on a channel with no error: it leaves the channel without error
    and does not close the connection, or it is the first error. *)
Lemma effect_on_active (task : Task) (s s' : Impl) (l : list Entry) :
  Effect task s s' l -> error_ s = kSuccess ->
  (error_ s' = kSuccess /\ closesIn l = 0%nat) \/
  (exists e tail,
     e <> kSuccess /\ s' = failedWith e s /\ l = failureLog e s ++ tail /\
     closesIn tail = 0%nat /\ sendCallbacksIn tail = [] /\
     descriptorCallbacksIn tail = []).
Proof.
  intros Heffect He.
  destruct Heffect; try contradiction;
    try (left; now split);
    try (right; exists ChannelClosedError, [];
         rewrite app_nil_r; repeat split; discriminate);
    try (right; exists e, [];
         rewrite app_nil_r; now repeat split).
  right. eexists e, _. now repeat split.
Qed.

(** The connection is closed once.  After any run of the loop on a fresh
    channel that did not throw: while no error is set, [connection_->close()]
    has not been called; once the error is set it has been called exactly
    once, at the moment the error was set (the channel then already held the
    error it holds now), and since that call no send callback and no
    descriptor callback has been called. *)
Theorem connection_closed_once (tasks : list Task) (st : Impl)
    (log : list Entry) :
  runLoop tasks fresh = (Returned tt, st, log) ->
  (error_ st = kSuccess -> closesIn log = 0%nat) /\
  (error_ st <> kSuccess ->
   exists l1 snap l2,
     log = l1 ++ (EvConnectionClose, snap) :: l2 /\
     closesIn l1 = 0%nat /\ closesIn l2 = 0%nat /\
     error_ snap = error_ st /\
     sendCallbacksIn l2 = [] /\ descriptorCallbacksIn l2 = []).
Proof.
  revert tasks st log.
  apply (@run_returned_ind
           (fun _ st log =>
              (error_ st = kSuccess -> closesIn log = 0%nat) /\
              (error_ st <> kSuccess ->
               exists l1 snap l2,
                 log = l1 ++ (EvConnectionClose, snap) :: l2 /\
                 closesIn l1 = 0%nat /\ closesIn l2 = 0%nat /\
                 error_ snap = error_ st /\
                 sendCallbacksIn l2 = [] /\ descriptorCallbacksIn l2 = []))).
  - split; [reflexivity | intros H; now contradiction H].
  - intros tasks s l task s' l' _ [IHok IHfailed] Heffect.
    destruct (error_cases s) as [Hs | Hs].
    + specialize (IHok Hs).
      destruct (effect_on_active Heffect Hs)
        as [[Hs' Hl'] | (e & tail & He & -> & -> & Htail & Hcb & Hdcb)].
      * split; [intros _; rewrite closesIn_app; lia | congruence].
      * split; [intros H; now contradiction He |]. intros _.
        exists (l ++ map (fun op => (EvSendCallback (callback op) e,
                                      failedWith e s)) (sendOperations_ s)),
          (failedWith e s), tail.
        unfold failureLog. rewrite <- !app_assoc. simpl.
        repeat split; try assumption.
        rewrite closesIn_app, IHok. simpl.
        clear. induction (sendOperations_ s); [reflexivity | assumption].
    + destruct (effect_on_failed Heffect Hs)
        as (-> & Hl' & Hcb & Hdcb & _).
      split; [congruence |]. intros _.
      destruct (IHfailed Hs)
        as (l1 & snap & l2 & -> & H1 & H2 & Hsnap & Hcb2 & Hdcb2).
      exists l1, snap, (l2 ++ l'). rewrite <- app_assoc. simpl.
      rewrite closesIn_app, sendCallbacksIn_app, descriptorCallbacksIn_app,
        H2, Hl', Hcb, Hcb2, Hdcb, Hdcb2.
      now repeat split.
Qed.

(** One read per completion.  After any run of the loop on a fresh channel
    that did not throw, [connection_->read] has been called at most once per
    [initFromLoop_] and once per read completion; while no error is set it
    has been called exactly that often, so that a channel initialized once
    keeps one read outstanding. *)
Theorem one_read_per_completion (tasks : list Task) (st : Impl)
    (log : list Entry) :
  runLoop tasks fresh = (Returned tt, st, log) ->
  (readsIn log <= initsIn tasks + readsDoneIn tasks)%nat /\
  (error_ st = kSuccess ->
   readsIn log = (initsIn tasks + readsDoneIn tasks)%nat).
Proof.
  revert tasks st log.
  apply (@run_returned_ind
           (fun tasks st log =>
              (readsIn log <= initsIn tasks + readsDoneIn tasks)%nat /\
              (error_ st = kSuccess ->
               readsIn log = (initsIn tasks + readsDoneIn tasks)%nat))).
  - split; reflexivity.
  - intros tasks s l task s' l' _ [IHle IHeq] Heffect.
    rewrite readsIn_app, initsIn_app, readsDoneIn_app.
    assert (Hfail : forall e, readsIn (failureLog e s) = 0%nat)
      by (intros e; apply failureLog_calls).
    destruct Heffect; cbn [error_ failedWith registered erased];
      rewrite ?readsIn_app, ?Hfail;
      change (readsIn []) with 0%nat;
      (split; [| intros Hs'; try discriminate; try congruence;
                 try specialize (IHeq Hs'); try specialize (IHeq H)]);
      cbn; try lia.
Qed.

(** A failed channel is silent.  On a channel whose error is set, whatever
    the task and whether it returns or throws: the channel is left as it was,
    no send callback and no descriptor callback is called, the connection is
    not closed again, and no read is armed unless the task is
    [initFromLoop_]. *)
Theorem failed_channel_is_silent (task : Task) (s s' : Impl)
    (r : Outcome unit) (l : list Entry) :
  error_ s <> kSuccess -> runTask task s = (r, s', l) ->
  s' = s /\ closesIn l = 0%nat /\ sendCallbacksIn l = [] /\
  descriptorCallbacksIn l = [] /\
  (isInit task = false -> readsIn l = 0%nat).
Proof.
  intros He Hrun. destruct r as [[] | msg].
  - apply runTask_Effect in Hrun. now apply effect_on_failed.
  - destruct task as [| ptr len dcb cb | descriptor ptr len cb | | e packet
                     | e | e i cb]; simpl in Hrun.
    + discriminate.
    + rewrite sendFromLoop_failed in Hrun by exact He.
      injection Hrun as _ <- <-. now repeat split.
    + discriminate.
    + rewrite closeFromLoop_failed in Hrun by exact He. discriminate.
    + rewrite deferring_failed in Hrun by exact He. discriminate.
    + rewrite deferring_failed in Hrun by exact He. discriminate.
    + change (runTask (TaskCopyDone e i cb) s = (Thrown msg, s', l)) in Hrun.
      rewrite copyDone_quiet in Hrun by now left. discriminate.
Qed.

(** ** Notifications out of order *)

(** Erasing the operation found for one id does not disturb the search for
    another id, and the two erasures commute. *)
Lemma find_if_erase_other (N1 N2 : Z) (l : list SendOperation)
    (b1 : list SendOperation) (o1 : SendOperation) (a1 : list SendOperation)
    (b2 : list SendOperation) (o2 : SendOperation) (a2 : list SendOperation) :
  N1 <> N2 ->
  find_if (fun op => id op =? N1) l = Some (b1, o1, a1) ->
  find_if (fun op => id op =? N2) l = Some (b2, o2, a2) ->
  exists b2' a2' b1' a1',
    find_if (fun op => id op =? N2) (b1 ++ a1) = Some (b2', o2, a2') /\
    find_if (fun op => id op =? N1) (b2 ++ a2) = Some (b1', o1, a1') /\
    b2' ++ a2' = b1' ++ a1'.
Proof.
  intros Hne. revert b1 b2.
  induction l as [| o l IH]; intros b1 b2; simpl; [discriminate |].
  destruct (Z.eqb_spec (id o) N1) as [H1 | H1];
    destruct (Z.eqb_spec (id o) N2) as [H2 | H2]; try congruence.
  - intros [= <- <- <-].
    destruct (find_if (fun op => id op =? N2) l) as [[[b f] a] |] eqn:Hfind;
      [| discriminate].
    intros [= <- <- <-]. exists b, a, [], (b ++ a). simpl.
    destruct (Z.eqb_spec (id o) N1); [| contradiction]. now repeat split.
  - destruct (find_if (fun op => id op =? N1) l) as [[[b f] a] |] eqn:Hfind;
      [| discriminate].
    intros [= <- <- <-] [= <- <- <-]. exists [], (b ++ a), b, a. simpl.
    destruct (Z.eqb_spec (id o) N2); [| contradiction]. now repeat split.
  - destruct (find_if (fun op => id op =? N1) l) as [[[b f] a] |] eqn:Hf1;
      [| discriminate].
    destruct (find_if (fun op => id op =? N2) l) as [[[b' f'] a'] |] eqn:Hf2;
      [| discriminate].
    intros [= <- <- <-] [= <- <- <-].
    destruct (IH b b' eq_refl eq_refl)
      as (b2' & a2' & b1' & a1' & Hfind2 & Hfind1 & Heq).
    exists (o :: b2'), a2', (o :: b1'), a1'. simpl.
    destruct (Z.eqb_spec (id o) N1); [contradiction |].
    destruct (Z.eqb_spec (id o) N2); [contradiction |].
    rewrite Hfind1, Hfind2. repeat split. now f_equal.
Qed.

(** Completions may arrive in any order.  On a channel with no error that
    has sends in flight under two different ids, the two notifications read
    in either order leave the same channel, and the same two send callbacks
    have been called with no error, each in the order of the
    notifications. *)
Theorem notifications_commute (st : Impl) (N1 N2 : Z) :
  error_ st = kSuccess -> N1 <> N2 ->
  (exists op, In op (sendOperations_ st) /\ id op = N1) ->
  (exists op, In op (sendOperations_ st) /\ id op = N2) ->
  let notification N :=
    TaskReadPacketDone kSuccess
      (PacketNotification {| notification_id := N |}) in
  exists st' l12 l21 cb1 cb2,
    runLoop [notification N1; notification N2] st = (Returned tt, st', l12) /\
    runLoop [notification N2; notification N1] st = (Returned tt, st', l21) /\
    error_ st' = kSuccess /\ id_ st' = id_ st /\
    events l12 = [EvSendCallback cb1 kSuccess; EvConnectionRead;
                  EvSendCallback cb2 kSuccess; EvConnectionRead] /\
    events l21 = [EvSendCallback cb2 kSuccess; EvConnectionRead;
                  EvSendCallback cb1 kSuccess; EvConnectionRead].
Proof.
  intros He Hne (op1 & Hin1 & Hid1) (op2 & Hin2 & Hid2) notification.
  destruct (@find_if_exists (fun op => id op =? N1) (sendOperations_ st))
    as (b1 & o1 & a1 & Hf1).
  { exists op1. split; [exact Hin1 | now apply Z.eqb_eq]. }
  destruct (@find_if_exists (fun op => id op =? N2) (sendOperations_ st))
    as (b2 & o2 & a2 & Hf2).
  { exists op2. split; [exact Hin2 | now apply Z.eqb_eq]. }
  destruct (find_if_erase_other _ Hne Hf1 Hf2)
    as (b2' & a2' & b1' & a1' & Hf2' & Hf1' & Heq).
  exists {| error_ := kSuccess; id_ := id_ st;
            sendOperations_ := b2' ++ a2' |}.
  do 2 eexists. exists (callback o1), (callback o2).
  unfold runLoop, notification. cbn [for_each runTask].
  cbv [bind ret]. rewrite !deferring_ok by exact He.
  rewrite !onPacket_notification, Hf1, Hf2. cbv beta iota zeta.
  rewrite !deferring_ok by exact He.
  rewrite !onPacket_notification. cbn [sendOperations_ error_ id_].
  rewrite Hf1', Hf2', He, <- Heq. cbv beta iota zeta.
  repeat split.
Qed.

(** ** A send and its completion *)

(** A send followed by its notification.  After any run of the loop on a
    fresh channel that did not throw and left no error, with fewer than 2^64
    sends: a send followed by the notification for the id it took does not
    throw, calls the descriptor callback, then the send callback with no
    error, then re-arms the read, and leaves in flight exactly the sends that
    were in flight before. *)
Theorem send_then_notification (tasks : list Task) (st : Impl)
    (log : list Entry) (ptr length : Z) (dcb : TDescriptorCallback)
    (cb : TSendCallback) :
  runLoop tasks fresh = (Returned tt, st, log) ->
  Z.of_nat (sendsIn tasks) < UINT64_MODULUS ->
  error_ st = kSuccess ->
  exists l,
    runLoop
      [TaskSend ptr length dcb cb;
       TaskReadPacketDone kSuccess
         (PacketNotification {| notification_id := id_ st |})] st
    = (Returned tt,
       {| error_ := kSuccess; id_ := to_uint64 (id_ st + 1);
          sendOperations_ := sendOperations_ st |}, l) /\
    events l
    = [EvDescriptorCallback dcb kSuccess
         (saveDescriptor
            {| operation_id := id_ st; pid := getpid; ptr := ptr |});
       EvSendCallback cb kSuccess;
       EvConnectionRead].
Proof.
  intros Hrun Hroom He.
  pose proof (run_Reached tasks Hrun Hroom) as R.
  assert (Hfind :
    find_if (fun op => id op =? id_ st)
      (sendOperations_ st ++ [{| id := id_ st; callback := cb |}])
    = Some (sendOperations_ st, {| id := id_ st; callback := cb |}, [])).
  { apply find_if_found.
    - intros o Ho. apply (reached_bound R) in Ho. apply Z.eqb_neq. lia.
    - apply Z.eqb_refl. }
  eexists. unfold runLoop. cbn [for_each runTask]. cbv [bind ret].
  rewrite sendFromLoop_active by exact He. cbv beta iota zeta.
  rewrite deferring_ok by reflexivity.
  rewrite onPacket_notification. cbn [sendOperations_ error_ id_].
  rewrite Hfind. cbv beta iota zeta. rewrite app_nil_r.
  split; reflexivity.
Qed.

(** ** Tasks that throw *)

(** When a task throws.  A task of the loop throws in two cases only: a send
    on a channel whose error is set; and, on a channel with no error, a read
    that completed without error with a packet that is not a notification
    for a send in flight.  A task that throws has done nothing before: the
    channel is as it was, nothing was called, and in the second case no read
    is armed again. *)
Theorem task_throws_exactly_when (task : Task) (s : Impl) :
  ((exists msg s' l, runTask task s = (Thrown msg, s', l)) <->
   (isSend task = true /\ error_ s <> kSuccess) \/
   (error_ s = kSuccess /\
    exists packet,
      task = TaskReadPacketDone kSuccess packet /\
      match packet with
      | PacketNotification n =>
          forall op, In op (sendOperations_ s) -> id op <> notification_id n
      | PacketNotSet => True
      end)) /\
  (forall msg s' l, runTask task s = (Thrown msg, s', l) -> s' = s /\ l = []).
Proof.
  assert (Hreturns : forall (r : Outcome unit * Impl * list Entry) s1 l1,
    r = (Returned tt, s1, l1) ->
    ~ (exists msg s' l, r = (Thrown msg, s', l)) /\
    (forall msg s' l, r = (Thrown msg, s', l) -> s' = s /\ l = [])).
  { intros r s1 l1 ->. split; [intros (msg & s' & l & H) |]; discriminate. }
  assert (Hthrows : forall (r : Outcome unit * Impl * list Entry) msg,
    r = (Thrown msg, s, []) ->
    (exists msg s' l, r = (Thrown msg, s', l)) /\
    (forall msg s' l, r = (Thrown msg, s', l) -> s' = s /\ l = [])).
  { intros r msg ->. split; [now eexists _, _, _ |].
    intros msg' s' l [= _ <- <-]. now split. }
  assert (Hno : forall r : Outcome unit * Impl * list Entry,
    ~ (exists msg s' l, r = (Thrown msg, s', l)) ->
    ~ ((isSend task = true /\ error_ s <> kSuccess) \/
       (error_ s = kSuccess /\
        exists packet,
          task = TaskReadPacketDone kSuccess packet /\
          match packet with
          | PacketNotification n =>
              forall op, In op (sendOperations_ s) ->
                         id op <> notification_id n
          | PacketNotSet => True
          end)) ->
    (exists msg s' l, r = (Thrown msg, s', l)) <->
    (isSend task = true /\ error_ s <> kSuccess) \/
    (error_ s = kSuccess /\
     exists packet,
       task = TaskReadPacketDone kSuccess packet /\
       match packet with
       | PacketNotification n =>
           forall op, In op (sendOperations_ s) -> id op <> notification_id n
       | PacketNotSet => True
       end)) by (intros r H1 H2; tauto).
  destruct (error_cases s) as [He | He];
    destruct task as [| ptr len dcb cb | descriptor ptr len cb | | e packet
                     | e | e i cb].
  all: try (destruct (@Hreturns (runTask TaskInit s) s _ eq_refl)
              as [Hnot Hsame];
            split; [apply Hno; [exact Hnot |] | exact Hsame];
            intros [[H _] | (_ & p & H & _)]; discriminate).
  all: try (destruct (@Hreturns (runTask (TaskRecv descriptor ptr len cb) s)
                        s _ eq_refl) as [Hnot Hsame];
            split; [apply Hno; [exact Hnot |] | exact Hsame];
            intros [[H _] | (_ & p & H & _)]; discriminate).
  - (* send, no error *)
    destruct (@Hreturns (runTask (TaskSend ptr len dcb cb) s) _ _
                (@sendFromLoop_active s ptr len dcb cb He)) as [Hnot Hsame].
    split; [apply Hno; [exact Hnot |] | exact Hsame].
    intros [[_ H] | (_ & p & H & _)]; [contradiction | discriminate].
  - (* close, no error *)
    destruct (@Hreturns (runTask TaskClose s) _ _ (@closeFromLoop_active s He))
      as [Hnot Hsame].
    split; [apply Hno; [exact Hnot |] | exact Hsame].
    intros [[H _] | (_ & p & H & _)]; discriminate.
  - (* read completion, no error on the channel *)
    destruct e.
    2-5: match goal with
         | |- context [TaskReadPacketDone ?e0 _] =>
             assert (Hne : e0 <> kSuccess) by discriminate;
             destruct (@Hreturns (runTask (TaskReadPacketDone e0 packet) s)
                         _ _ (@deferring_error e0 (onPacket_ packet) s He Hne))
               as [Hnot Hsame];
             (split; [apply Hno; [exact Hnot |] | exact Hsame]);
             intros [[H _] | (_ & p & H & _)]; discriminate
         end.
    change (runTask (TaskReadPacketDone kSuccess packet) s)
      with (deferringEntryPoint kSuccess (onPacket_ packet) s).
    rewrite deferring_ok by exact He.
    destruct packet as [[N] |].
    + rewrite onPacket_notification.
      destruct (find_if (fun op => id op =? N) (sendOperations_ s))
        as [[[before op] after] |] eqn:Hfind.
      * cbv zeta.
        match goal with
        | |- ((exists msg s' l, ?r = _) <-> _) /\ _ =>
            destruct (@Hreturns r _ _ eq_refl) as [Hnot Hsame]
        end.
        split; [apply Hno; [exact Hnot |] | exact Hsame].
        intros [[H _] | (_ & p & [= <-] & Hnone)]; [discriminate |].
        apply find_if_some in Hfind. destruct Hfind as (Hops & Hid & _).
        apply Z.eqb_eq in Hid.
        apply (Hnone op); [| exact Hid].
        rewrite Hops. apply in_or_app. right. now left.
      * match goal with
        | |- ((exists msg s' l, ?r = _) <-> _) /\ _ =>
            destruct (@Hthrows r _ eq_refl) as [Hyes Hsame]
        end.
        split; [| exact Hsame]. split; [| intros _; exact Hyes].
        intros _. right. split; [exact He |]. eexists. split; [reflexivity |].
        simpl. intros op Hin Hid.
        assert (Hsome : exists before o after,
          find_if (fun op => id op =? N) (sendOperations_ s)
          = Some (before, o, after)).
        { apply find_if_exists. exists op.
          split; [exact Hin | now apply Z.eqb_eq]. }
        destruct Hsome as (b & o & a & Hsome). congruence.
    + destruct (@Hthrows (onPacket_ PacketNotSet s) _ eq_refl)
        as [Hyes Hsame].
      split; [| exact Hsame]. split; [| intros _; exact Hyes].
      intros _. right. split; [exact He |]. now exists PacketNotSet.
  - (* write completion, no error on the channel *)
    destruct e.
    2-5: match goal with
         | |- context [TaskWritePacketDone ?e0] =>
             assert (Hne : e0 <> kSuccess) by discriminate;
             destruct (@Hreturns (runTask (TaskWritePacketDone e0) s)
                         _ _ (@deferring_error e0 (ret tt) s He Hne))
               as [Hnot Hsame];
             (split; [apply Hno; [exact Hnot |] | exact Hsame]);
             intros [[H _] | (_ & p & H & _)]; discriminate
         end.
    change (runTask (TaskWritePacketDone kSuccess) s)
      with (deferringEntryPoint kSuccess (ret tt) s).
    rewrite deferring_ok by exact He.
    destruct (@Hreturns (ret tt s) _ _ eq_refl) as [Hnot Hsame].
    split; [apply Hno; [exact Hnot |] | exact Hsame].
    intros [[H _] | (_ & p & H & _)]; discriminate.
  - (* copy completion, no error on the channel *)
    destruct (error_cases {| error_ := e; id_ := 0; sendOperations_ := [] |})
      as [Hok | Hfailed]; cbn [error_] in *.
    + destruct (@Hreturns (runTask (TaskCopyDone e i cb) s) _ _
                  (@copyDone_quiet s e i cb (or_intror Hok))) as [Hnot Hsame].
      split; [apply Hno; [exact Hnot |] | exact Hsame].
      intros [[H _] | (_ & p & H & _)]; discriminate.
    + destruct (@Hreturns (runTask (TaskCopyDone e i cb) s) _ _
                  (@copyDone_first_error s e i cb He Hfailed)) as [Hnot Hsame].
      split; [apply Hno; [exact Hnot |] | exact Hsame].
      intros [[H _] | (_ & p & H & _)]; discriminate.
  - (* send, error set *)
    destruct (@Hthrows (runTask (TaskSend ptr len dcb cb) s) _
                (@sendFromLoop_failed s ptr len dcb cb He)) as [Hyes Hsame].
    split; [| exact Hsame]. split; [| intros _; exact Hyes].
    intros _. left. now split.
  - (* close, error set *)
    destruct (@Hreturns (runTask TaskClose s) _ _ (@closeFromLoop_failed s He))
      as [Hnot Hsame].
    split; [apply Hno; [exact Hnot |] | exact Hsame].
    intros [[H _] | (Hs & _)]; [discriminate | contradiction].
  - destruct (@Hreturns (runTask (TaskReadPacketDone e packet) s) _ _
                (@deferring_failed e (onPacket_ packet) s He)) as [Hnot Hsame].
    split; [apply Hno; [exact Hnot |] | exact Hsame].
    intros [[H _] | (Hs & _)]; [discriminate | contradiction].
  - destruct (@Hreturns (runTask (TaskWritePacketDone e) s) _ _
                (@deferring_failed e (ret tt) s He)) as [Hnot Hsame].
    split; [apply Hno; [exact Hnot |] | exact Hsame].
    intros [[H _] | (Hs & _)]; [discriminate | contradiction].
  - destruct (@Hreturns (runTask (TaskCopyDone e i cb) s) _ _
                (@copyDone_quiet s e i cb (or_introl He))) as [Hnot Hsame].
    split; [apply Hno; [exact Hnot |] | exact Hsame].
    intros [[H _] | (Hs & _)]; [discriminate | contradiction].
Qed.

End WithEnvironment.

(** ** Concrete channels

    The serialized descriptor is the descriptor itself; the process has pid
    4242. *)

Definition exampleSave (d : Descriptor) : Descriptor := d.
Definition exampleLoad (d : Descriptor) : Descriptor := d.
Definition examplePid : Z := 4242.

(** A channel with three sends in flight. *)
Definition exampleChannel : Impl :=
  {| error_ := kSuccess; id_ := 3;
     sendOperations_ := [ {| id := 0; callback := 10%nat |};
                          {| id := 1; callback := 11%nat |};
                          {| id := 2; callback := 12%nat |} ] |}.

(** The same channel after [close()]. *)
Definition exampleClosed : Impl :=
  {| error_ := ChannelClosedError; id_ := 3; sendOperations_ := [] |}.

(** A run: the channel is initialised, sends twice, and the notification for
    the first send arrives. *)
Definition exampleTasks : list (Task Descriptor) :=
  [ TaskInit Descriptor;
    TaskSend Descriptor 4096 4 1%nat 2%nat;
    TaskSend Descriptor 8192 8 3%nat 4%nat;
    TaskReadPacketDone Descriptor kSuccess
      (PacketNotification {| notification_id := 0 |}) ].

Definition exampleRun : Outcome unit * Impl * list (Entry Descriptor) :=
  runLoop exampleSave exampleLoad examplePid exampleTasks fresh.

Lemma close_fails_sends_in_flight_witness :
  error_ exampleChannel = kSuccess /\
  closeFromLoop_ Descriptor exampleChannel
  = (Returned tt, exampleClosed,
     [(EvSendCallback Descriptor 10%nat ChannelClosedError, exampleClosed);
      (EvSendCallback Descriptor 11%nat ChannelClosedError, exampleClosed);
      (EvSendCallback Descriptor 12%nat ChannelClosedError, exampleClosed);
      (EvConnectionClose Descriptor, exampleClosed)]).
Proof.
  split; [reflexivity |].
  exact (proj1 (close_fails_sends_in_flight exampleSave exampleLoad
                  examplePid exampleChannel)
           eq_refl).
Defined.

Lemma notification_completes_matching_send_witness :
  sendOperations_ exampleChannel
  = [{| id := 0; callback := 10%nat |}]
    ++ {| id := 1; callback := 11%nat |}
    :: [{| id := 2; callback := 12%nat |}] /\
  onPacket_ Descriptor (PacketNotification {| notification_id := 1 |})
    exampleChannel
  = (Returned tt,
     {| error_ := kSuccess; id_ := 3;
        sendOperations_ := [ {| id := 0; callback := 10%nat |};
                             {| id := 2; callback := 12%nat |} ] |},
     [(EvSendCallback Descriptor 11%nat kSuccess,
       {| error_ := kSuccess; id_ := 3;
          sendOperations_ := [ {| id := 0; callback := 10%nat |};
                               {| id := 2; callback := 12%nat |} ] |});
      (EvConnectionRead Descriptor,
       {| error_ := kSuccess; id_ := 3;
          sendOperations_ := [ {| id := 0; callback := 10%nat |};
                               {| id := 2; callback := 12%nat |} ] |})]).
Proof.
  split; [reflexivity |].
  refine (proj1 (notification_completes_matching_send exampleSave exampleLoad
                   examplePid exampleChannel 1)
            [{| id := 0; callback := 10%nat |}]
            {| id := 1; callback := 11%nat |}
            [{| id := 2; callback := 12%nat |}] eq_refl eq_refl _).
  intros o [<- | []]. discriminate.
Defined.

(** What C4 says of one completion of a copy: after a failed copy the recv
    callback is called with the copy error and no notification is written;
    after a successful one the notification is written and then the recv
    callback is called with success. *)
Definition copyCompletionAsClaimed (st : Impl) (e : Error) (id : Z)
    (callback : TRecvCallback) : Prop :=
  let notification :=
    EvConnectionWrite Descriptor
      (PacketNotification {| notification_id := id |}) in
  let l :=
    events (snd (runTask exampleSave exampleLoad examplePid
                   (TaskCopyDone Descriptor e id callback) st)) in
  (e <> kSuccess ->
   In (EvRecvCallback Descriptor callback e) l /\ ~ In notification l) /\
  (e = kSuccess ->
   l = [notification; EvRecvCallback Descriptor callback kSuccess]).

(** On the channel with three sends in flight, the copy for operation 7
    fails with errno 3: the notification for 7 is written.  On the closed
    channel the copy for operation 7 succeeds: the recv callback is called
    with [ChannelClosedError]. *)
Lemma copy_completion_not_as_claimed :
  ~ copyCompletionAsClaimed exampleChannel (SystemError "cma" 3) 7 5%nat /\
  ~ copyCompletionAsClaimed exampleClosed kSuccess 7 5%nat.
Proof.
  unfold copyCompletionAsClaimed. split.
  - intros [Hfailed _].
    destruct (Hfailed ltac:(discriminate)) as [_ Hnone]. apply Hnone.
    vm_compute. do 4 right. now left.
  - intros [_ Hok]. specialize (Hok eq_refl). vm_compute in Hok.
    discriminate.
Qed.

Lemma recv_completion_notifies_then_reports_channel_error_witness :
  error_ exampleChannel = kSuccess /\
  SystemError "cma" 3 <> kSuccess /\
  events (snd (runTask exampleSave exampleLoad examplePid
                 (TaskCopyDone Descriptor (SystemError "cma" 3) 7 5%nat)
                 exampleChannel))
  = [EvSendCallback Descriptor 10%nat (SystemError "cma" 3);
     EvSendCallback Descriptor 11%nat (SystemError "cma" 3);
     EvSendCallback Descriptor 12%nat (SystemError "cma" 3);
     EvConnectionClose Descriptor;
     EvConnectionWrite Descriptor
       (PacketNotification {| notification_id := 7 |});
     EvRecvCallback Descriptor 5%nat (SystemError "cma" 3)].
Proof.
  assert (He : SystemError "cma" 3 <> kSuccess) by discriminate.
  split; [reflexivity | split; [exact He |]].
  destruct (recv_completion_notifies_then_reports_channel_error
              exampleSave exampleLoad examplePid exampleChannel
              (SystemError "cma" 3) 7 5%nat) as (_ & Hfail & _).
  rewrite (Hfail eq_refl He). reflexivity.
Defined.

Lemma send_takes_next_id_witness :
  exampleRun = (Returned tt, snd (fst exampleRun), snd exampleRun) /\
  error_ (snd (fst exampleRun)) = kSuccess /\
  Z.of_nat (sendsIn exampleTasks) < UINT64_MODULUS /\
  fst (sendFromLoop_ exampleSave examplePid 12288 16 5%nat 6%nat
         (snd (fst exampleRun)))
  = (Returned tt,
     {| error_ := kSuccess; id_ := 3;
        sendOperations_ := [ {| id := 1; callback := 4%nat |};
                             {| id := 2; callback := 6%nat |} ] |}).
Proof.
  assert (Hrun : exampleRun
                 = (Returned tt, snd (fst exampleRun), snd exampleRun))
    by reflexivity.
  assert (He : error_ (snd (fst exampleRun)) = kSuccess) by reflexivity.
  assert (Hroom : Z.of_nat (sendsIn exampleTasks) < UINT64_MODULUS)
    by reflexivity.
  split; [exact Hrun | split; [exact He | split; [exact Hroom |]]].
  rewrite (proj1 (send_takes_next_id exampleSave exampleLoad examplePid
                    exampleTasks 12288 16 5%nat 6%nat Hrun He Hroom)).
  reflexivity.
Defined.

Lemma failed_channel_send_throws_recv_copies_witness :
  error_ exampleClosed <> kSuccess /\
  sendFromLoop_ exampleSave examplePid 4096 4 1%nat 2%nat exampleClosed
  = (Thrown "TP_THROW_ASSERT", exampleClosed, []) /\
  recvFromLoop_ exampleLoad
    {| operation_id := 0; pid := 77; ptr := 4096 |} 8192 4 5%nat exampleClosed
  = (Returned tt, exampleClosed,
     [(EvRequestCopy Descriptor 77 4096 8192 4 0 5%nat, exampleClosed)]).
Proof.
  assert (He : error_ exampleClosed <> kSuccess) by discriminate.
  destruct (failed_channel_send_throws_recv_copies exampleSave exampleLoad
              examplePid exampleClosed He) as [Hsend Hrecv].
  split; [exact He | split; [apply Hsend | apply Hrecv]].
Defined.

(** What C10 says of a run and an operation id: once the descriptor with
    that id has been handed out, on a channel with no error, a notification
    for it does not throw. *)
Definition deliveredNeverUnknown (tasks : list (Task Descriptor)) (i : Z)
  : Prop :=
  let '(r, st, log) :=
    runLoop exampleSave exampleLoad examplePid tasks fresh in
  r = Returned tt ->
  In i (map operation_id (descriptorsIn log)) ->
  error_ st = kSuccess ->
  forall msg,
    fst (fst (onPacket_ Descriptor
                (PacketNotification {| notification_id := i |}) st))
    <> Thrown msg.

(** After the example run the descriptor of id 0 has been handed out, the
    channel has no error, and the notification for 0 has been received once:
    a second one throws. *)
Lemma second_notification_is_unknown : ~ deliveredNeverUnknown exampleTasks 0.
Proof.
  unfold deliveredNeverUnknown. intros Hclaim.
  apply (Hclaim eq_refl (or_introl eq_refl) eq_refl
           "Expected send operation to exist."%string).
  reflexivity.
Qed.

Lemma descriptor_handed_out_after_registration_witness :
  exampleRun = (Returned tt, snd (fst exampleRun), snd exampleRun) /\
  Z.of_nat (sendsIn exampleTasks) < UINT64_MODULUS /\
  descriptorsIn (snd exampleRun)
  = [ {| operation_id := 0; pid := 4242; ptr := 4096 |};
      {| operation_id := 1; pid := 4242; ptr := 8192 |} ].
Proof.
  assert (Hrun : exampleRun
                 = (Returned tt, snd (fst exampleRun), snd exampleRun))
    by reflexivity.
  assert (Hroom : Z.of_nat (sendsIn exampleTasks) < UINT64_MODULUS)
    by reflexivity.
  split; [exact Hrun | split; [exact Hroom |]].
  destruct (descriptor_handed_out_after_registration exampleSave exampleLoad
              examplePid exampleTasks Hrun Hroom) as (_ & Hdescr & _).
  rewrite Hdescr. reflexivity.
Defined.

(** A longer run: after the example run a third send, then [close()], then
    a late notification and the completion of a copy. *)
Definition exampleClosingTasks : list (Task Descriptor) :=
  exampleTasks
  ++ [ TaskSend Descriptor 12288 16 5%nat 6%nat;
       TaskClose Descriptor;
       TaskReadPacketDone Descriptor kSuccess
         (PacketNotification {| notification_id := 1 |});
       TaskCopyDone Descriptor kSuccess 7 9%nat ].

Definition exampleClosingRun
  : Outcome unit * Impl * list (Entry Descriptor) :=
  runLoop exampleSave exampleLoad examplePid exampleClosingTasks fresh.

Lemma every_send_callback_called_once_witness :
  exampleClosingRun
  = (Returned tt, snd (fst exampleClosingRun), snd exampleClosingRun) /\
  error_ (snd (fst exampleClosingRun)) <> kSuccess /\
  Permutation (sendCallbacksIn (snd exampleClosingRun)) [2; 4; 6]%nat.
Proof.
  assert (Hrun : exampleClosingRun
                 = (Returned tt, snd (fst exampleClosingRun),
                    snd exampleClosingRun)) by reflexivity.
  assert (He : error_ (snd (fst exampleClosingRun)) <> kSuccess)
    by (vm_compute; discriminate).
  split; [exact Hrun | split; [exact He |]].
  destruct (every_send_callback_called_once exampleSave exampleLoad
              examplePid exampleClosingTasks Hrun) as (_ & Hfailed & _).
  exact (Hfailed He).
Defined.

Lemma connection_closed_once_witness :
  exampleClosingRun
  = (Returned tt, snd (fst exampleClosingRun), snd exampleClosingRun) /\
  error_ (snd (fst exampleClosingRun)) <> kSuccess /\
  exists l1 snap l2,
    snd exampleClosingRun = l1 ++ (EvConnectionClose Descriptor, snap) :: l2 /\
    closesIn l1 = 0%nat /\ closesIn l2 = 0%nat /\
    error_ snap = error_ (snd (fst exampleClosingRun)) /\
    sendCallbacksIn l2 = [] /\ descriptorCallbacksIn l2 = [].
Proof.
  assert (Hrun : exampleClosingRun
                 = (Returned tt, snd (fst exampleClosingRun),
                    snd exampleClosingRun)) by reflexivity.
  assert (He : error_ (snd (fst exampleClosingRun)) <> kSuccess)
    by (vm_compute; discriminate).
  split; [exact Hrun | split; [exact He |]].
  exact (proj2 (connection_closed_once exampleSave exampleLoad examplePid
                  exampleClosingTasks Hrun) He).
Defined.

Lemma one_read_per_completion_witness :
  exampleRun = (Returned tt, snd (fst exampleRun), snd exampleRun) /\
  error_ (snd (fst exampleRun)) = kSuccess /\
  readsIn (snd exampleRun) = 2%nat.
Proof.
  assert (Hrun : exampleRun
                 = (Returned tt, snd (fst exampleRun), snd exampleRun))
    by reflexivity.
  assert (He : error_ (snd (fst exampleRun)) = kSuccess) by reflexivity.
  split; [exact Hrun | split; [exact He |]].
  exact (proj2 (one_read_per_completion exampleSave exampleLoad examplePid
                  exampleTasks Hrun) He).
Defined.

Lemma failed_channel_is_silent_witness :
  error_ exampleClosed <> kSuccess /\
  sendCallbacksIn
    (snd (runTask exampleSave exampleLoad examplePid
            (TaskCopyDone Descriptor kSuccess 7 5%nat) exampleClosed))
  = [].
Proof.
  assert (He : error_ exampleClosed <> kSuccess) by discriminate.
  split; [exact He |].
  destruct (runTask exampleSave exampleLoad examplePid
              (TaskCopyDone Descriptor kSuccess 7 5%nat) exampleClosed)
    as [[r s'] l] eqn:Hrun.
  destruct (failed_channel_is_silent exampleSave exampleLoad examplePid
              (TaskCopyDone Descriptor kSuccess 7 5%nat) exampleClosed
              He Hrun) as (_ & _ & Hcb & _).
  exact Hcb.
Defined.

Lemma notifications_commute_witness :
  error_ exampleChannel = kSuccess /\ 0 <> 2 /\
  exists st' l12 l21 cb1 cb2,
    runLoop exampleSave exampleLoad examplePid
      [TaskReadPacketDone Descriptor kSuccess
         (PacketNotification {| notification_id := 0 |});
       TaskReadPacketDone Descriptor kSuccess
         (PacketNotification {| notification_id := 2 |})] exampleChannel
    = (Returned tt, st', l12) /\
    runLoop exampleSave exampleLoad examplePid
      [TaskReadPacketDone Descriptor kSuccess
         (PacketNotification {| notification_id := 2 |});
       TaskReadPacketDone Descriptor kSuccess
         (PacketNotification {| notification_id := 0 |})] exampleChannel
    = (Returned tt, st', l21) /\
    error_ st' = kSuccess /\ id_ st' = id_ exampleChannel /\
    events l12 = [EvSendCallback Descriptor cb1 kSuccess;
                  EvConnectionRead Descriptor;
                  EvSendCallback Descriptor cb2 kSuccess;
                  EvConnectionRead Descriptor] /\
    events l21 = [EvSendCallback Descriptor cb2 kSuccess;
                  EvConnectionRead Descriptor;
                  EvSendCallback Descriptor cb1 kSuccess;
                  EvConnectionRead Descriptor].
Proof.
  assert (Hne : 0 <> 2) by discriminate.
  split; [reflexivity | split; [exact Hne |]].
  apply (notifications_commute exampleSave exampleLoad examplePid
           exampleChannel eq_refl Hne).
  - exists {| id := 0; callback := 10%nat |}. split; [now left | reflexivity].
  - exists {| id := 2; callback := 12%nat |}.
    split; [right; right; now left | reflexivity].
Defined.

Lemma send_then_notification_witness :
  exampleRun = (Returned tt, snd (fst exampleRun), snd exampleRun) /\
  Z.of_nat (sendsIn exampleTasks) < UINT64_MODULUS /\
  error_ (snd (fst exampleRun)) = kSuccess /\
  exists l,
    runLoop exampleSave exampleLoad examplePid
      [TaskSend Descriptor 12288 16 5%nat 6%nat;
       TaskReadPacketDone Descriptor kSuccess
         (PacketNotification {| notification_id := 2 |})]
      (snd (fst exampleRun))
    = (Returned tt,
       {| error_ := kSuccess; id_ := 3;
          sendOperations_ := [ {| id := 1; callback := 4%nat |} ] |}, l) /\
    events l
    = [EvDescriptorCallback 5%nat kSuccess
         {| operation_id := 2; pid := 4242; ptr := 12288 |};
       EvSendCallback Descriptor 6%nat kSuccess;
       EvConnectionRead Descriptor].
Proof.
  assert (Hrun : exampleRun
                 = (Returned tt, snd (fst exampleRun), snd exampleRun))
    by reflexivity.
  assert (Hroom : Z.of_nat (sendsIn exampleTasks) < UINT64_MODULUS)
    by reflexivity.
  assert (He : error_ (snd (fst exampleRun)) = kSuccess) by reflexivity.
  split; [exact Hrun | split; [exact Hroom | split; [exact He |]]].
  exact (send_then_notification exampleSave exampleLoad examplePid
           exampleTasks 12288 16 5%nat 6%nat Hrun Hroom He).
Defined.

Lemma task_throws_exactly_when_witness :
  runTask exampleSave exampleLoad examplePid
    (TaskReadPacketDone Descriptor kSuccess
       (PacketNotification {| notification_id := 7 |})) exampleChannel
  = (Thrown "Expected send operation to exist.", exampleChannel, []) /\
  exists msg s' l,
    runTask exampleSave exampleLoad examplePid
      (TaskSend Descriptor 4096 4 1%nat 2%nat) exampleClosed
    = (Thrown msg, s', l).
Proof.
  assert (Hrun :
    runTask exampleSave exampleLoad examplePid
      (TaskReadPacketDone Descriptor kSuccess
         (PacketNotification {| notification_id := 7 |})) exampleChannel
    = (Thrown "Expected send operation to exist.", exampleChannel, []))
    by reflexivity.
  split; [exact Hrun |].
  apply (proj1 (task_throws_exactly_when exampleSave exampleLoad examplePid
                  (TaskSend Descriptor 4096 4 1%nat 2%nat) exampleClosed)).
  left. split; [reflexivity | discriminate].
Defined.

End Channel.

(** * One transfer, from send to completion

    The sender's channel, the receiver's channel and the receiver's context
    together: the descriptor goes from [sendFromLoop_] to [recvFromLoop_],
    the copy request from [recvFromLoop_] to the worker through
    [requestCopy], the worker's result back to the receiver's loop, and the
    notification back to the sender's [onPacket_]. *)

Module Transfer.

Import Channel.

Section WithProcesses.

Variable TDescriptor : Type.
Variable saveDescriptor : Descriptor -> TDescriptor.
Variable loadDescriptor : TDescriptor -> Descriptor.

(** [getpid()] in the sender's process. *)
Variable senderPid : Z.

Variable World : Type.
Variable process_vm_readv :
  World -> Z -> list Context.iovec -> list Context.iovec -> Z -> World * Z.
Variable errno : World -> Z.

(** The error with which the transport completes a read on a connection
    that its peer has closed. *)
Variable connectionDropped : Error.

(** The function object that [recvFromLoop_] hands to [requestCopy]:
    [copyCallbackWrapper_] around a closure that captured [id] and
    [callback]. *)
Definition CopyCallback : Type := (Z * TRecvCallback)%type.

(** What a call logged by the receiver's channel does to the receiver's
    context: [context_->requestCopy(...)]. *)
Definition toContext (ev : Event TDescriptor)
    (ctx : Context.Impl CopyCallback World) : Context.Impl CopyCallback World :=
  match ev with
  | EvRequestCopy _ remotePid remotePtr localPtr length id cb =>
      Context.requestCopy remotePid remotePtr localPtr length (id, cb) ctx
  | _ => ctx
  end.

(** Modelled from the spec: what a call logged by the context hands to the
    receiver's loop.  The function object of a copy is
    [copyCallbackWrapper_] around the completion (tensorpipe/common/callback.h,
    not among the sources); by section 4.2 of the specification every
    completion callback of the copy engine defers to the loop before
    touching the channel, so the worker's call of it with [e] becomes the
    task of the completion. *)
Definition toLoop (ev : Context.ContextEvent CopyCallback)
  : list (Task TDescriptor) :=
  match ev with
  | Context.EvWorker (Context.EvCallback (id, cb) e) =>
      [TaskCopyDone TDescriptor e id cb]
  | _ => []
  end.

(** Modelled from the spec: the transport (not among the sources), a
    bidirectional in-order message connection, seen from the peer, which by
    section 4.3.4 keeps one read outstanding.  The packets a channel wrote
    while its connection was open complete the peer's reads in the order
    written; once the channel has called [connection_->close()] nothing more
    goes out, and by section 4.3.3 the peer learns of the failure when the
    connection drops: its outstanding read completes with the transport's
    error and no packet. *)
Fixpoint toPeer (l : list (Event TDescriptor)) : list (Task TDescriptor) :=
  match l with
  | [] => []
  | EvConnectionClose _ :: _ =>
      [TaskReadPacketDone TDescriptor connectionDropped PacketNotSet]
  | EvConnectionWrite _ p :: l' =>
      TaskReadPacketDone TDescriptor kSuccess p :: toPeer l'
  | _ :: l' => toPeer l'
  end.

(** The request that [recvFromLoop_] makes of the context for the descriptor
    of the send numbered [id]. *)
Definition copyRequest (id ptr localPtr localLength : Z)
    (rcb : TRecvCallback) : Context.CopyRequest CopyCallback :=
  {| Context.remotePid := senderPid; Context.remotePtr := ptr;
     Context.localPtr := localPtr; Context.length := localLength;
     Context.callback := (id, rcb) |}.

(** What the context logs when the request is pushed and the worker serves
    it with result [e]. *)
Definition served (request : Context.CopyRequest CopyCallback) (e : Error)
  : list (Context.ContextEvent CopyCallback) :=
  [Context.EvPush (Some request);
   Context.EvWorker
     (Context.EvProcessVmReadv CopyCallback (Context.remotePid request)
        [{| Context.iov_base := Context.localPtr request;
            Context.iov_len := Context.length request |}]
        [{| Context.iov_base := Context.remotePtr request;
            Context.iov_len := Context.length request |}] 0);
   Context.EvWorker (Context.EvCallback (Context.callback request) e)].

Lemma toPeer_after_failure (e : Error) (s : Impl)
    (l : list (Entry TDescriptor)) :
  toPeer (events (failureLog TDescriptor e s ++ l))
  = [TaskReadPacketDone TDescriptor connectionDropped PacketNotSet].
Proof.
  unfold failureLog, events. rewrite !map_app, <- app_assoc.
  induction (sendOperations_ s) as [| op ops IH]; [reflexivity | exact IH].
Qed.

(** A transfer, end to end.  With a codec that reads back what it wrote, a
    sender with no error whose next id is not in flight, a receiver with no
    error, and the receiver's worker waiting on an empty queue: the
    descriptor handed out by the send makes the receiver push a request for
    a copy from the sender's process and buffer into its own buffer, of the
    length the receiver gave; the worker's next turn makes that one system
    call and calls the request's function object with the result [e], which
    is no error when all the bytes were transferred; the receiver's loop
    then calls the recv callback with [e].  When the copy succeeded the
    receiver stays as it was and its notification reaches the sender, where
    it completes the send with no error and leaves in flight what was in
    flight before.  When the copy failed the receiver has closed its
    connection before writing: no notification reaches the sender, whose
    outstanding read fails instead, so that the send and every other send in
    flight are called back with the transport's error and the sender closes
    its connection too. *)
Theorem transfer_end_to_end (sender receiver : Impl)
    (ctx : Context.Impl CopyCallback World)
    (ptr length : Z) (dcb : TDescriptorCallback) (cb : TSendCallback)
    (localPtr localLength : Z) (rcb : TRecvCallback) :
  (forall d, loadDescriptor (saveDescriptor d) = d) ->
  error_ sender = kSuccess ->
  (forall op, In op (sendOperations_ sender) -> id op <> id_ sender) ->
  error_ receiver = kSuccess ->
  Context.thread_ ctx = Context.Running ->
  Context.requests_ ctx = [] ->
  connectionDropped <> kSuccess ->
  let descriptor :=
    saveDescriptor
      {| operation_id := id_ sender; pid := senderPid; ptr := ptr |} in
  let copied :=
    EvRequestCopy TDescriptor senderPid ptr localPtr localLength
      (id_ sender) rcb in
  let request := copyRequest (id_ sender) ptr localPtr localLength rcb in
  exists nread e w' receiver' l,
    sendFromLoop_ saveDescriptor senderPid ptr length dcb cb sender
    = (Returned tt, registered cb sender,
       [(EvDescriptorCallback dcb kSuccess descriptor,
         registered cb sender)]) /\
    recvFromLoop_ loadDescriptor descriptor localPtr localLength rcb receiver
    = (Returned tt, receiver, [(copied, receiver)]) /\
    Context.requests_ (toContext copied ctx) = [Some request] /\
    process_vm_readv (Context.world ctx) senderPid
      [{| Context.iov_base := localPtr; Context.iov_len := localLength |}]
      [{| Context.iov_base := ptr; Context.iov_len := localLength |}] 0
    = (w', nread) /\
    (nread = localLength -> 0 <= localLength < 2 ^ 63 -> e = kSuccess) /\
    (nread = -1 -> e = SystemError "cma" (errno w')) /\
    Context.log
      (Context.stepWorker process_vm_readv errno (toContext copied ctx))
    = Context.log ctx ++ served request e /\
    Context.requests_
      (Context.stepWorker process_vm_readv errno (toContext copied ctx))
    = [] /\
    runLoop saveDescriptor loadDescriptor senderPid
      (flat_map toLoop (served request e)) receiver
    = (Returned tt, receiver', l) /\
    In (EvRecvCallback TDescriptor rcb e) (events l) /\
    (e = kSuccess ->
     receiver' = receiver /\
     toPeer (events l)
     = [TaskReadPacketDone TDescriptor kSuccess
          (PacketNotification {| notification_id := id_ sender |})] /\
     exists l',
       runLoop saveDescriptor loadDescriptor senderPid (toPeer (events l))
         (registered cb sender)
       = (Returned tt,
          {| error_ := kSuccess; id_ := to_uint64 (id_ sender + 1);
             sendOperations_ := sendOperations_ sender |}, l') /\
       events l' = [EvSendCallback TDescriptor cb kSuccess;
                    EvConnectionRead TDescriptor]) /\
    (e <> kSuccess ->
     error_ receiver' = e /\
     In (EvConnectionClose TDescriptor) (events l) /\
     toPeer (events l)
     = [TaskReadPacketDone TDescriptor connectionDropped PacketNotSet] /\
     exists l',
       runLoop saveDescriptor loadDescriptor senderPid (toPeer (events l))
         (registered cb sender)
       = (Returned tt,
          {| error_ := connectionDropped; id_ := to_uint64 (id_ sender + 1);
             sendOperations_ := [] |}, l') /\
       events l'
       = map (fun op => EvSendCallback TDescriptor (callback op)
                          connectionDropped) (sendOperations_ sender)
         ++ [EvSendCallback TDescriptor cb connectionDropped;
             EvConnectionClose TDescriptor]).
Proof.
  intros Hcodec He Hfresh Hr Hthread Hqueue Hdropped. cbv zeta.
  unfold copyRequest, served, CopyCallback in *.
  cbn [Context.remotePid Context.remotePtr Context.localPtr Context.length
       Context.callback].
  assert (Hfind :
    find_if (fun op => id op =? id_ sender)
      (sendOperations_ sender ++ [{| id := id_ sender; callback := cb |}])
    = Some (sendOperations_ sender,
            {| id := id_ sender; callback := cb |}, [])).
  { apply find_if_found.
    - intros o Ho. apply Z.eqb_neq. now apply Hfresh.
    - apply Z.eqb_refl. }
  pose (request :=
    {| Context.remotePid := senderPid; Context.remotePtr := ptr;
       Context.localPtr := localPtr; Context.length := localLength;
       Context.callback := (id_ sender, rcb) : CopyCallback |}).
  destruct (process_vm_readv (Context.world ctx) senderPid
              [{| Context.iov_base := localPtr;
                  Context.iov_len := localLength |}]
              [{| Context.iov_base := ptr; Context.iov_len := localLength |}]
              0) as [w1 nread] eqn:Hsys.
  set (e := if nread =? -1 then SystemError "cma" (errno w1)
            else if negb (to_uint64 nread =? localLength)
                 then ShortReadError localLength nread
                 else kSuccess).
  assert (Hall : nread = localLength -> 0 <= localLength < 2 ^ 63 ->
                 e = kSuccess).
  { intros -> Hlen. unfold e, to_uint64, UINT64_MODULUS.
    destruct (Z.eqb_spec localLength (-1)); [lia |].
    rewrite Z.mod_small by lia. now rewrite Z.eqb_refl. }
  assert (Hminus : nread = -1 -> e = SystemError "cma" (errno w1))
    by (intros ->; reflexivity).
  assert (Hturn :
    Context.stepWorker process_vm_readv errno
      (Context.requestCopy senderPid ptr localPtr localLength
         (id_ sender, rcb) ctx)
    = {| Context.domainDescriptor_ := Context.domainDescriptor_ ctx;
         Context.requests_ := [];
         Context.closed_ := Context.closed_ ctx;
         Context.joined_ := Context.joined_ ctx;
         Context.mutex_ := Context.mutex_ ctx;
         Context.thread_ := Context.Running;
         Context.world := w1;
         Context.pcs := Context.pcs ctx;
         Context.log :=
           (Context.log ctx ++ [Context.EvPush (Some request)])
           ++ map (@Context.EvWorker CopyCallback)
                [Context.EvProcessVmReadv CopyCallback senderPid
                   [{| Context.iov_base := localPtr;
                       Context.iov_len := localLength |}]
                   [{| Context.iov_base := ptr;
                       Context.iov_len := localLength |}] 0;
                 Context.EvCallback (id_ sender, rcb) e] |}).
  { clear Hall Hminus. subst e request.
    destruct ctx as [dd q c j m th w ps lg].
    cbn [Context.thread_ Context.requests_ Context.world] in Hthread, Hqueue,
      Hsys.
    subst th q.
    unfold Context.stepWorker, Context.requestCopy, Context.push,
      Context.logged, Context.performCopy.
    cbn [Context.thread_ Context.requests_ Context.world Context.log
         Context.domainDescriptor_ Context.closed_ Context.joined_
         Context.mutex_ Context.pcs app Context.remotePid Context.remotePtr
         Context.localPtr Context.length Context.callback].
    now rewrite Hsys. }
  clearbody e.
  exists nread, e, w1.
  assert (Hsend :
    sendFromLoop_ saveDescriptor senderPid ptr length dcb cb sender
    = (Returned tt, registered cb sender,
       [(EvDescriptorCallback dcb kSuccess
           (saveDescriptor
              {| operation_id := id_ sender; pid := senderPid; ptr := ptr |}),
         registered cb sender)]))
    by now apply sendFromLoop_active.
  assert (Hrecv :
    recvFromLoop_ loadDescriptor
      (saveDescriptor
         {| operation_id := id_ sender; pid := senderPid; ptr := ptr |})
      localPtr localLength rcb receiver
    = (Returned tt, receiver,
       [(EvRequestCopy TDescriptor senderPid ptr localPtr localLength
           (id_ sender) rcb, receiver)]))
    by (unfold recvFromLoop_, call; now rewrite Hcodec).
  destruct (error_cases {| error_ := e; id_ := 0; sendOperations_ := [] |})
    as [Hok | Hfailed]; cbn [error_] in *.
  - do 2 eexists.
    split; [exact Hsend | split; [exact Hrecv |]].
    split; [cbn [toContext]; unfold Context.requestCopy, Context.push,
              Context.logged; cbn [Context.requests_];
            now rewrite Hqueue |].
    split; [reflexivity | split; [exact Hall | split; [exact Hminus |]]].
    split; [cbn [toContext]; rewrite Hturn; cbn [Context.log map];
            now rewrite <- app_assoc |].
    split; [cbn [toContext]; now rewrite Hturn |].
    subst e. cbn [flat_map toLoop app].
    unfold runLoop at 1. cbn [for_each]. cbv [bind ret].
    rewrite copyDone_quiet by now right. cbv beta iota zeta.
    rewrite Hr, app_nil_r.
    split; [reflexivity |].
    split; [right; now left |].
    split; [| intros Hne; now contradiction Hne].
    intros _. split; [reflexivity | split; [reflexivity |]].
    eexists. unfold runLoop. cbn [events map fst toPeer for_each runTask].
    cbv [bind ret]. rewrite deferring_ok by reflexivity.
    rewrite onPacket_notification.
    cbn [sendOperations_ error_ id_ registered].
    rewrite Hfind. cbv beta iota zeta. rewrite app_nil_r.
    split; reflexivity.
  - do 2 eexists.
    split; [exact Hsend | split; [exact Hrecv |]].
    split; [cbn [toContext]; unfold Context.requestCopy, Context.push,
              Context.logged; cbn [Context.requests_];
            now rewrite Hqueue |].
    split; [reflexivity | split; [exact Hall | split; [exact Hminus |]]].
    split; [cbn [toContext]; rewrite Hturn; cbn [Context.log map];
            now rewrite <- app_assoc |].
    split; [cbn [toContext]; now rewrite Hturn |].
    cbn [flat_map toLoop app].
    unfold runLoop at 1. cbn [for_each]. cbv [bind ret].
    rewrite copyDone_first_error by assumption. cbv beta iota zeta.
    rewrite app_nil_r, app_cons_cons.
    change (map (fun op => (EvSendCallback TDescriptor (callback op) e,
                            {| error_ := e; id_ := id_ receiver;
                               sendOperations_ := [] |}))
              (sendOperations_ receiver)
            ++ [(EvConnectionClose TDescriptor,
                 {| error_ := e; id_ := id_ receiver;
                    sendOperations_ := [] |})])
      with (failureLog TDescriptor e receiver).
    split; [reflexivity |].
    split.
    { unfold events. rewrite map_app. apply in_or_app. right.
      right. now left. }
    split; [intros Hok; contradiction |].
    intros _. split; [reflexivity |].
    split.
    { unfold events, failureLog. rewrite !map_app. apply in_or_app. left.
      apply in_or_app. right. now left. }
    rewrite toPeer_after_failure.
    split; [reflexivity |].
    eexists. unfold runLoop. cbn [for_each runTask]. cbv [bind ret].
    rewrite deferring_error by (reflexivity || assumption).
    cbv beta iota zeta. rewrite app_nil_r.
    split; [reflexivity |].
    unfold events. cbn [registered sendOperations_ id_].
    rewrite !map_app, !map_map, <- app_assoc. reflexivity.
Qed.

End WithProcesses.

(** The receiver's context, with nothing queued. *)
Definition exampleReceiverContext : Context.Impl CopyCallback nat :=
  {| Context.domainDescriptor_ := "cma:b0071d/1000/100";
     Context.requests_ := []; Context.closed_ := false;
     Context.joined_ := false; Context.mutex_ := None;
     Context.thread_ := Context.Running; Context.world := O;
     Context.pcs := fun _ => Context.Idle; Context.log := [] |}.

(** The same context once its worker has made one system call; the next
    call fails. *)
Definition exampleFailingContext : Context.Impl CopyCallback nat :=
  {| Context.domainDescriptor_ := "cma:b0071d/1000/100";
     Context.requests_ := []; Context.closed_ := false;
     Context.joined_ := false; Context.mutex_ := None;
     Context.thread_ := Context.Running; Context.world := 1%nat;
     Context.pcs := fun _ => Context.Idle; Context.log := [] |}.

(** The example channel sends 4 bytes at address 4096 to a fresh channel.
    With a worker whose system call transfers all 4 bytes the send is
    completed with no error; with a worker whose system call fails the
    receiver ends with the system error, and the send and the three sends
    already in flight are called back with the transport's error. *)
Lemma transfer_end_to_end_witness :
  (forall d, exampleLoad (exampleSave d) = d) /\
  error_ exampleChannel = kSuccess /\
  error_ fresh = kSuccess /\
  Context.thread_ exampleReceiverContext = Context.Running /\
  Context.requests_ exampleReceiverContext = [] /\
  Context.thread_ exampleFailingContext = Context.Running /\
  Context.requests_ exampleFailingContext = [] /\
  TransportError "eof" <> kSuccess /\
  (exists l l',
     runLoop exampleSave exampleLoad examplePid
       (flat_map (@toLoop Descriptor)
          (served (copyRequest examplePid 3 4096 8192 4 5%nat) kSuccess))
       fresh
     = (Returned tt, fresh, l) /\
     runLoop exampleSave exampleLoad examplePid
       (toPeer (TransportError "eof") (events l))
       (registered 2%nat exampleChannel)
     = (Returned tt,
        {| error_ := kSuccess; id_ := to_uint64 (3 + 1);
           sendOperations_ := sendOperations_ exampleChannel |}, l') /\
     events l' = [EvSendCallback Descriptor 2%nat kSuccess;
                  EvConnectionRead Descriptor]) /\
  (exists receiver' l l',
     error_ receiver' = SystemError "cma" 3 /\
     runLoop exampleSave exampleLoad examplePid
       (flat_map (@toLoop Descriptor)
          (served (copyRequest examplePid 3 4096 8192 4 5%nat)
             (SystemError "cma" 3)))
       fresh
     = (Returned tt, receiver', l) /\
     runLoop exampleSave exampleLoad examplePid
       (toPeer (TransportError "eof") (events l))
       (registered 2%nat exampleChannel)
     = (Returned tt,
        {| error_ := TransportError "eof"; id_ := to_uint64 (3 + 1);
           sendOperations_ := [] |}, l') /\
     events l'
     = map (fun op => EvSendCallback Descriptor (callback op)
                        (TransportError "eof"))
         (sendOperations_ exampleChannel)
       ++ [EvSendCallback Descriptor 2%nat (TransportError "eof");
           EvConnectionClose Descriptor]).
Proof.
  assert (Hcodec : forall d, exampleLoad (exampleSave d) = d)
    by reflexivity.
  assert (Hfresh : forall op,
    In op (sendOperations_ exampleChannel) -> id op <> id_ exampleChannel).
  { intros op [<- | [<- | [<- | []]]]; discriminate. }
  assert (Hdropped : TransportError "eof" <> kSuccess) by discriminate.
  split; [exact Hcodec | split; [reflexivity | split; [reflexivity |]]].
  split; [reflexivity | split; [reflexivity |]].
  split; [reflexivity | split; [reflexivity | split; [exact Hdropped |]]].
  split.
  - destruct (@transfer_end_to_end Descriptor exampleSave exampleLoad
                examplePid nat Context.exampleReadv Context.exampleErrno
                (TransportError "eof")
                exampleChannel fresh exampleReceiverContext
                4096 4 1%nat 2%nat 8192 4 5%nat
                Hcodec eq_refl Hfresh eq_refl eq_refl eq_refl Hdropped)
      as (nread & e & w' & receiver' & l & _ & _ & _ & Hsys & Hall & _ & _ & _
          & Hloop & _ & Hok & _).
    assert (Hnread : nread = 4) by (vm_compute in Hsys; congruence).
    assert (He : e = kSuccess) by (apply Hall; [exact Hnread | lia]).
    subst e. destruct (Hok eq_refl) as (-> & _ & l' & Hdone & Hevents).
    exists l, l'.
    split; [exact Hloop | split; [exact Hdone | exact Hevents]].
  - destruct (@transfer_end_to_end Descriptor exampleSave exampleLoad
                examplePid nat Context.exampleReadv Context.exampleErrno
                (TransportError "eof")
                exampleChannel fresh exampleFailingContext
                4096 4 1%nat 2%nat 8192 4 5%nat
                Hcodec eq_refl Hfresh eq_refl eq_refl eq_refl Hdropped)
      as (nread & e & w' & receiver' & l & _ & _ & _ & Hsys & _ & Hminus & _
          & _ & Hloop & _ & _ & Hfailed).
    assert (Hnread : nread = -1) by (vm_compute in Hsys; congruence).
    assert (He : e = SystemError "cma" 3) by (now apply Hminus).
    subst e.
    destruct Hfailed as (Herror & _ & _ & l' & Hdone & Hevents);
      [discriminate |].
    exists receiver', l, l'.
    split; [exact Herror | split; [exact Hloop |]].
    split; [exact Hdone | exact Hevents].
Defined.

End Transfer.
